(** * Producer/consumer over a bounded queue

    A shallow embedding of [Assignment1_ProducerConsumer/producer_consumer.py]
    and the properties of its runs.

    The program has three threads: the caller of [start] (the coordinator), the
    producer thread and the consumer thread.  Every thread is sequential and
    deterministic, so each method is embedded as a function that performs the
    next atomic action of its thread, or returns [None] when the thread cannot
    move (it has not been started, it has returned, or it waits inside a
    blocking call).  A run is an arbitrary interleaving of these actions and of
    mutations that the caller applies to the list it passed to the
    constructor.

    Python lists are objects with identity: they live in a store and are
    referred to by location.  [log], [time.sleep] and the creation of the
    output file do not touch the state that is modelled first and are left
    out of it; [log] and the output file are then added on top of that model,
    in the part on the output file.  One call of [start] per object is
    covered. *)

From stdpp Require Import base numbers option list gmap strings pretty.

(** What a call of a method of the queue does: it returns, it has to wait on
    a condition variable, or it raises. *)
Inductive result (A : Type) : Type :=
| Returns (a : A)
| Blocks
| Raises.

Arguments Returns {A} a.
Arguments Blocks {A}.
Arguments Raises {A}.

Section model.

Context {Item : Type} `{EqDecision Item}.

(** ** [queue.Queue] of the Python standard library

    [maxsize] is the bound given at construction (unbounded when it is not
    positive), [queue] the underlying deque, [unfinished_tasks] the number of
    [put]s that have not been matched by a [task_done] yet.  Every method runs
    under the queue's mutex, hence is atomic. *)

Record Queue : Type := mkQueue {
  maxsize : Z;
  queue : list Item;
  unfinished_tasks : Z
}.

Definition Queue_new (maxsize : Z) : Queue := mkQueue maxsize [] 0.

Definition qsize (q : Queue) : Z := Z.of_nat (length (queue q)).

(** [put(item)]: waits while [maxsize > 0] and [qsize() >= maxsize]. *)
Definition put (q : Queue) (item : Item) : result Queue :=
  if bool_decide (0 < maxsize q)%Z && bool_decide (maxsize q ≤ qsize q)%Z
  then Blocks
  else Returns (mkQueue (maxsize q) (queue q ++ [item]) (unfinished_tasks q + 1)).

(** [get()]: waits while the queue is empty, then pops on the left. *)
Definition get (q : Queue) : result (Item * Queue) :=
  match queue q with
  | [] => Blocks
  | item :: rest => Returns (item, mkQueue (maxsize q) rest (unfinished_tasks q))
  end.

(** [task_done()]: raises [ValueError] when called more often than [put]. *)
Definition task_done (q : Queue) : result Queue :=
  let unfinished := (unfinished_tasks q - 1)%Z in
  if bool_decide (unfinished < 0)%Z then Raises
  else Returns (mkQueue (maxsize q) (queue q) unfinished).

(** [join()]: waits while [unfinished_tasks] is not zero. *)
Definition join (q : Queue) : result unit :=
  if bool_decide (unfinished_tasks q = 0%Z) then Returns tt else Blocks.

(** ** The threads *)

(** The producer: [PNext i] stands at the head of [for item in self.source]
    with the list iterator at index [i]; [PPut item i] is about to call
    [self.shared_queue.put(item)], the iterator already advanced to [i]. *)
Inductive producer_pc : Type :=
| PIdle
| PNext (i : nat)
| PPut (item : Item) (i : nat)
| PDone.

(** The consumer: [CEnter] is about to evaluate [range(len(self.source))];
    [CGet k n] stands at the head of the loop with [k] of [n] rounds done;
    [CAppend item k n] holds the item returned by [get()]; [CTaskDone k n] has
    appended it and is about to call [task_done()]; [CRaised] is a thread
    killed by an exception. *)
Inductive consumer_pc : Type :=
| CIdle
| CEnter
| CGet (k n : nat)
| CAppend (item : Item) (k n : nat)
| CTaskDone (k n : nat)
| CDone
| CRaised.

(** The coordinator, i.e. the thread inside [start]: [Idle] after
    construction, [Starting] after [producer_thread.start()], [Running] after
    [consumer_thread.start()], [JoiningConsumer] after
    [producer_thread.join()], [Draining] after [consumer_thread.join()],
    [Complete] after [shared_queue.join()]. *)
Inductive coordinator : Type :=
| Idle
| Starting
| Running
| JoiningConsumer
| Draining
| Complete.

(** ** The system *)

Record ProducerConsumer : Type := mkPC {
  heap : gmap positive (list Item);
  source : positive;
  destination : positive;
  shared_queue : Queue;
  producer_thread : producer_pc;
  consumer_thread : consumer_pc;
  phase : coordinator
}.

Definition set_heap (st : ProducerConsumer) (h : gmap positive (list Item)) :=
  mkPC h (source st) (destination st) (shared_queue st)
       (producer_thread st) (consumer_thread st) (phase st).

Definition set_queue (st : ProducerConsumer) (q : Queue) :=
  mkPC (heap st) (source st) (destination st) q
       (producer_thread st) (consumer_thread st) (phase st).

Definition set_producer (st : ProducerConsumer) (p : producer_pc) :=
  mkPC (heap st) (source st) (destination st) (shared_queue st)
       p (consumer_thread st) (phase st).

Definition set_consumer (st : ProducerConsumer) (c : consumer_pc) :=
  mkPC (heap st) (source st) (destination st) (shared_queue st)
       (producer_thread st) c (phase st).

Definition set_phase (st : ProducerConsumer) (m : coordinator) :=
  mkPC (heap st) (source st) (destination st) (shared_queue st)
       (producer_thread st) (consumer_thread st) m.

(** A new list object. *)
Definition alloc (h : gmap positive (list Item)) (v : list Item)
  : positive * gmap positive (list Item) :=
  let l := fresh (dom h) in (l, <[l := v]> h).

(** [__init__(self, source_data, queue_capacity)]: [list(source_data)] builds
    a new list with the elements of the argument, [[]] another one.  [None]
    when [source_data] is not a live list. *)
Definition __init__ (h : gmap positive (list Item)) (source_data : positive)
    (queue_capacity : Z) : option ProducerConsumer :=
  match h !! source_data with
  | None => None
  | Some items =>
      let '(src, h1) := alloc h items in
      let '(dst, h2) := alloc h1 [] in
      Some (mkPC h2 src dst (Queue_new queue_capacity) PIdle CIdle Idle)
  end.

(** The contents of the two lists of the object. *)
Definition input (st : ProducerConsumer) : list Item :=
  default [] (heap st !! source st).

Definition output (st : ProducerConsumer) : list Item :=
  default [] (heap st !! destination st).

(** [self.source == self.destination], the flag logged after completion. *)
Definition success (st : ProducerConsumer) : bool :=
  bool_decide (input st = output st).

(** What a run can be observed to do. *)
Inductive event : Type :=
| EStartProducer
| EStartConsumer
| EJoinProducer
| EJoinConsumer
| EComplete
| EFetch (item : Item)
| EPut (item : Item)
| EProducerDone
| EEnter (n : nat)
| ETake (item : Item)
| EAppend (item : Item)
| EAck
| EConsumerDone
| ERaise
| EMutate (items : list Item).

(** [producer(self)], one action at a time. *)
Definition producer (st : ProducerConsumer) : option (event * ProducerConsumer) :=
  match producer_thread st with
  | PIdle => None
  | PNext i =>
      match input st !! i with
      | Some item => Some (EFetch item, set_producer st (PPut item (S i)))
      | None => Some (EProducerDone, set_producer st PDone)
      end
  | PPut item i =>
      match put (shared_queue st) item with
      | Returns q => Some (EPut item, set_producer (set_queue st q) (PNext i))
      | _ => None
      end
  | PDone => None
  end.

(** [consumer(self)], one action at a time. *)
Definition consumer (st : ProducerConsumer) : option (event * ProducerConsumer) :=
  match consumer_thread st with
  | CIdle => None
  | CEnter =>
      let n := length (input st) in
      Some (EEnter n, set_consumer st (CGet 0 n))
  | CGet k n =>
      if bool_decide (k < n) then
        match get (shared_queue st) with
        | Returns (item, q) =>
            Some (ETake item, set_consumer (set_queue st q) (CAppend item k n))
        | _ => None
        end
      else Some (EConsumerDone, set_consumer st CDone)
  | CAppend item k n =>
      Some (EAppend item,
            set_consumer
              (set_heap st (<[destination st := output st ++ [item]]> (heap st)))
              (CTaskDone k n))
  | CTaskDone k n =>
      match task_done (shared_queue st) with
      | Returns q => Some (EAck, set_consumer (set_queue st q) (CGet (S k) n))
      | _ => Some (ERaise, set_consumer st CRaised)
      end
  | CDone => None
  | CRaised => None
  end.

Definition producer_returned (st : ProducerConsumer) : bool :=
  match producer_thread st with PDone => true | _ => false end.

Definition consumer_returned (st : ProducerConsumer) : bool :=
  match consumer_thread st with CDone | CRaised => true | _ => false end.

(** [start(self)], one action at a time: the two [Thread.start] calls, the two
    [Thread.join] calls and [Queue.join]. *)
Definition start (st : ProducerConsumer) : option (event * ProducerConsumer) :=
  match phase st with
  | Idle =>
      Some (EStartProducer, set_phase (set_producer st (PNext 0)) Starting)
  | Starting =>
      Some (EStartConsumer, set_phase (set_consumer st CEnter) Running)
  | Running =>
      if producer_returned st
      then Some (EJoinProducer, set_phase st JoiningConsumer) else None
  | JoiningConsumer =>
      if consumer_returned st
      then Some (EJoinConsumer, set_phase st Draining) else None
  | Draining =>
      match join (shared_queue st) with
      | Returns _ => Some (EComplete, set_phase st Complete)
      | _ => None
      end
  | Complete => None
  end.

Inductive thread : Type := Coordinator | Producer | Consumer.

Definition exec (t : thread) (st : ProducerConsumer)
  : option (event * ProducerConsumer) :=
  match t with
  | Coordinator => start st
  | Producer => producer st
  | Consumer => consumer st
  end.

(** One step of a run: an action of one of the three threads, or the caller
    overwriting the contents of the list [data] it gave to [__init__]. *)
Inductive step (data : positive)
  : ProducerConsumer → event → ProducerConsumer → Prop :=
| step_thread t st e st' :
    exec t st = Some (e, st') → step data st e st'
| step_mutate st items :
    step data st (EMutate items) (set_heap st (<[data := items]> (heap st))).

Inductive steps (data : positive)
  : ProducerConsumer → list event → ProducerConsumer → Prop :=
| steps_refl st : steps data st [] st
| steps_snoc st tr st' e st'' :
    steps data st tr st' → step data st' e st'' → steps data st (tr ++ [e]) st''.

(** A run of the program built from the store [h], the caller's list [data]
    and the capacity [cap], observed after the events [tr]. *)
Definition run (h : gmap positive (list Item)) (data : positive) (cap : Z)
    (tr : list event) (st : ProducerConsumer) : Prop :=
  ∃ st0, __init__ h data cap = Some st0 ∧ steps data st0 tr st.

(** ** Running the model

    A schedule says who moves next: one of the threads, or the caller
    overwriting its list. *)
Inductive move : Type :=
| Act (t : thread)
| Overwrite (items : list Item).

Definition do_move (data : positive) (mv : move) (st : ProducerConsumer)
  : option (event * ProducerConsumer) :=
  match mv with
  | Act t => exec t st
  | Overwrite items =>
      Some (EMutate items, set_heap st (<[data := items]> (heap st)))
  end.

Fixpoint run_schedule (data : positive) (sched : list move)
    (st : ProducerConsumer) : option (list event * ProducerConsumer) :=
  match sched with
  | [] => Some ([], st)
  | mv :: sched' =>
      match do_move data mv st with
      | None => None
      | Some (e, st') =>
          match run_schedule data sched' st' with
          | None => None
          | Some (tr, st'') => Some (e :: tr, st'')
          end
      end
  end.

(** Construction followed by a schedule. *)
Definition run_program (h : gmap positive (list Item)) (data : positive)
    (cap : Z) (sched : list move) : option (list event * ProducerConsumer) :=
  match __init__ h data cap with
  | None => None
  | Some st0 => run_schedule data sched st0
  end.

(** The scheduler that lets the producer move whenever it can, else the
    consumer, else the coordinator, for at most [fuel] actions. *)
Definition next_action (st : ProducerConsumer)
  : option (event * ProducerConsumer) :=
  match producer st with
  | Some r => Some r
  | None =>
      match consumer st with
      | Some r => Some r
      | None => start st
      end
  end.

Fixpoint drive (fuel : nat) (st : ProducerConsumer)
  : list event * ProducerConsumer :=
  match fuel with
  | 0 => ([], st)
  | S fuel' =>
      match next_action st with
      | None => ([], st)
      | Some (e, st') =>
          let '(tr, st'') := drive fuel' st' in (e :: tr, st'')
      end
  end.

(** ** Observations on traces *)

Definition puts (tr : list event) : list Item :=
  omap (λ e, match e with EPut item => Some item | _ => None end) tr.

Definition takes (tr : list event) : list Item :=
  omap (λ e, match e with ETake item => Some item | _ => None end) tr.

Definition appends (tr : list event) : list Item :=
  omap (λ e, match e with EAppend item => Some item | _ => None end) tr.

Definition acks (tr : list event) : nat :=
  length (omap (λ e, match e with EAck => Some tt | _ => None end) tr).

(** The consumer's dealings with the queue and the destination. *)
Definition consumer_events (tr : list event) : list event :=
  omap (λ e, match e with
             | ETake _ | EAppend _ | EAck => Some e
             | _ => None
             end) tr.

(** Take, append, acknowledge, one item after the other. *)
Fixpoint consumer_script (items : list Item) : list event :=
  match items with
  | [] => []
  | item :: rest => ETake item :: EAppend item :: EAck :: consumer_script rest
  end.

(** The actions of the three threads (everything but the caller's
    mutations), and their number. *)
Definition program_events (tr : list event) : list event :=
  omap (λ e, match e with EMutate _ => None | _ => Some e end) tr.

Definition program_steps (tr : list event) : nat :=
  length (program_events tr).

(** The state [st] with the caller's list [data] holding [items] again. *)
Definition restore (data : positive) (items : list Item)
    (st : ProducerConsumer) : ProducerConsumer :=
  set_heap st (<[data := items]> (heap st)).

(** A started thread that has not returned and cannot move: it waits inside
    [put], respectively [get]. *)
Definition waits_in_put (st : ProducerConsumer) : Prop :=
  ∃ item i, producer_thread st = PPut item i ∧ producer st = None.

Definition waits_in_get (st : ProducerConsumer) : Prop :=
  ∃ k n, consumer_thread st = CGet k n ∧ consumer st = None.

(** Every event belongs to one thread, or to the caller. *)
Definition owner (e : event) : option thread :=
  match e with
  | EStartProducer | EStartConsumer | EJoinProducer | EJoinConsumer
  | EComplete => Some Coordinator
  | EFetch _ | EPut _ | EProducerDone => Some Producer
  | EEnter _ | ETake _ | EAppend _ | EAck | EConsumerDone | ERaise =>
      Some Consumer
  | EMutate _ => None
  end.

(** ** The invariant of a run *)

Definition in_hand_p (p : producer_pc) : list Item :=
  match p with PPut item _ => [item] | _ => [] end.

Definition in_hand_c (c : consumer_pc) : list Item :=
  match c with CAppend item _ _ => [item] | _ => [] end.

Definition pending_ack (c : consumer_pc) : nat :=
  match c with CTaskDone _ _ => 1 | _ => 0 end.

Definition fetched (n : nat) (p : producer_pc) : nat :=
  match p with
  | PIdle => 0
  | PNext i | PPut _ i => i
  | PDone => n
  end.

Definition consumer_ok (n k : nat) (c : consumer_pc) : Prop :=
  match c with
  | CIdle | CEnter => k = 0
  | CGet k' n' => n' = n ∧ k' = k ∧ k ≤ n
  | CAppend _ k' n' => n' = n ∧ k' = k ∧ k < n
  | CTaskDone k' n' => n' = n ∧ S k' = k ∧ k' < n
  | CDone => k = n
  | CRaised => False
  end.

Definition phase_ok (m : coordinator) (p : producer_pc) (c : consumer_pc)
    (unfinished : Z) : Prop :=
  match m with
  | Idle => p = PIdle ∧ c = CIdle
  | Starting => p ≠ PIdle ∧ c = CIdle
  | Running => p ≠ PIdle ∧ c ≠ CIdle
  | JoiningConsumer => p = PDone ∧ c ≠ CIdle
  | Draining => p = PDone ∧ c = CDone
  | Complete => p = PDone ∧ c = CDone ∧ unfinished = 0%Z
  end.

Definition consumer_trace_ok (c : consumer_pc) (out : list Item)
    (evs : list event) : Prop :=
  match c with
  | CAppend item _ _ => evs = consumer_script out ++ [ETake item]
  | CTaskDone _ _ =>
      ∃ out' item, out = out' ++ [item] ∧
        evs = consumer_script out' ++ [ETake item; EAppend item]
  | _ => evs = consumer_script out
  end.

(** The distance to completion, in actions of the three threads. *)
Definition measure_p (n : nat) (p : producer_pc) : nat :=
  match p with
  | PIdle => 2 * n + 1
  | PNext i => 2 * (n - i) + 1
  | PPut _ i => 2 * (n - i) + 2
  | PDone => 0
  end.

Definition measure_c (n : nat) (c : consumer_pc) : nat :=
  match c with
  | CIdle | CEnter => 3 * n + 2
  | CGet k _ => 3 * (n - k) + 1
  | CAppend _ k _ => 3 * (n - k)
  | CTaskDone k _ => 3 * (n - k) - 1
  | CDone | CRaised => 0
  end.

Definition measure_m (m : coordinator) : nat :=
  match m with
  | Idle => 5
  | Starting => 4
  | Running => 3
  | JoiningConsumer => 2
  | Draining => 1
  | Complete => 0
  end.

Definition measure (n : nat) (st : ProducerConsumer) : nat :=
  measure_m (phase st) + measure_p n (producer_thread st)
  + measure_c n (consumer_thread st).

Record Inv (items : list Item) (data : positive) (cap : Z)
    (tr : list event) (st : ProducerConsumer) : Prop := mkInv {
  inv_source : heap st !! source st = Some items;
  inv_dest : is_Some (heap st !! destination st);
  inv_sep : source st ≠ destination st ∧ data ≠ source st
            ∧ data ≠ destination st;
  inv_maxsize : maxsize (shared_queue st) = cap;
  inv_flow :
    items = output st ++ in_hand_c (consumer_thread st)
            ++ queue (shared_queue st) ++ in_hand_p (producer_thread st)
            ++ drop (fetched (length items) (producer_thread st)) items;
  inv_fetched : fetched (length items) (producer_thread st) ≤ length items;
  inv_consumer :
    consumer_ok (length items) (length (output st)) (consumer_thread st);
  inv_unfinished :
    unfinished_tasks (shared_queue st)
    = Z.of_nat (length (queue (shared_queue st))
                + length (in_hand_c (consumer_thread st))
                + pending_ack (consumer_thread st));
  inv_phase :
    phase_ok (phase st) (producer_thread st) (consumer_thread st)
             (unfinished_tasks (shared_queue st));
  inv_bound : (0 < cap)%Z → (qsize (shared_queue st) ≤ cap)%Z;
  inv_puts :
    puts tr = output st ++ in_hand_c (consumer_thread st)
              ++ queue (shared_queue st);
  inv_takes : takes tr = output st ++ in_hand_c (consumer_thread st);
  inv_appends : appends tr = output st;
  inv_acks : acks tr + pending_ack (consumer_thread st) = length (output st);
  inv_script :
    consumer_trace_ok (consumer_thread st) (output st) (consumer_events tr);
  inv_steps :
    program_steps tr + measure (length items) st = 5 * length items + 8
}.

(** Construction followed by [drive]. *)
Definition execute (h : gmap positive (list Item)) (data : positive)
    (cap : Z) (fuel : nat) : option (list event * ProducerConsumer) :=
  drive fuel <$> __init__ h data cap.

End model.

Arguments Queue : clear implicits.
Arguments producer_pc : clear implicits.
Arguments consumer_pc : clear implicits.
Arguments ProducerConsumer : clear implicits.
Arguments event : clear implicits.
Arguments move : clear implicits.

(** * The program at work

    The checks of [test_producer_consumer.py] and the run of [__main__], with
    integers as items. *)

Definition caller : positive := 1%positive.

Definition store_of (items : list Z) : gmap positive (list Z) :=
  {[ caller := items ]}.

Definition blank : ProducerConsumer Z :=
  mkPC ∅ caller caller (Queue_new 0) PIdle CIdle Idle.

Definition trace_of (r : option (list (event Z) * ProducerConsumer Z))
  : list (event Z) := from_option fst [] r.

Definition final_of (r : option (list (event Z) * ProducerConsumer Z))
  : ProducerConsumer Z := from_option snd blank r.

(** The producer runs ahead until the queue of capacity 2 is full. *)
Definition sched_ahead : list (move Z) :=
  [Act Coordinator; Act Coordinator]
  ++ replicate 4 (Act Producer).

(** ... then blocks with the third item in hand; the consumer catches up. *)
Definition sched_full : list (move Z) :=
  sched_ahead
  ++ [Act Producer]
  ++ replicate 4 (Act Consumer)
  ++ replicate 2 (Act Producer)
  ++ replicate 7 (Act Consumer)
  ++ replicate 3 (Act Coordinator).

(** Producer and consumer in lockstep, the consumer first. *)
Definition sched_lockstep : list (move Z) :=
  [Act Coordinator; Act Coordinator; Act Consumer]
  ++ replicate 2 (Act Producer) ++ replicate 3 (Act Consumer)
  ++ replicate 2 (Act Producer) ++ replicate 3 (Act Consumer)
  ++ replicate 3 (Act Producer) ++ [Act Coordinator]
  ++ replicate 4 (Act Consumer) ++ replicate 2 (Act Coordinator).

(** The caller empties and refills its list while the threads run. *)
Definition sched_mutated : list (move Z) :=
  [Overwrite []; Act Coordinator; Act Coordinator; Overwrite [9; 9]%Z]
  ++ replicate 5 (Act Producer)
  ++ replicate 4 (Act Consumer)
  ++ [Overwrite [4; 5; 6; 7]%Z]
  ++ replicate 2 (Act Producer)
  ++ replicate 7 (Act Consumer)
  ++ replicate 3 (Act Coordinator).

(** With capacity 0 the producer puts everything without waiting. *)
Definition sched_unbounded : list (move Z) :=
  [Act Coordinator; Act Coordinator] ++ replicate 6 (Act Producer).

Definition sched_empty : list (move Z) :=
  [Act Coordinator; Act Coordinator; Act Producer; Act Consumer;
   Act Consumer; Act Coordinator; Act Coordinator; Act Coordinator].

Definition run_ahead := run_program (store_of [1; 2; 3]%Z) caller 2 sched_ahead.
Definition run_full := run_program (store_of [1; 2; 3]%Z) caller 2 sched_full.
Definition run_lockstep :=
  run_program (store_of [1; 2; 3]%Z) caller 2 sched_lockstep.
Definition run_mutated :=
  run_program (store_of [1; 2; 3]%Z) caller 2 sched_mutated.
Definition run_empty := run_program (store_of []) caller 2 sched_empty.
Definition run_unbounded :=
  run_program (store_of [1; 2; 3]%Z) caller 0 sched_unbounded.

(** * Further observations

    What follows looks at the same runs from other sides: the hand-over of
    items through the queue, the order in which the coordinator starts and
    joins the threads, and the store. *)

Section observations.

Context {Item : Type}.

(** The puts and takes of a trace, in the order they happened. *)
Definition channel_events (tr : list (event Item)) : list (event Item) :=
  omap (λ e, match e with EPut _ | ETake _ => Some e | _ => None end) tr.

(** Every item is put and taken before the next one is put. *)
Fixpoint handoff_script (items : list Item) : list (event Item) :=
  match items with
  | [] => []
  | item :: rest => EPut item :: ETake item :: handoff_script rest
  end.

(** The actions of the coordinator in a trace, and the order [start]
    performs them in. *)
Definition coordinator_events (tr : list (event Item)) : list (event Item) :=
  omap (λ e, match owner e with Some Coordinator => Some e | _ => None end) tr.

Definition coordinator_script : list (event Item) :=
  [EStartProducer; EStartConsumer; EJoinProducer; EJoinConsumer; EComplete].

Definition phase_index (m : coordinator) : nat :=
  match m with
  | Idle => 0
  | Starting => 1
  | Running => 2
  | JoiningConsumer => 3
  | Draining => 4
  | Complete => 5
  end.

(** The contents of the caller's list after the caller's writes in [tr], when
    it held [items] before. *)
Definition caller_list (items : list Item) (tr : list (event Item))
  : list Item :=
  foldl (λ acc e, match e with EMutate new => new | _ => acc end) items tr.

End observations.

(** Three more runs: [sched_full] stopped before the last action of the
    coordinator, the lockstep schedule stopped midway, and the lockstep
    schedule with capacity 1. *)
Definition run_midway :=
  run_program (store_of [1; 2; 3]%Z) caller 2 (take 10 sched_lockstep).
Definition run_draining :=
  run_program (store_of [1; 2; 3]%Z) caller 2 (take 22 sched_full).
Definition run_one :=
  run_program (store_of [1; 2; 3]%Z) caller 1 sched_lockstep.


(** * The output file

    [log] and the calls of [log] in [start], [producer] and [consumer], which
    the model above leaves out, are added here on top of it.  A call
    [self.log(f"...")] is two actions of its thread: the f-string is
    evaluated, reading the state, and then the line is appended to the output
    file.  [print] writes to the console, not to the file, and is left out;
    an append is taken to reach the file in one piece. *)

Inductive writer_call {Item : Type} : Type :=
| LSource
| LCapacity
| LProducerStart
| LAdding (item : Item)
| LAdded (item : Item)
| LProducerFinished
| LConsumerStart
| LTrying
| LGot (item : Item)
| LStored (item : Item)
| LConsumerFinished
| LComplete
| LFinal
| LProcessed
| LSuccess.

Arguments writer_call : clear implicits.

(** The evaluated messages, with the values they were built from. *)
Inductive message {Item : Type} : Type :=
| MSource (items : list Item)
| MCapacity (maxsize : Z)
| MProducerStart
| MAdding (item : Item)
| MAdded (item : Item) (size : Z)
| MProducerFinished
| MConsumerStart
| MTrying
| MGot (item : Item)
| MStored (item : Item) (total : nat)
| MConsumerFinished
| MComplete
| MFinal (items : list Item)
| MProcessed (total : nat)
| MSuccess (ok : bool).

Arguments message : clear implicits.

(** A thread between two actions of the model above: the calls of [log] it
    still has to make before its next action, and the line it has evaluated
    but not written yet. *)
Record logger {Item : Type} : Type := mkLogger {
  pending : list (writer_call Item);
  ready : option (message Item)
}.

Arguments logger : clear implicits.
Arguments mkLogger {Item} pending ready.

(** What a run with logging can be observed to do. *)
Inductive action {Item : Type} : Type :=
| ADo (e : event Item)
| AFormat (m : message Item)
| AWrite (m : message Item)
| ATruncate.

Arguments action : clear implicits.

Record Logged {Item : Type} : Type := mkLogged {
  system : ProducerConsumer Item;
  file : string;
  opened : bool;
  item_var : option Item;
  coordinator_log : logger Item;
  producer_log : logger Item;
  consumer_log : logger Item
}.

Arguments Logged : clear implicits.
Arguments mkLogged {Item} system file opened item_var coordinator_log
  producer_log consumer_log.

Definition newline : string := String (Ascii.ascii_of_nat 10) "".

(** The text [start] writes when it opens the file with mode ['w']. *)
Definition header : string :=
  "=== PRODUCER-CONSUMER PATTERN OUTPUT ===" +:+ newline +:+ newline.

(** [log(self, message)], as far as the file goes: the message and a newline
    are appended. *)
Definition log (contents message : string) : string :=
  contents +:+ message +:+ newline.

Definition bool_str (b : bool) : string := if b then "True" else "False".

Section logging.

Context {Item : Type} `{EqDecision Item}.

(** [str(item)], used by the f-strings, and [repr(item)], used by [str] of a
    list. *)
Context (str repr : Item → string).

Definition list_str (items : list Item) : string :=
  "[" +:+ String.concat ", " (repr <$> items) +:+ "]".

(** The text of a message. *)
Definition render (m : message Item) : string :=
  match m with
  | MSource items => "Source data: " +:+ list_str items
  | MCapacity maxsize => "Queue capacity: " +:+ pretty maxsize +:+ newline
  | MProducerStart => "Producer: Starting to produce items"
  | MAdding item => "Producer: Adding " +:+ str item +:+ " to queue"
  | MAdded item size =>
      "Producer: Successfully added " +:+ str item
      +:+ " (Queue size: " +:+ pretty size +:+ ")"
  | MProducerFinished => "Producer: Finished producing all items"
  | MConsumerStart => "Consumer: Starting to consume items"
  | MTrying => "Consumer: Trying to get item from queue"
  | MGot item => "Consumer: Got " +:+ str item +:+ " from queue"
  | MStored item total =>
      "Consumer: Stored " +:+ str item
      +:+ " in destination (Total: " +:+ pretty total +:+ ")"
  | MConsumerFinished => "Consumer: Finished consuming all items"
  | MComplete => newline +:+ "=== COMPLETE ==="
  | MFinal items => "Final destination: " +:+ list_str items
  | MProcessed total => "Items processed: " +:+ pretty total
  | MSuccess ok => "Success: " +:+ bool_str ok
  end.

(** The text of a sequence of logged messages. *)
Definition text (ms : list (message Item)) : string :=
  foldl (λ contents m, log contents (render m)) "" ms.

(** Evaluation of the f-string of a call, in the state [st]. *)
Definition format (st : ProducerConsumer Item) (c : writer_call Item)
  : message Item :=
  match c with
  | LSource => MSource (input st)
  | LCapacity => MCapacity (maxsize (shared_queue st))
  | LProducerStart => MProducerStart
  | LAdding item => MAdding item
  | LAdded item => MAdded item (qsize (shared_queue st))
  | LProducerFinished => MProducerFinished
  | LConsumerStart => MConsumerStart
  | LTrying => MTrying
  | LGot item => MGot item
  | LStored item => MStored item (length (output st))
  | LConsumerFinished => MConsumerFinished
  | LComplete => MComplete
  | LFinal => MFinal (output st)
  | LProcessed => MProcessed (length (output st))
  | LSuccess => MSuccess (success st)
  end.

Definition idle : logger Item := mkLogger [] None.

Definition is_idle (lg : logger Item) : bool :=
  match pending lg, ready lg with
  | [], None => true
  | _, _ => false
  end.

Definition logger_of (t : thread) (s : Logged Item) : logger Item :=
  match t with
  | Coordinator => coordinator_log s
  | Producer => producer_log s
  | Consumer => consumer_log s
  end.

Definition set_logger (t : thread) (lg : logger Item) (s : Logged Item)
  : Logged Item :=
  match t with
  | Coordinator =>
      mkLogged (system s) (file s) (opened s) (item_var s)
               lg (producer_log s) (consumer_log s)
  | Producer =>
      mkLogged (system s) (file s) (opened s) (item_var s)
               (coordinator_log s) lg (consumer_log s)
  | Consumer =>
      mkLogged (system s) (file s) (opened s) (item_var s)
               (coordinator_log s) (producer_log s) lg
  end.

Definition set_system (st : ProducerConsumer Item) (s : Logged Item)
  : Logged Item :=
  mkLogged st (file s) (opened s) (item_var s)
           (coordinator_log s) (producer_log s) (consumer_log s).

Definition set_file (contents : string) (s : Logged Item) : Logged Item :=
  mkLogged (system s) contents (opened s) (item_var s)
           (coordinator_log s) (producer_log s) (consumer_log s).

Definition set_item_var (x : option Item) (s : Logged Item) : Logged Item :=
  mkLogged (system s) (file s) (opened s) x
           (coordinator_log s) (producer_log s) (consumer_log s).

(** The next action of a thread that has a call of [log] under way. *)
Definition log_step (t : thread) (s : Logged Item)
  : option (action Item * Logged Item) :=
  let lg := logger_of t s in
  match ready lg with
  | Some m =>
      Some (AWrite m,
            set_file (log (file s) (render m))
                     (set_logger t (mkLogger (pending lg) None) s))
  | None =>
      match pending lg with
      | c :: rest =>
          let m := format (system s) c in
          Some (AFormat m, set_logger t (mkLogger rest (Some m)) s)
      | [] => None
      end
  end.

(** The calls of [log] that follow an action of the producer. *)
Definition after_producer (e : event Item) : list (writer_call Item) :=
  match e with
  | EFetch item => [LAdding item]
  | EPut item => [LAdded item]
  | EProducerDone => [LProducerFinished]
  | _ => []
  end.

(** [producer(self)] with its calls of [log]. *)
Definition producer_logged (s : Logged Item)
  : option (action Item * Logged Item) :=
  match log_step Producer s with
  | Some r => Some r
  | None =>
      match producer (system s) with
      | Some (e, st') =>
          Some (ADo e,
                set_logger Producer (mkLogger (after_producer e) None)
                           (set_system st' s))
      | None => None
      end
  end.

(** The consumer logs that it tries to get an item when it enters a round of
    its loop. *)
Definition trying (st : ProducerConsumer Item) : list (writer_call Item) :=
  match consumer_thread st with
  | CGet k n => if bool_decide (k < n) then [LTrying] else []
  | _ => []
  end.

(** The calls of [log] that follow an action of the consumer which leads to
    the state [st'], the variable [item] holding [x]. *)
Definition after_consumer (e : event Item) (x : option Item)
    (st' : ProducerConsumer Item) : list (writer_call Item) :=
  match e with
  | EEnter _ => trying st'
  | ETake item => [LGot item]
  | EAck =>
      match x with Some item => [LStored item] | None => [] end ++ trying st'
  | EConsumerDone => [LConsumerFinished]
  | _ => []
  end.

(** [consumer(self)] with its calls of [log]. *)
Definition consumer_logged (s : Logged Item)
  : option (action Item * Logged Item) :=
  match log_step Consumer s with
  | Some r => Some r
  | None =>
      match consumer (system s) with
      | Some (e, st') =>
          let x := match e with ETake item => Some item | _ => item_var s end in
          Some (ADo e,
                set_logger Consumer
                  (mkLogger (after_consumer e x st') None)
                  (set_item_var x (set_system st' s)))
      | None => None
      end
  end.

(** [Thread.join] returns when the thread has returned, that is after its
    last call of [log]. *)
Definition joinable (s : Logged Item) : bool :=
  match phase (system s) with
  | Running => is_idle (producer_log s)
  | JoiningConsumer => is_idle (consumer_log s)
  | _ => true
  end.

(** What an action of the coordinator sets off: the first call of [log] of a
    started thread, and the four calls that end [start]. *)
Definition after_start (e : event Item) (s : Logged Item) : Logged Item :=
  match e with
  | EStartProducer => set_logger Producer (mkLogger [LProducerStart] None) s
  | EStartConsumer => set_logger Consumer (mkLogger [LConsumerStart] None) s
  | EComplete =>
      set_logger Coordinator
        (mkLogger [LComplete; LFinal; LProcessed; LSuccess] None) s
  | _ => s
  end.

(** [start(self)] with the output file. *)
Definition start_logged (s : Logged Item)
  : option (action Item * Logged Item) :=
  if opened s then
    match log_step Coordinator s with
    | Some r => Some r
    | None =>
        if joinable s then
          match start (system s) with
          | Some (e, st') => Some (ADo e, after_start e (set_system st' s))
          | None => None
          end
        else None
    end
  else
    Some (ATruncate,
          mkLogged (system s) header true (item_var s)
                   (mkLogger [LSource; LCapacity] None)
                   (producer_log s) (consumer_log s)).

Definition lexec (t : thread) (s : Logged Item)
  : option (action Item * Logged Item) :=
  match t with
  | Coordinator => start_logged s
  | Producer => producer_logged s
  | Consumer => consumer_logged s
  end.

(** One step of a run with logging. *)
Inductive lstep (data : positive)
  : Logged Item → action Item → Logged Item → Prop :=
| lstep_thread t s a s' :
    lexec t s = Some (a, s') → lstep data s a s'
| lstep_mutate s items :
    lstep data s (ADo (EMutate items))
          (set_system (set_heap (system s)
                                (<[data := items]> (heap (system s)))) s).

Inductive lsteps (data : positive)
  : Logged Item → list (action Item) → Logged Item → Prop :=
| lsteps_refl s : lsteps data s [] s
| lsteps_snoc s ltr s' a s'' :
    lsteps data s ltr s' → lstep data s' a s'' →
    lsteps data s (ltr ++ [a]) s''.

(** The object after construction, the output file holding [old]. *)
Definition logged_init (st0 : ProducerConsumer Item) (old : string)
  : Logged Item :=
  mkLogged st0 old false None idle idle idle.

Definition logged_run (h : gmap positive (list Item)) (data : positive)
    (cap : Z) (old : string) (ltr : list (action Item)) (s : Logged Item)
  : Prop :=
  ∃ st0, __init__ h data cap = Some st0
         ∧ lsteps data (logged_init st0 old) ltr s.

(** [start] has returned. *)
Definition returned (s : Logged Item) : Prop :=
  phase (system s) = Complete ∧ is_idle (coordinator_log s) = true.

(** The scheduler of [drive], for runs with logging. *)
Definition next_logged (s : Logged Item)
  : option (action Item * Logged Item) :=
  match producer_logged s with
  | Some r => Some r
  | None =>
      match consumer_logged s with
      | Some r => Some r
      | None => start_logged s
      end
  end.

Fixpoint drive_logged (fuel : nat) (s : Logged Item)
  : list (action Item) * Logged Item :=
  match fuel with
  | 0 => ([], s)
  | S fuel' =>
      match next_logged s with
      | None => ([], s)
      | Some (a, s') =>
          let '(ltr, s'') := drive_logged fuel' s' in (a :: ltr, s'')
      end
  end.

Definition execute_logged (h : gmap positive (list Item)) (data : positive)
    (cap : Z) (old : string) (fuel : nat)
  : option (list (action Item) * Logged Item) :=
  (λ st0, drive_logged fuel (logged_init st0 old)) <$> __init__ h data cap.

(** ** Observations on runs with logging *)

Definition base_events (ltr : list (action Item)) : list (event Item) :=
  omap (λ a, match a with ADo e => Some e | _ => None end) ltr.

(** The messages appended to the file, in order. *)
Definition writes (ltr : list (action Item)) : list (message Item) :=
  omap (λ a, match a with AWrite m => Some m | _ => None end) ltr.

(** The actions of the threads. *)
Definition thread_actions (ltr : list (action Item)) : nat :=
  length (omap (λ a, match a with
                     | ADo (EMutate _) => None
                     | _ => Some a
                     end) ltr).

Definition writer (m : message Item) : thread :=
  match m with
  | MSource _ | MCapacity _ | MComplete | MFinal _ | MProcessed _
  | MSuccess _ => Coordinator
  | MProducerStart | MAdding _ | MAdded _ _ | MProducerFinished => Producer
  | MConsumerStart | MTrying | MGot _ | MStored _ _ | MConsumerFinished =>
      Consumer
  end.

Definition thread_eqb (t1 t2 : thread) : bool :=
  match t1, t2 with
  | Coordinator, Coordinator | Producer, Producer | Consumer, Consumer => true
  | _, _ => false
  end.

(** The lines of one thread among [ms]. *)
Definition lines_of (t : thread) (ms : list (message Item))
  : list (message Item) :=
  omap (λ m, if thread_eqb (writer m) t then Some m else None) ms.

(** The lines of the consumer for the items [items], the first of them being
    number [k + 1]. *)
Fixpoint consumer_rounds (k : nat) (items : list Item)
  : list (message Item) :=
  match items with
  | [] => []
  | item :: rest =>
      MTrying :: MGot item :: MStored item (S k) :: consumer_rounds (S k) rest
  end.

Definition consumer_lines (items : list Item) : list (message Item) :=
  MConsumerStart :: consumer_rounds 0 items ++ [MConsumerFinished].

(** The calls of [log] of the producer for the items [items]. *)
Fixpoint producer_rounds (items : list Item) : list (writer_call Item) :=
  match items with
  | [] => []
  | item :: rest => LAdding item :: LAdded item :: producer_rounds rest
  end.

Definition producer_calls (items : list Item) : list (writer_call Item) :=
  LProducerStart :: producer_rounds items ++ [LProducerFinished].

(** The call a message comes from. *)
Definition call_of (m : message Item) : writer_call Item :=
  match m with
  | MSource _ => LSource
  | MCapacity _ => LCapacity
  | MProducerStart => LProducerStart
  | MAdding item => LAdding item
  | MAdded item _ => LAdded item
  | MProducerFinished => LProducerFinished
  | MConsumerStart => LConsumerStart
  | MTrying => LTrying
  | MGot item => LGot item
  | MStored item _ => LStored item
  | MConsumerFinished => LConsumerFinished
  | MComplete => LComplete
  | MFinal _ => LFinal
  | MProcessed _ => LProcessed
  | MSuccess _ => LSuccess
  end.

(** ** The invariant of a run with logging *)

Definition option_list {A} (o : option A) : list A :=
  match o with Some x => [x] | None => [] end.

(** Everything a thread has written, evaluated or still has to log. *)
Definition logged_by (t : thread) (ltr : list (action Item))
    (s : Logged Item) : list (message Item) :=
  lines_of t (writes ltr) ++ option_list (ready (logger_of t s))
  ++ (format (system s) <$> pending (logger_of t s)).

Definition closing_lines (items : list Item) : list (message Item) :=
  [MComplete; MFinal items; MProcessed (length items); MSuccess true].

Definition coordinator_log_ok (items : list Item) (cap : Z)
    (m : coordinator) (all : list (message Item)) : Prop :=
  all = [MSource items; MCapacity cap]
        ++ match m with Complete => closing_lines items | _ => [] end.

Definition consumer_log_ok (c : consumer_pc Item) (out : list Item)
    (x : option Item) (all : list (message Item)) : Prop :=
  match c with
  | CIdle => all = []
  | CEnter => all = [MConsumerStart]
  | CGet k n =>
      all = MConsumerStart :: consumer_rounds 0 out
            ++ (if bool_decide (k < n) then [MTrying] else [])
  | CAppend item _ _ =>
      x = Some item
      ∧ all = MConsumerStart :: consumer_rounds 0 out ++ [MTrying; MGot item]
  | CTaskDone _ _ =>
      ∃ out' item, out = out' ++ [item] ∧ x = Some item
        ∧ all = MConsumerStart :: consumer_rounds 0 out'
                ++ [MTrying; MGot item]
  | CDone => all = MConsumerStart :: consumer_rounds 0 out
                   ++ [MConsumerFinished]
  | CRaised => False
  end.

Definition producer_log_ok (p : producer_pc Item) (items : list Item)
    (calls : list (writer_call Item)) : Prop :=
  match p with
  | PIdle => calls = []
  | PNext i => calls = LProducerStart :: producer_rounds (take i items)
  | PPut item i =>
      ∃ l, take i items = l ++ [item]
        ∧ calls = LProducerStart :: producer_rounds l ++ [LAdding item]
  | PDone => calls = producer_calls items
  end.

(** A logged queue size is not negative and not above a positive
    capacity. *)
Definition size_ok (cap : Z) (m : message Item) : Prop :=
  match m with
  | MAdded _ size => (0 ≤ size)%Z ∧ ((0 < cap)%Z → (size ≤ cap)%Z)
  | _ => True
  end.

(** The distance to the return of [start], in actions of the threads. *)
Definition logger_cost (lg : logger Item) : nat :=
  2 * length (pending lg) + match ready lg with Some _ => 1 | None => 0 end.

Definition future_m (m : coordinator) : nat :=
  match m with
  | Idle => 12
  | Starting => 10
  | Running | JoiningConsumer | Draining => 8
  | Complete => 0
  end.

Definition future_c (n : nat) (c : consumer_pc Item) : nat :=
  match c with
  | CIdle | CEnter => if bool_decide (0 < n) then 6 * n + 2 else 2
  | CGet k _ => if bool_decide (k < n) then 6 * (n - k) else 2
  | CAppend _ k _ | CTaskDone k _ =>
      if bool_decide (S k < n) then 4 + 6 * (n - S k) else 4
  | CDone | CRaised => 0
  end.

Definition potential (n : nat) (s : Logged Item) : nat :=
  (if opened s then 0 else 5)
  + measure n (system s) + future_m (phase (system s))
  + 2 * measure_p n (producer_thread (system s))
  + future_c n (consumer_thread (system s))
  + logger_cost (coordinator_log s) + logger_cost (producer_log s)
  + logger_cost (consumer_log s).

Definition joined_p (m : coordinator) : bool :=
  match m with JoiningConsumer | Draining | Complete => true | _ => false end.

Definition joined_c (m : coordinator) : bool :=
  match m with Draining | Complete => true | _ => false end.

(** The lines of the file in the order of [start]: the two lines written
    before the threads are started, the lines of the threads, the closing
    lines. *)
Definition shape_ok (items : list Item) (cap : Z) (m : coordinator)
    (ws : list (message Item)) : Prop :=
  ∃ pre mid post, ws = pre ++ mid ++ post
    ∧ lines_of Coordinator pre = pre
    ∧ lines_of Coordinator mid = []
    ∧ lines_of Coordinator post = post
    ∧ (m = Idle → mid = [] ∧ post = [])
    ∧ (m ≠ Idle → pre = [MSource items; MCapacity cap])
    ∧ (m ≠ Complete → post = []).

Record LInv (items : list Item) (data : positive) (cap : Z) (old : string)
    (ltr : list (action Item)) (s : Logged Item) : Prop := mkLInv {
  li_base : Inv items data cap (base_events ltr) (system s);
  li_file :
    if opened s then file s = header +:+ text (writes ltr)
    else file s = old ∧ writes ltr = [] ∧ phase (system s) = Idle
         ∧ coordinator_log s = idle;
  li_idle_p : producer_thread (system s) = PIdle → producer_log s = idle;
  li_idle_c : consumer_thread (system s) = CIdle → consumer_log s = idle;
  li_joined_p : joined_p (phase (system s)) = true → producer_log s = idle;
  li_joined_c : joined_c (phase (system s)) = true → consumer_log s = idle;
  li_busy :
    phase (system s) ≠ Idle → phase (system s) ≠ Complete →
    coordinator_log s = idle;
  li_owner :
    ∀ t, Forall (λ m, writer m = t) (option_list (ready (logger_of t s)))
         ∧ Forall (λ c, writer (format (system s) c) = t)
                  (pending (logger_of t s));
  li_coord :
    opened s = true →
    coordinator_log_ok items cap (phase (system s))
                       (logged_by Coordinator ltr s);
  li_cons :
    consumer_log_ok (consumer_thread (system s)) (output (system s))
                    (item_var s) (logged_by Consumer ltr s);
  li_prod :
    producer_log_ok (producer_thread (system s)) items
      ((call_of <$> (lines_of Producer (writes ltr)
                     ++ option_list (ready (producer_log s))))
       ++ pending (producer_log s));
  li_size :
    Forall (size_ok cap) (writes ltr)
    ∧ Forall (size_ok cap) (option_list (ready (producer_log s)));
  li_shape : shape_ok items cap (phase (system s)) (writes ltr);
  li_potential :
    thread_actions ltr + potential (length items) s = 15 * length items + 29
}.

(** The steps of a run with logging, by what they do. *)
Inductive lstep_kind (data : positive) (s : Logged Item)
  : action Item → Logged Item → Prop :=
| k_truncate :
    opened s = false →
    lstep_kind data s ATruncate
      (mkLogged (system s) header true (item_var s)
                (mkLogger [LSource; LCapacity] None)
                (producer_log s) (consumer_log s))
| k_format t c rest :
    (t = Coordinator → opened s = true) →
    logger_of t s = mkLogger (c :: rest) None →
    lstep_kind data s (AFormat (format (system s) c))
      (set_logger t (mkLogger rest (Some (format (system s) c))) s)
| k_write t m rest :
    (t = Coordinator → opened s = true) →
    logger_of t s = mkLogger rest (Some m) →
    lstep_kind data s (AWrite m)
      (set_file (log (file s) (render m))
                (set_logger t (mkLogger rest None) s))
| k_start e st' :
    opened s = true → coordinator_log s = idle → joinable s = true →
    start (system s) = Some (e, st') →
    lstep_kind data s (ADo e) (after_start e (set_system st' s))
| k_producer e st' :
    producer_log s = idle → producer (system s) = Some (e, st') →
    lstep_kind data s (ADo e)
      (set_logger Producer (mkLogger (after_producer e) None)
                  (set_system st' s))
| k_consumer e st' x :
    consumer_log s = idle → consumer (system s) = Some (e, st') →
    x = match e with ETake item => Some item | _ => item_var s end →
    lstep_kind data s (ADo e)
      (set_logger Consumer (mkLogger (after_consumer e x st') None)
                  (set_item_var x (set_system st' s)))
| k_mutate items :
    lstep_kind data s (ADo (EMutate items))
      (set_system (set_heap (system s)
                            (<[data := items]> (heap (system s)))) s).

End logging.

(** The items of the lines "Got ... from queue" and of the lines
    "Adding ... to queue", in the order of the lines. *)
Definition got_items {Item : Type} (ms : list (message Item)) : list Item :=
  omap (λ m, match m with MGot item => Some item | _ => None end) ms.

Definition adding_items {Item : Type} (ms : list (message Item))
  : list Item :=
  omap (λ m, match m with MAdding item => Some item | _ => None end) ms.

Definition adding_calls {Item : Type} (cs : list (writer_call Item))
  : list Item :=
  omap (λ c, match c with LAdding item => Some item | _ => None end) cs.

(** The producer has at most one call of [log] under way, and the call that
    logs "Adding" only while it holds the item. *)
Definition one_call_ok {Item : Type} (s : Logged Item) : Prop :=
  match (call_of <$> option_list (ready (producer_log s)))
        ++ pending (producer_log s) with
  | [] => True
  | [c] => ∀ item, c = LAdding item →
                   ∃ i, producer_thread (system s) = PPut item i
  | _ => False
  end.

(** The sample source of three items with capacity 2, the output file holding
    the text of an earlier run: the program with its logging, run by
    [drive_logged] for [fuel] actions. *)
Definition logged_sample (fuel : nat)
  : option (list (action Z) * Logged Z) :=
  execute_logged pretty pretty (store_of [1; 2; 3]%Z) caller 2
                 "an earlier run" fuel.

Definition actions_of (r : option (list (action Z) * Logged Z))
  : list (action Z) := from_option fst [] r.

Definition logged_of (r : option (list (action Z) * Logged Z))
  : Logged Z := from_option snd (logged_init blank "") r.

(** * Properties *)

Section properties.

Context {Item : Type} `{EqDecision Item}.

Implicit Types (st s : ProducerConsumer Item) (q : Queue Item).
Implicit Types (tr : list (event Item)) (e : event Item).
Implicit Types (items : list Item) (h : gmap positive (list Item)).
Implicit Types (data : positive) (cap : Z) (t : thread).

(** ** Lemmas on traces *)

Lemma steps_app (data : positive) st tr1 st1 tr2 st2 :
  steps data st tr1 st1 → steps data st1 tr2 st2 →
  steps data st (tr1 ++ tr2) st2.
Proof.
  intros H1 H2. induction H2 as [|? tr ? e ? _ IH Hs].
  - by rewrite app_nil_r.
  - rewrite app_assoc. eapply steps_snoc; [by apply IH|done].
Qed.

Lemma steps_snoc_inv (data : positive) st tr e st2 :
  steps data st (tr ++ [e]) st2 →
  ∃ s1, steps data st tr s1 ∧ step data s1 e st2.
Proof.
  intros H. inversion H; subst.
  - by destruct tr.
  - match goal with Heq : _ ++ [_] = _ ++ [_] |- _ =>
      apply app_inj_tail in Heq as [-> ->] end.
    eauto.
Qed.

Lemma steps_split (data : positive) st tr1 e tr2 st2 :
  steps data st (tr1 ++ e :: tr2) st2 →
  ∃ s1 s1', steps data st tr1 s1 ∧ step data s1 e s1'
            ∧ steps data s1' tr2 st2.
Proof.
  revert st2. induction tr2 as [|e2 tr2 IH] using rev_ind; intros st2 H.
  - apply steps_snoc_inv in H as (s1 & ? & ?).
    exists s1, st2. split_and!; [done|done|constructor].
  - change (e :: tr2 ++ [e2]) with ((e :: tr2) ++ [e2]) in H.
    rewrite app_assoc in H.
    apply steps_snoc_inv in H as (s2 & Hs & ?).
    destruct (IH _ Hs) as (s1 & s1' & ? & ? & ?).
    exists s1, s1'. split_and!; [done|done|].
    by eapply steps_snoc.
Qed.

Lemma consumer_script_app (l1 l2 : list Item) :
  consumer_script (l1 ++ l2) = consumer_script l1 ++ consumer_script l2.
Proof. induction l1 as [|x l1 IH]; simpl; [done|by rewrite IH]. Qed.

Lemma omap_snoc {A B} (f : A → option B) (l : list A) (x : A) :
  omap f (l ++ [x]) = omap f l ++ match f x with Some y => [y] | None => [] end.
Proof. rewrite omap_app. simpl. by destruct (f x). Qed.

(** ** Construction *)

Lemma alloc_spec (h : gmap positive (list Item)) v l h' :
  alloc h v = (l, h') → h !! l = None ∧ h' = <[l := v]> h.
Proof.
  unfold alloc. intros [= <- <-]. split; [|done].
  apply not_elem_of_dom, is_fresh.
Qed.

Lemma init_spec (h : gmap positive (list Item)) data cap st0 :
  __init__ h data cap = Some st0 →
  ∃ items, h !! data = Some items
    ∧ h !! source st0 = None ∧ h !! destination st0 = None
    ∧ source st0 ≠ destination st0
    ∧ heap st0 = <[destination st0 := []]> (<[source st0 := items]> h)
    ∧ shared_queue st0 = Queue_new cap
    ∧ producer_thread st0 = PIdle ∧ consumer_thread st0 = CIdle
    ∧ phase st0 = Idle.
Proof.
  unfold __init__. destruct (h !! data) as [items|] eqn:Hd; [|done].
  destruct (alloc h items) as [src h1] eqn:H1.
  destruct (alloc h1 []) as [dst h2] eqn:H2.
  apply alloc_spec in H1 as [Hsrc ->]. apply alloc_spec in H2 as [Hdst ->].
  intros [= <-]. exists items. simpl.
  assert (src ≠ dst) by (intros ->; by rewrite lookup_insert_eq in Hdst).
  rewrite lookup_insert_ne in Hdst by done.
  by split_and!.
Qed.

Lemma Inv_init (h : gmap positive (list Item)) data cap items st0 :
  h !! data = Some items → __init__ h data cap = Some st0 →
  Inv items data cap [] st0.
Proof.
  intros Hd Hi.
  apply init_spec in Hi
    as (items' & Hd' & Hs & Hdst & Hne & Hh & Hq & Hp & Hc & Hm).
  assert (items' = items) as -> by congruence.
  assert (data ≠ source st0) by congruence.
  assert (data ≠ destination st0) by congruence.
  assert (Hout : output st0 = []).
  { unfold output. by rewrite Hh, lookup_insert_eq. }
  constructor; rewrite ?Hout, ?Hq, ?Hp, ?Hc, ?Hm; simpl; try done.
  - by rewrite Hh, lookup_insert_ne, lookup_insert_eq.
  - by rewrite Hh, lookup_insert_eq.
  - lia.
  - unfold qsize; simpl; lia.
  - unfold measure. rewrite Hp, Hc, Hm. simpl. lia.
Qed.

(** ** The invariant is preserved *)

Lemma puts_snoc tr e :
  puts (tr ++ [e]) = puts tr ++ match e with EPut x => [x] | _ => [] end.
Proof. unfold puts. rewrite omap_snoc. by destruct e. Qed.

Lemma takes_snoc tr e :
  takes (tr ++ [e]) = takes tr ++ match e with ETake x => [x] | _ => [] end.
Proof. unfold takes. rewrite omap_snoc. by destruct e. Qed.

Lemma appends_snoc tr e :
  appends (tr ++ [e])
  = appends tr ++ match e with EAppend x => [x] | _ => [] end.
Proof. unfold appends. rewrite omap_snoc. by destruct e. Qed.

Lemma acks_snoc tr e :
  acks (tr ++ [e]) = acks tr + match e with EAck => 1 | _ => 0 end.
Proof.
  unfold acks. rewrite omap_snoc, length_app. by destruct e.
Qed.

Lemma consumer_events_snoc tr e :
  consumer_events (tr ++ [e])
  = consumer_events tr
    ++ match e with ETake _ | EAppend _ | EAck => [e] | _ => [] end.
Proof. unfold consumer_events. rewrite omap_snoc. by destruct e. Qed.

Lemma program_steps_snoc tr e :
  program_steps (tr ++ [e])
  = program_steps tr + match e with EMutate _ => 0 | _ => 1 end.
Proof.
  unfold program_steps, program_events. rewrite omap_snoc, length_app.
  by destruct e.
Qed.

Ltac trace_simpl :=
  rewrite ?puts_snoc, ?takes_snoc, ?appends_snoc, ?acks_snoc,
    ?consumer_events_snoc, ?program_steps_snoc;
  cbn [app]; rewrite ?app_nil_r.

Ltac fields :=
  cbn [heap source destination shared_queue producer_thread consumer_thread
       phase maxsize queue unfinished_tasks set_phase set_producer
       set_consumer set_queue set_heap] in *.

Ltac inv_split Hout :=
  constructor; unfold output, input, measure, qsize; trace_simpl; fields;
  rewrite ?lookup_insert_eq; rewrite ?lookup_insert_ne by done;
  rewrite ?Hout; cbn [default from_option id];
  try done; try (simpl in *; rewrite ?length_app in *; simpl in *; lia);
  try (simpl in *; rewrite ?app_nil_r in *; congruence);
  try (simpl in *; rewrite <- ?app_assoc; simpl; congruence);
  try (match goal with |- phase_ok ?m _ _ _ =>
         destruct m; simpl in *; destruct_and?; simplify_eq;
         split_and?; (done || lia) end).

Lemma Inv_step items data cap tr st e st' :
  Inv items data cap tr st → step data st e st' →
  Inv items data cap (tr ++ [e]) st'.
Proof.
  intros HI Hs. destruct Hs as [t st e st' Hex | st ys];
  destruct HI as [Hsrc [out Hout] (Hne1 & Hne2 & Hne3) Hmax Hflow Hfet Hcons
                    Hunf Hph Hbd Hputs Htakes Happ Hacks Hscr Hst];
  destruct st as [hp src dst [mx q u] p c m];
  unfold output, input, measure, qsize in *; fields;
  rewrite Hout in *; cbn [default from_option id] in *.
  - destruct t; simpl in Hex.
    + unfold start, producer_returned, consumer_returned, join in Hex; fields.
      destruct m;
        [| |destruct p; try done|destruct c; try done
         |case_bool_decide; try done|done];
      simplify_eq; simpl in *; destruct_and?; simplify_eq.
      all: inv_split Hout.
    + unfold producer, input, put in Hex; fields.
      rewrite Hsrc in Hex. cbn [default from_option id] in Hex.
      destruct p as [|i|x i|]; [done| | |done].
      * destruct (items !! i) as [x|] eqn:Hi; simplify_eq.
        -- pose proof (lookup_lt_Some _ _ _ Hi).
           pose proof (drop_S _ _ _ Hi) as Hdrop.
           simpl in Hflow. rewrite Hdrop in Hflow.
           inv_split Hout.
        -- apply lookup_ge_None in Hi. simpl in Hflow, Hfet.
           assert (i = length items) as -> by lia.
           inv_split Hout.
      * match type of Hex with context [if ?b then _ else _] =>
          destruct b eqn:Hfull end; simplify_eq.
        apply andb_false_iff in Hfull. rewrite !bool_decide_eq_false in Hfull.
        inv_split Hout.
        -- intros. rewrite length_app. unfold qsize in Hfull. simpl in *. lia.
        -- rewrite Hputs, <- !app_assoc. done.
    + unfold consumer, input, get, task_done in Hex; fields.
      rewrite Hsrc in Hex. cbn [default from_option id] in Hex.
      destruct c as [| |k n|x k n|k n| |]; [done| | | | |done|done].
      * simplify_eq. inv_split Hout.
      * case_bool_decide; [destruct q as [|x q]; [done|]|]; simplify_eq.
        -- inv_split Hout.
        -- inv_split Hout.
      * simplify_eq. inv_split Hout.
        simpl in *. exists (appends tr), x. split; [done|].
        rewrite Hscr, <- app_assoc. done.
      * case_bool_decide; simplify_eq; inv_split Hout.
        simpl in *. destruct Hscr as (out' & y & Ho & Hev).
        rewrite Ho, Hev, consumer_script_app, <- app_assoc. done.
  - inv_split Hout.
Qed.

Lemma Inv_steps items data cap tr0 st0 tr st :
  Inv items data cap tr0 st0 → steps data st0 tr st →
  Inv items data cap (tr0 ++ tr) st.
Proof.
  intros H0 Hs. induction Hs as [|? ? ? ? ? _ IH Hstep].
  - by rewrite app_nil_r.
  - rewrite app_assoc. eapply Inv_step; [by apply IH|done].
Qed.

Lemma Inv_run (h : gmap positive (list Item)) data cap items tr st :
  h !! data = Some items → run h data cap tr st → Inv items data cap tr st.
Proof.
  intros Hd (st0 & Hi & Hs).
  apply (Inv_steps items data cap [] st0 tr st); [|done].
  by eapply Inv_init.
Qed.

(** ** Consequences of the invariant *)

Lemma Inv_run_ex (h : gmap positive (list Item)) data cap tr st :
  run h data cap tr st →
  ∃ items, h !! data = Some items ∧ Inv items data cap tr st.
Proof.
  intros Hr. pose proof Hr as (st0 & Hi & _).
  apply init_spec in Hi as (items & Hd & _).
  exists items. split; [done|]. by eapply Inv_run.
Qed.

Lemma app_full_length {A} (l k m : list A) :
  l = k ++ m → length k = length l → k = l ∧ m = [].
Proof.
  intros -> Hlen. rewrite length_app in Hlen.
  assert (m = []) as -> by (apply length_zero_iff_nil; lia).
  by rewrite app_nil_r.
Qed.

Lemma Inv_input items data cap tr st :
  Inv items data cap tr st → input st = items.
Proof. intros HI. unfold input. by rewrite (inv_source _ _ _ _ _ HI). Qed.

(** Once the consumer has left its loop everything has been delivered. *)
Lemma Inv_consumer_done items data cap tr st :
  Inv items data cap tr st → consumer_thread st = CDone →
  output st = items ∧ queue (shared_queue st) = []
  ∧ producer_thread st ≠ PIdle
  ∧ takes tr = items ∧ appends tr = items ∧ puts tr = items
  ∧ acks tr = length items
  ∧ consumer_events tr = consumer_script items
  ∧ unfinished_tasks (shared_queue st) = 0%Z.
Proof.
  intros HI Hc.
  pose proof (inv_flow _ _ _ _ _ HI) as Hflow.
  pose proof (inv_consumer _ _ _ _ _ HI) as Hcons.
  pose proof (inv_puts _ _ _ _ _ HI) as Hputs.
  pose proof (inv_takes _ _ _ _ _ HI) as Htakes.
  pose proof (inv_appends _ _ _ _ _ HI) as Happ.
  pose proof (inv_acks _ _ _ _ _ HI) as Hacks.
  pose proof (inv_script _ _ _ _ _ HI) as Hscr.
  pose proof (inv_unfinished _ _ _ _ _ HI) as Hunf.
  pose proof (inv_phase _ _ _ _ _ HI) as Hph.
  rewrite Hc in *. simpl in *.
  apply app_full_length in Hflow as [Hout Hrest]; [|done].
  apply app_eq_nil in Hrest as [Hq _].
  rewrite Hout, Hq in *. simpl in *. rewrite ?app_nil_r in *.
  split_and!; try done; try lia.
  destruct (phase st); simpl in Hph; destruct_and?; congruence.
Qed.

Lemma Inv_complete items data cap tr st :
  Inv items data cap tr st → phase st = Complete →
  producer_thread st = PDone ∧ consumer_thread st = CDone.
Proof.
  intros HI Hm. pose proof (inv_phase _ _ _ _ _ HI) as Hph.
  rewrite Hm in Hph. simpl in Hph. by destruct_and?.
Qed.

Lemma exec_owner t st e st' : exec t st = Some (e, st') → owner e = Some t.
Proof.
  destruct t; simpl; unfold start, producer, consumer; intros Hex;
    repeat case_match; by simplify_eq.
Qed.

Lemma step_owner data st e st' t :
  step data st e st' → owner e = Some t → exec t st = Some (e, st').
Proof.
  intros [t' ? ? ? Hex|] Ho; [|done].
  apply exec_owner in Hex as Ho'. by simplify_eq.
Qed.

Lemma step_complete data st st' :
  step data st EComplete st' → phase st = Draining.
Proof.
  intros Hs. eapply step_owner in Hs; [|done].
  simpl in Hs. unfold start in Hs. by repeat case_match.
Qed.

Lemma run_split (h : gmap positive (list Item)) data cap tr1 e tr2 st :
  run h data cap (tr1 ++ e :: tr2) st →
  ∃ s1 s1', run h data cap tr1 s1 ∧ step data s1 e s1'.
Proof.
  intros (st0 & Hi & Hs).
  apply steps_split in Hs as (s1 & s1' & ? & ? & _).
  exists s1, s1'. split; [by exists st0|done].
Qed.

(** ** Properties of runs *)

(** C1. Order preservation: in every run that reaches [Complete], whatever the
    source and the capacity, the destination holds the items of the source in
    the same order; the items put and the items appended are that same
    sequence, so the k-th item put is the k-th item appended. *)
Theorem order_preservation (h : gmap positive (list Item)) data cap items tr st :
  h !! data = Some items → run h data cap tr st → phase st = Complete →
  output st = items
  ∧ puts tr = items ∧ appends tr = items
  ∧ ∀ k, puts tr !! k = appends tr !! k.
Proof.
  intros Hd Hr Hm. pose proof (Inv_run _ _ _ _ _ _ Hd Hr) as HI.
  destruct (Inv_complete _ _ _ _ _ HI Hm) as [_ Hc].
  destruct (Inv_consumer_done _ _ _ _ _ HI Hc)
    as (Hout & _ & _ & _ & Happ & Hputs & _).
  split_and!; try done. intros k. by rewrite Hputs, Happ.
Qed.

(** C3. Completion barrier: a run is in [Complete] only when all
    [len(source)] items have been taken, appended to the destination and
    acknowledged; and at the very moment the coordinator moves to [Complete]
    the events before that move already contain all the takes, appends and
    acknowledgments. *)
Theorem complete_only_after_all_acknowledged
    (h : gmap positive (list Item)) data cap items tr st :
  h !! data = Some items → run h data cap tr st →
  (phase st = Complete →
     acks tr = length items ∧ takes tr = items ∧ appends tr = items
     ∧ output st = items)
  ∧ (∀ tr1 tr2, tr = tr1 ++ EComplete :: tr2 →
       acks tr1 = length items ∧ takes tr1 = items ∧ appends tr1 = items).
Proof.
  intros Hd Hr. split.
  - intros Hm. pose proof (Inv_run _ _ _ _ _ _ Hd Hr) as HI.
    destruct (Inv_complete _ _ _ _ _ HI Hm) as [_ Hc].
    destruct (Inv_consumer_done _ _ _ _ _ HI Hc)
      as (? & _ & _ & ? & ? & _ & ? & _).
    done.
  - intros tr1 tr2 ->.
    apply run_split in Hr as (s1 & s1' & Hr1 & Hstep).
    pose proof (Inv_run _ _ _ _ _ _ Hd Hr1) as HI.
    apply step_complete in Hstep.
    pose proof (inv_phase _ _ _ _ _ HI) as Hph.
    rewrite Hstep in Hph. destruct Hph as [_ Hc].
    destruct (Inv_consumer_done _ _ _ _ _ HI Hc)
      as (_ & _ & _ & ? & ? & _ & ? & _).
    done.
Qed.

(** C4. Capacity bound: with a capacity of at least 1, in every state of
    every run the number of buffered items lies between 0 and the capacity. *)
Theorem capacity_bound (h : gmap positive (list Item)) data cap tr st :
  (1 ≤ cap)%Z → run h data cap tr st →
  (0 ≤ qsize (shared_queue st) ≤ cap)%Z.
Proof.
  intros Hcap Hr. apply Inv_run_ex in Hr as (items & _ & HI).
  pose proof (inv_bound _ _ _ _ _ HI). unfold qsize in *. lia.
Qed.



(** ** Progress and termination *)

Lemma steps_one data st e st' : step data st e st' → steps data st [e] st'.
Proof. intros Hs. apply (steps_snoc data st [] st); [constructor|done]. Qed.

Lemma steps_cons data st e st1 tr st2 :
  step data st e st1 → steps data st1 tr st2 → steps data st (e :: tr) st2.
Proof.
  intros Hs Hss. apply (steps_app data st [e] st1); [by apply steps_one|done].
Qed.

(** Some thread can always move until the run is complete.  This holds for
    every capacity: a queue whose [maxsize] is not positive never makes [put]
    wait, and a full queue of positive capacity is not empty. *)
Lemma Inv_progress items data cap tr st :
  Inv items data cap tr st → phase st ≠ Complete →
  ∃ t e st', exec t st = Some (e, st').
Proof.
  intros HI Hm.
  pose proof (inv_flow _ _ _ _ _ HI) as Hflow.
  pose proof (inv_fetched _ _ _ _ _ HI) as Hfet.
  pose proof (inv_consumer _ _ _ _ _ HI) as Hcons.
  pose proof (inv_unfinished _ _ _ _ _ HI) as Hunf.
  pose proof (inv_phase _ _ _ _ _ HI) as Hph.
  assert (Hlen : length items
                 = length (output st) + length (in_hand_c (consumer_thread st))
                   + length (queue (shared_queue st))
                   + length (in_hand_p (producer_thread st))
                   + (length items
                      - fetched (length items) (producer_thread st))).
  { rewrite Hflow at 1. rewrite !length_app, length_drop. lia. }
  clear Hflow.
  assert (Hcons_moves :
    consumer_thread st ≠ CIdle → consumer_thread st ≠ CDone →
    queue (shared_queue st) ≠ []
    ∨ (∀ k n, consumer_thread st = CGet k n → ¬ k < n) →
    ∃ e st', consumer st = Some (e, st')).
  { intros Hc1 Hc2 Hq. unfold consumer, get, task_done.
    destruct (consumer_thread st) as [| |k n|x k n|k n| |];
      try done; try by eauto.
    - case_bool_decide; [|by eauto].
      destruct (queue (shared_queue st)) as [|y q]; [|by eauto].
      destruct Hq as [|Hq]; [done|]. by destruct (Hq k n).
    - case_match; eauto. }
  destruct (phase st) eqn:Hphase; simpl in Hph; destruct_and?; try done.
  - exists Coordinator. simpl. unfold start. rewrite Hphase. eauto.
  - exists Coordinator. simpl. unfold start. rewrite Hphase. eauto.
  - destruct (producer_thread st) as [|i|x i|] eqn:Hp; [done| | |].
    + exists Producer. simpl. unfold producer. rewrite Hp. case_match; eauto.
    + destruct (put (shared_queue st) x) as [q'| |] eqn:Hput.
      * exists Producer. simpl. unfold producer. rewrite Hp, Hput. eauto.
      * exists Consumer. simpl. apply Hcons_moves; [done| |].
        -- intros Hc. rewrite Hc in *. simpl in *. lia.
        -- left. intros Hq. unfold put, qsize in Hput. rewrite Hq in Hput.
           simpl in Hput.
           repeat case_bool_decide; simpl in *; try done; lia.
      * unfold put in Hput. by case_match.
    + exists Coordinator. simpl. unfold start, producer_returned.
      rewrite Hphase, Hp. eauto.
  - destruct (consumer_returned st) eqn:Hret.
    + exists Coordinator. simpl. unfold start. rewrite Hphase, Hret. eauto.
    + exists Consumer. simpl. apply Hcons_moves; [done| |].
      { intros Hc. unfold consumer_returned in Hret. by rewrite Hc in Hret. }
      destruct (queue (shared_queue st)) as [|y q]; [right|by left].
      intros k n Hk. rewrite Hk in *.
      match goal with H : producer_thread st = PDone |- _ =>
        rewrite H in * end.
      simpl in *. lia.
  - exists Coordinator. simpl. unfold start, join. rewrite Hphase.
    repeat match goal with H : _ st = _ |- _ => rewrite H in * end.
    simpl in *. rewrite bool_decide_eq_true_2 by lia. eauto.
Qed.

Lemma Inv_measure_complete items data cap tr st :
  Inv items data cap tr st →
  (measure (length items) st = 0 ↔ phase st = Complete).
Proof.
  intros HI. pose proof (inv_phase _ _ _ _ _ HI) as Hph.
  unfold measure. split.
  - destruct (phase st); simpl; lia || done.
  - intros Hm. rewrite Hm in *. simpl in Hph.
    destruct Hph as (-> & -> & _). done.
Qed.

Lemma exec_program_step t st e st' :
  exec t st = Some (e, st') → program_steps [e] = 1.
Proof. intros Hex%exec_owner. by destruct e. Qed.

(** From every state of a run the threads reach [Complete] on their own, in
    as many actions as the measure says. *)
Lemma Inv_completes items data cap n tr st :
  Inv items data cap tr st → measure (length items) st = n →
  ∃ tr' st', steps data st tr' st' ∧ phase st' = Complete
             ∧ program_steps tr' = n ∧ length tr' = n.
Proof.
  revert tr st. induction n as [|n IH]; intros tr st HI Hmeas.
  - exists [], st. split_and!; try done; [constructor|].
    by apply (Inv_measure_complete _ _ _ _ _ HI).
  - destruct (Inv_progress _ _ _ _ _ HI) as (t & e & st1 & Hex).
    { intros Hm%(Inv_measure_complete _ _ _ _ _ HI). lia. }
    assert (Hstep : step data st e st1) by by econstructor.
    pose proof (Inv_step _ _ _ _ _ _ _ HI Hstep) as HI1.
    pose proof (inv_steps _ _ _ _ _ HI) as Hs.
    pose proof (inv_steps _ _ _ _ _ HI1) as Hs1.
    pose proof (exec_program_step _ _ _ _ Hex) as He.
    unfold program_steps, program_events in *.
    rewrite omap_app, length_app in Hs1.
    destruct (IH _ _ HI1) as (tr' & st' & Hss & Hm & Hp & Hl); [lia|].
    exists (e :: tr'), st'.
    split_and!; [by eapply steps_cons|done| |simpl; lia].
    change (e :: tr') with ([e] ++ tr').
    rewrite omap_app, length_app. lia.
Qed.

(** ** Schedules *)

Lemma do_move_step data mv st e st' :
  do_move data mv st = Some (e, st') → step data st e st'.
Proof.
  destruct mv as [t|ys]; simpl.
  - by apply step_thread.
  - intros [= <- <-]. apply step_mutate.
Qed.

Lemma run_schedule_steps data sched st tr st' :
  run_schedule data sched st = Some (tr, st') → steps data st tr st'.
Proof.
  revert st tr. induction sched as [|mv sched IH]; intros st tr; simpl.
  - intros [= <- <-]. constructor.
  - destruct (do_move data mv st) as [[e st1]|] eqn:Hmv; [|done].
    destruct (run_schedule data sched st1) as [[tr1 st2]|] eqn:Hrs; [|done].
    intros [= <- <-].
    eapply steps_cons; [by eapply do_move_step|by apply IH].
Qed.

Lemma run_program_run (h : gmap positive (list Item)) data cap sched tr st :
  run_program h data cap sched = Some (tr, st) → run h data cap tr st.
Proof.
  unfold run_program. destruct (__init__ h data cap) as [st0|] eqn:Hi; [|done].
  intros Hrs. exists st0. split; [done|]. by eapply run_schedule_steps.
Qed.

Lemma next_action_exec st e st' :
  next_action st = Some (e, st') → ∃ t, exec t st = Some (e, st').
Proof.
  unfold next_action. intros Hn.
  destruct (producer st) eqn:Hp; [exists Producer; by simplify_eq|].
  destruct (consumer st) eqn:Hc; [exists Consumer; by simplify_eq|].
  by exists Coordinator.
Qed.

Lemma next_action_progress st t e st' :
  exec t st = Some (e, st') → is_Some (next_action st).
Proof.
  unfold next_action. intros Hex.
  destruct (producer st) eqn:Hp; [by eauto|].
  destruct (consumer st) eqn:Hc; [by eauto|].
  destruct t; simpl in Hex; [by eauto|congruence..].
Qed.

(** The scheduler [drive] completes every run, given the fuel the measure
    asks for. *)
Lemma drive_completes items data cap n tr st fuel :
  Inv items data cap tr st → measure (length items) st = n → n ≤ fuel →
  ∃ tr' st', drive fuel st = (tr', st') ∧ steps data st tr' st'
             ∧ phase st' = Complete ∧ output st' = items.
Proof.
  revert tr st fuel. induction n as [|n IH]; intros tr st fuel HI Hmeas Hfuel.
  - assert (Hm : phase st = Complete)
      by by apply (Inv_measure_complete _ _ _ _ _ HI).
    exists [], st. split_and!; [|constructor|done|].
    + destruct fuel; [done|]. simpl. unfold next_action, producer, consumer, start.
      destruct (Inv_complete _ _ _ _ _ HI Hm) as [-> ->]. by rewrite Hm.
    + destruct (Inv_complete _ _ _ _ _ HI Hm) as [_ Hc].
      by destruct (Inv_consumer_done _ _ _ _ _ HI Hc) as (-> & _).
  - destruct fuel as [|fuel]; [lia|].
    destruct (Inv_progress _ _ _ _ _ HI) as (t & e0 & st0 & Hex0).
    { intros Hm%(Inv_measure_complete _ _ _ _ _ HI). lia. }
    destruct (next_action_progress _ _ _ _ Hex0) as [[e st1] Hn].
    destruct (next_action_exec _ _ _ Hn) as [t' Hex].
    assert (Hstep : step data st e st1) by by econstructor.
    pose proof (Inv_step _ _ _ _ _ _ _ HI Hstep) as HI1.
    pose proof (inv_steps _ _ _ _ _ HI) as Hs.
    pose proof (inv_steps _ _ _ _ _ HI1) as Hs1.
    pose proof (exec_program_step _ _ _ _ Hex) as He.
    unfold program_steps, program_events in *.
    rewrite omap_app, length_app in Hs1.
    destruct (IH _ _ fuel HI1) as (tr' & st' & Hd & Hss & Hm & Hout); [lia..|].
    exists (e :: tr'), st'. simpl. rewrite Hn, Hd.
    split_and!; [done|by eapply steps_cons|done|done].
Qed.

Lemma run_extend (h : gmap positive (list Item)) data cap tr st tr' st' :
  run h data cap tr st → steps data st tr' st' →
  run h data cap (tr ++ tr') st'.
Proof.
  intros (st0 & Hi & Hs) Hs'. exists st0. split; [done|].
  by eapply steps_app.
Qed.

Lemma Inv_success items data cap tr st :
  Inv items data cap tr st → consumer_thread st = CDone → success st = true.
Proof.
  intros HI Hc. unfold success. apply bool_decide_eq_true_2.
  rewrite (Inv_input _ _ _ _ _ HI).
  by destruct (Inv_consumer_done _ _ _ _ _ HI Hc) as (-> & _).
Qed.

(** C8. No deadlock: with a capacity of at least 1 and any source, a run
    never takes more than [5 * len(source) + 8] actions of its threads and is
    complete exactly when it has taken that many; until then some thread can
    move, and the threads bring the run to [Complete] from every state it can
    be in; the scheduler [drive] does so when given that much fuel.  In
    [Complete] the producer and the consumer have returned and
    [shared_queue.join()] returns.  (Nothing here needs the bound on the
    capacity: the lemmas above hold for every capacity.) *)
Theorem no_deadlock (h : gmap positive (list Item)) data cap items tr st :
  (1 ≤ cap)%Z → h !! data = Some items → run h data cap tr st →
  program_steps tr ≤ 5 * length items + 8
  ∧ (program_steps tr = 5 * length items + 8 ↔ phase st = Complete)
  ∧ (phase st ≠ Complete → ∃ t e st', exec t st = Some (e, st'))
  ∧ (∃ tr' st', run h data cap (tr ++ tr') st' ∧ phase st' = Complete
       ∧ program_steps (tr ++ tr') = 5 * length items + 8)
  ∧ (∀ fuel, 5 * length items + 8 ≤ fuel →
       phase (drive fuel st).2 = Complete ∧ output (drive fuel st).2 = items)
  ∧ (phase st = Complete →
       producer_thread st = PDone ∧ consumer_thread st = CDone
       ∧ join (shared_queue st) = Returns tt).
Proof.
  intros _ Hd Hr. pose proof (Inv_run _ _ _ _ _ _ Hd Hr) as HI.
  pose proof (inv_steps _ _ _ _ _ HI) as Hsteps.
  pose proof (Inv_measure_complete _ _ _ _ _ HI) as Hmc.
  split_and!.
  - lia.
  - rewrite <- Hmc. lia.
  - by apply (Inv_progress _ _ _ _ _ HI).
  - destruct (Inv_completes _ _ _ _ _ _ HI eq_refl)
      as (tr' & st' & Hss & Hm & Hp & _).
    exists tr', st'. split_and!; [by eapply run_extend|done|].
    unfold program_steps, program_events in *.
    rewrite omap_app, length_app. lia.
  - intros fuel Hfuel.
    destruct (drive_completes _ _ _ _ _ _ fuel HI eq_refl)
      as (tr' & st' & -> & _ & Hm & Hout); [lia|done].
  - intros Hm. destruct (Inv_complete _ _ _ _ _ HI Hm) as [Hp Hc].
    split_and!; [done|done|]. unfold join.
    destruct (Inv_consumer_done _ _ _ _ _ HI Hc)
      as (_ & _ & _ & _ & _ & _ & _ & _ & ->).
    done.
Qed.

(** C6. Empty source: when the source is empty the destination stays empty,
    nothing is ever put or taken, neither the producer nor the consumer ever
    waits inside [put] or [get], the run is over after at most 8 actions of
    the threads, it can always be brought to [Complete], and in [Complete]
    the output is [[]] and the success flag is set. *)
Theorem empty_source (h : gmap positive (list Item)) data cap tr st :
  h !! data = Some [] → run h data cap tr st →
  output st = [] ∧ puts tr = [] ∧ takes tr = []
  ∧ ¬ waits_in_put st ∧ ¬ waits_in_get st
  ∧ program_steps tr ≤ 8
  ∧ (phase st = Complete → output st = [] ∧ success st = true)
  ∧ (∃ tr' st', run h data cap (tr ++ tr') st' ∧ phase st' = Complete
       ∧ output st' = [] ∧ success st' = true).
Proof.
  intros Hd Hr. pose proof (Inv_run _ _ _ _ _ _ Hd Hr) as HI.
  pose proof (inv_flow _ _ _ _ _ HI) as Hflow.
  pose proof (inv_puts _ _ _ _ _ HI) as Hputs.
  pose proof (inv_takes _ _ _ _ _ HI) as Htakes.
  pose proof (inv_consumer _ _ _ _ _ HI) as Hcons.
  pose proof (inv_steps _ _ _ _ _ HI) as Hsteps.
  symmetry in Hflow.
  apply app_eq_nil in Hflow as [Hout Hflow].
  apply app_eq_nil in Hflow as [Hhc Hflow].
  apply app_eq_nil in Hflow as [Hq Hflow].
  apply app_eq_nil in Hflow as [Hhp _].
  rewrite Hout, Hhc, Hq in *. simpl in *.
  split_and!; try done.
  - intros (item & i & Hp & _). by rewrite Hp in Hhp.
  - intros (k & n & Hc & Hwait). rewrite Hc in Hcons.
    destruct Hcons as (-> & _ & _).
    unfold consumer in Hwait. rewrite Hc in Hwait.
    by rewrite bool_decide_eq_false_2 in Hwait by lia.
  - lia.
  - intros Hm. split; [done|]. eapply Inv_success; [done|].
    by apply (Inv_complete _ _ _ _ _ HI).
  - destruct (Inv_completes _ _ _ _ _ _ HI eq_refl)
      as (tr' & st' & Hss & Hm & _).
    pose proof (Inv_steps _ _ _ _ _ _ _ HI Hss) as HI'.
    destruct (Inv_complete _ _ _ _ _ HI' Hm) as [_ Hc].
    exists tr', st'. split_and!; [by eapply run_extend|done| |].
    + by destruct (Inv_consumer_done _ _ _ _ _ HI' Hc) as (-> & _).
    + by eapply Inv_success.
Qed.

(** C10. Determinism of the result: for a given store, source and capacity of
    at least 1, two runs that reach [Complete], however their threads were
    scheduled, end with the same destination and the same success flag. *)
Theorem deterministic_result (h : gmap positive (list Item)) data cap
    tr1 st1 tr2 st2 :
  (1 ≤ cap)%Z →
  run h data cap tr1 st1 → phase st1 = Complete →
  run h data cap tr2 st2 → phase st2 = Complete →
  output st1 = output st2 ∧ success st1 = success st2.
Proof.
  intros _ Hr1 Hm1 Hr2 Hm2.
  apply Inv_run_ex in Hr1 as (items & Hd & HI1).
  apply Inv_run_ex in Hr2 as (items' & Hd' & HI2).
  assert (items' = items) as -> by congruence.
  destruct (Inv_complete _ _ _ _ _ HI1 Hm1) as [_ Hc1].
  destruct (Inv_complete _ _ _ _ _ HI2 Hm2) as [_ Hc2].
  rewrite (Inv_success _ _ _ _ _ HI1 Hc1), (Inv_success _ _ _ _ _ HI2 Hc2).
  destruct (Inv_consumer_done _ _ _ _ _ HI1 Hc1) as (-> & _).
  destruct (Inv_consumer_done _ _ _ _ _ HI2 Hc2) as (-> & _).
  done.
Qed.

(** ** The caller's list *)

Lemma exec_fields t st e st' :
  exec t st = Some (e, st') →
  source st' = source st ∧ destination st' = destination st.
Proof.
  destruct t; simpl; unfold start, producer, consumer; intros Hex;
    repeat case_match; by simplify_eq.
Qed.

Lemma steps_fields data st tr st' :
  steps data st tr st' →
  source st' = source st ∧ destination st' = destination st.
Proof.
  induction 1 as [|? ? ? ? ? _ [IH1 IH2] Hstep]; [done|].
  destruct Hstep as [t ? ? ? Hex|]; [|done].
  apply exec_fields in Hex as [-> ->]. done.
Qed.

(** An action of a thread does not look at the caller's list. *)
Lemma exec_restore t st e st' data items :
  source st ≠ data → destination st ≠ data →
  exec t st = Some (e, st') →
  exec t (restore data items st) = Some (e, restore data items st').
Proof.
  intros Hsrc Hdst.
  destruct t; simpl;
    unfold start, producer, consumer, restore, input, output,
      producer_returned, consumer_returned; fields;
    rewrite ?lookup_insert_ne by done; intros Hex;
    repeat case_match; simplify_eq; try done.
  unfold set_consumer, set_heap; fields.
  by rewrite insert_insert_ne.
Qed.

Lemma program_events_snoc tr e :
  program_events (tr ++ [e])
  = program_events tr ++ match e with EMutate _ => [] | _ => [e] end.
Proof. unfold program_events. rewrite omap_snoc. by destruct e. Qed.

(** Erasing the caller's mutations from a run leaves a run of the same
    program that differs only in the contents of the caller's list. *)
Lemma run_restore (h : gmap positive (list Item)) data cap items tr st :
  h !! data = Some items → run h data cap tr st →
  run h data cap (program_events tr) (restore data items st).
Proof.
  intros Hd (st0 & Hi & Hs). exists st0. split; [done|].
  pose proof (Inv_init _ _ _ _ _ Hd Hi) as HI0.
  assert (Hst0 : restore data items st0 = st0).
  { apply init_spec in Hi
      as (items' & Hd' & Hs0 & Hd0 & Hne & Hh & _).
    assert (items' = items) as -> by congruence.
    unfold restore, set_heap. rewrite insert_id; [by destruct st0|].
    rewrite Hh, !lookup_insert_ne by congruence. done. }
  induction Hs as [|st0 tr st e st' Hs IH Hstep].
  - rewrite Hst0. constructor.
  - pose proof (Inv_steps _ _ _ _ _ _ _ HI0 Hs) as HI.
    destruct (inv_sep _ _ _ _ _ HI) as (_ & Hne1 & Hne2).
    rewrite program_events_snoc.
    destruct Hstep as [t st e st' Hex|st ys].
    + apply exec_owner in Hex as Ho.
      eapply (exec_restore _ _ _ _ data items) in Hex; [|done..].
      replace (match e with EMutate _ => [] | _ => [e] end) with [e]
        by by destruct e.
      eapply steps_snoc; [by apply IH|]. by econstructor.
    + rewrite app_nil_r.
      replace (restore data items (set_heap st (<[data:=ys]> (heap st))))
        with (restore data items st); [by apply IH|].
      unfold restore, set_heap; fields. by rewrite insert_insert_eq.
Qed.

(** C9. The source is a private copy: [__init__] stores the elements under a
    location that did not exist before and is not the caller's list; whatever
    the caller writes to its list afterwards, the stored source keeps the
    elements given at construction, the threads do exactly what they do in
    the run without these writes, and in [Complete] the destination equals
    these elements and the success flag is set. *)
Theorem source_is_private_copy (h : gmap positive (list Item)) data cap items st0 :
  h !! data = Some items → __init__ h data cap = Some st0 →
  h !! source st0 = None ∧ source st0 ≠ data
  ∧ heap st0 !! source st0 = Some items ∧ heap st0 !! data = Some items
  ∧ ∀ tr st, steps data st0 tr st →
      source st = source st0
      ∧ heap st !! source st = Some items ∧ input st = items
      ∧ steps data st0 (program_events tr) (restore data items st)
      ∧ (phase st = Complete → output st = items ∧ success st = true).
Proof.
  intros Hd Hi. pose proof (Inv_init _ _ _ _ _ Hd Hi) as HI0.
  pose proof Hi as Hi'.
  apply init_spec in Hi'
    as (items' & Hd' & Hs0 & Hd0 & Hne & Hh & _).
  assert (items' = items) as -> by congruence.
  split_and!.
  - done.
  - congruence.
  - by apply (inv_source _ _ _ _ _ HI0).
  - rewrite Hh, !lookup_insert_ne by congruence. done.
  - intros tr st Hs.
    pose proof (Inv_steps _ _ _ _ _ _ _ HI0 Hs) as HI. simpl in HI.
    split_and!.
    + by apply steps_fields in Hs as [-> _].
    + by apply (inv_source _ _ _ _ _ HI).
    + by apply (Inv_input _ _ _ _ _ HI).
    + assert (Hr : run h data cap tr st) by by exists st0.
      destruct (run_restore _ _ _ _ _ _ Hd Hr) as (st0' & Hi0' & Hs').
      by assert (st0' = st0) as -> by congruence.
    + intros Hm. destruct (Inv_complete _ _ _ _ _ HI Hm) as [_ Hc].
      split; [|by eapply Inv_success].
      by destruct (Inv_consumer_done _ _ _ _ _ HI Hc) as (-> & _).
Qed.

(** ** Capacities below 1 *)

Lemma init_total (h : gmap positive (list Item)) data cap items :
  h !! data = Some items → is_Some (__init__ h data cap).
Proof.
  intros Hd. unfold __init__. rewrite Hd.
  destruct (alloc h items) as [src h1]. destruct (alloc h1 []) as [dst h2].
  eauto.
Qed.

(** C2, as the program has it.  A capacity below 1 is not rejected: the
    constructor returns an idle system with neither thread started, whose
    queue has this [maxsize] and is therefore unbounded, so that the producer
    never waits inside [put]; the threads are started by [start] alone, and
    every run can be brought to [Complete] with the source delivered. *)
Theorem capacity_below_one_is_unbounded
    (h : gmap positive (list Item)) data cap items :
  (cap < 1)%Z → h !! data = Some items →
  ∃ st0, __init__ h data cap = Some st0
    ∧ phase st0 = Idle ∧ producer_thread st0 = PIdle
    ∧ consumer_thread st0 = CIdle
    ∧ maxsize (shared_queue st0) = cap
    ∧ (∀ q item, maxsize q = cap → put q item ≠ Blocks)
    ∧ ∀ tr st, steps data st0 tr st →
        ¬ waits_in_put st
        ∧ (phase st = Idle →
             producer_thread st = PIdle ∧ consumer_thread st = CIdle)
        ∧ ∃ tr' st', steps data st tr' st' ∧ phase st' = Complete
                     ∧ output st' = items.
Proof.
  intros Hcap Hd. destruct (init_total h data cap items Hd) as [st0 Hi].
  exists st0. pose proof (Inv_init _ _ _ _ _ Hd Hi) as HI0.
  pose proof Hi as Hi'.
  apply init_spec in Hi' as (_ & _ & _ & _ & _ & _ & Hq & Hp & Hc & Hm).
  assert (Hput : ∀ q item, maxsize q = cap → put q item ≠ Blocks).
  { intros q item Hmax. unfold put. rewrite Hmax.
    rewrite (bool_decide_eq_false_2 (0 < cap)%Z) by lia. done. }
  split_and!; try done.
  - by rewrite Hq.
  - intros tr st Hs.
    pose proof (Inv_steps _ _ _ _ _ _ _ HI0 Hs) as HI. simpl in HI.
    split_and!.
    + intros (item & i & Hpc & Hwait).
      unfold producer in Hwait. rewrite Hpc in Hwait.
      pose proof (Hput (shared_queue st) item (inv_maxsize _ _ _ _ _ HI)).
      unfold put in *. by repeat case_match.
    + intros Hidle. pose proof (inv_phase _ _ _ _ _ HI) as Hph.
      by rewrite Hidle in Hph.
    + destruct (Inv_completes _ _ _ _ _ _ HI eq_refl)
        as (tr' & st' & Hss & Hm' & _).
      exists tr', st'. split_and!; [done|done|].
      pose proof (Inv_steps _ _ _ _ _ _ _ HI Hss) as HI'.
      destruct (Inv_complete _ _ _ _ _ HI' Hm') as [_ Hc'].
      by destruct (Inv_consumer_done _ _ _ _ _ HI' Hc') as (-> & _).
Qed.

End properties.

(** * The properties at concrete runs *)

Lemma order_preservation_witness :
  store_of [1; 2; 3]%Z !! caller = Some [1; 2; 3]%Z
  ∧ run (store_of [1; 2; 3]%Z) caller 2 (trace_of run_full) (final_of run_full)
  ∧ phase (final_of run_full) = Complete
  ∧ output (final_of run_full) = [1; 2; 3]%Z
  ∧ puts (trace_of run_full) = [1; 2; 3]%Z
  ∧ appends (trace_of run_full) = [1; 2; 3]%Z.
Proof.
  assert (Hd : store_of [1; 2; 3]%Z !! caller = Some [1; 2; 3]%Z)
    by (vm_compute; reflexivity).
  assert (Hr : run (store_of [1; 2; 3]%Z) caller 2
                 (trace_of run_full) (final_of run_full)).
  { apply (run_program_run _ _ _ sched_full). vm_compute. reflexivity. }
  assert (Hm : phase (final_of run_full) = Complete)
    by (vm_compute; reflexivity).
  destruct (order_preservation _ _ _ _ _ _ Hd Hr Hm) as (Ho & Hp & Ha & _).
  repeat split; assumption.
Defined.

Lemma complete_only_after_all_acknowledged_witness :
  store_of [1; 2; 3]%Z !! caller = Some [1; 2; 3]%Z
  ∧ run (store_of [1; 2; 3]%Z) caller 2
        (trace_of run_lockstep) (final_of run_lockstep)
  ∧ (phase (final_of run_lockstep) = Complete →
       acks (trace_of run_lockstep) = 3
       ∧ takes (trace_of run_lockstep) = [1; 2; 3]%Z
       ∧ appends (trace_of run_lockstep) = [1; 2; 3]%Z
       ∧ output (final_of run_lockstep) = [1; 2; 3]%Z)
  ∧ (∀ tr1 tr2, trace_of run_lockstep = tr1 ++ EComplete :: tr2 →
       acks tr1 = 3 ∧ takes tr1 = [1; 2; 3]%Z ∧ appends tr1 = [1; 2; 3]%Z).
Proof.
  assert (Hd : store_of [1; 2; 3]%Z !! caller = Some [1; 2; 3]%Z)
    by (vm_compute; reflexivity).
  assert (Hr : run (store_of [1; 2; 3]%Z) caller 2
                 (trace_of run_lockstep) (final_of run_lockstep)).
  { apply (run_program_run _ _ _ sched_lockstep). vm_compute. reflexivity. }
  split; [exact Hd|]. split; [exact Hr|].
  exact (complete_only_after_all_acknowledged _ _ _ _ _ _ Hd Hr).
Defined.

Lemma capacity_bound_witness :
  (1 ≤ 2)%Z
  ∧ run (store_of [1; 2; 3]%Z) caller 2 (trace_of run_ahead) (final_of run_ahead)
  ∧ queue (shared_queue (final_of run_ahead)) = [1; 2]%Z
  ∧ (0 ≤ qsize (shared_queue (final_of run_ahead)) ≤ 2)%Z.
Proof.
  assert (Hcap : (1 ≤ 2)%Z) by lia.
  assert (Hr : run (store_of [1; 2; 3]%Z) caller 2
                 (trace_of run_ahead) (final_of run_ahead)).
  { apply (run_program_run _ _ _ sched_ahead). vm_compute. reflexivity. }
  split; [exact Hcap|]. split; [exact Hr|].
  split; [vm_compute; reflexivity|].
  exact (capacity_bound _ _ _ _ _ Hcap Hr).
Defined.


Lemma empty_source_witness :
  store_of [] !! caller = Some []
  ∧ run (store_of []) caller 2 (trace_of run_empty) (final_of run_empty)
  ∧ phase (final_of run_empty) = Complete
  ∧ output (final_of run_empty) = []
  ∧ puts (trace_of run_empty) = [] ∧ takes (trace_of run_empty) = []
  ∧ ¬ waits_in_put (final_of run_empty)
  ∧ ¬ waits_in_get (final_of run_empty)
  ∧ program_steps (trace_of run_empty) ≤ 8
  ∧ success (final_of run_empty) = true.
Proof.
  assert (Hd : store_of [] !! caller = Some [])
    by (vm_compute; reflexivity).
  assert (Hr : run (store_of []) caller 2
                 (trace_of run_empty) (final_of run_empty)).
  { apply (run_program_run _ _ _ sched_empty). vm_compute. reflexivity. }
  assert (Hm : phase (final_of run_empty) = Complete)
    by (vm_compute; reflexivity).
  destruct (empty_source _ _ _ _ _ Hd Hr)
    as (Ho & Hp & Ht & Hwp & Hwg & Hs & Hc & _).
  destruct (Hc Hm) as [_ Hsucc].
  repeat split; assumption.
Defined.


Lemma no_deadlock_witness :
  (1 ≤ 2)%Z
  ∧ store_of [1; 2; 3]%Z !! caller = Some [1; 2; 3]%Z
  ∧ run (store_of [1; 2; 3]%Z) caller 2 (trace_of run_ahead) (final_of run_ahead)
  ∧ program_steps (trace_of run_ahead) ≤ 23
  ∧ phase (drive 23 (final_of run_ahead)).2 = Complete
  ∧ output (drive 23 (final_of run_ahead)).2 = [1; 2; 3]%Z.
Proof.
  assert (Hcap : (1 ≤ 2)%Z) by lia.
  assert (Hd : store_of [1; 2; 3]%Z !! caller = Some [1; 2; 3]%Z)
    by (vm_compute; reflexivity).
  assert (Hr : run (store_of [1; 2; 3]%Z) caller 2
                 (trace_of run_ahead) (final_of run_ahead)).
  { apply (run_program_run _ _ _ sched_ahead). vm_compute. reflexivity. }
  destruct (no_deadlock _ _ _ _ _ _ Hcap Hd Hr)
    as (Hbound & _ & _ & _ & Hdrive & _).
  destruct (Hdrive 23 (le_n 23)) as [Hm Ho].
  repeat split; assumption.
Defined.

Lemma source_is_private_copy_witness :
  store_of [1; 2; 3]%Z !! caller = Some [1; 2; 3]%Z
  ∧ __init__ (store_of [1; 2; 3]%Z) caller 2
    = Some (final_of (run_program (store_of [1; 2; 3]%Z) caller 2 []))
  ∧ steps caller (final_of (run_program (store_of [1; 2; 3]%Z) caller 2 []))
          (trace_of run_mutated) (final_of run_mutated)
  ∧ phase (final_of run_mutated) = Complete
  ∧ heap (final_of run_mutated) !! caller = Some [4; 5; 6; 7]%Z
  ∧ input (final_of run_mutated) = [1; 2; 3]%Z
  ∧ output (final_of run_mutated) = [1; 2; 3]%Z
  ∧ success (final_of run_mutated) = true.
Proof.
  assert (Hd : store_of [1; 2; 3]%Z !! caller = Some [1; 2; 3]%Z)
    by (vm_compute; reflexivity).
  assert (Hi : __init__ (store_of [1; 2; 3]%Z) caller 2
               = Some (final_of (run_program (store_of [1; 2; 3]%Z) caller 2 [])))
    by (vm_compute; reflexivity).
  assert (Hs : steps caller
                 (final_of (run_program (store_of [1; 2; 3]%Z) caller 2 []))
                 (trace_of run_mutated) (final_of run_mutated)).
  { apply (run_schedule_steps _ sched_mutated). vm_compute. reflexivity. }
  assert (Hm : phase (final_of run_mutated) = Complete)
    by (vm_compute; reflexivity).
  destruct (source_is_private_copy _ _ _ _ _ Hd Hi) as (_ & _ & _ & _ & Hrun).
  destruct (Hrun _ _ Hs) as (_ & _ & Hin & _ & Hc).
  destruct (Hc Hm) as [Hout Hsucc].
  split; [exact Hd|]. split; [exact Hi|]. split; [exact Hs|].
  split; [exact Hm|]. split; [vm_compute; reflexivity|].
  repeat split; assumption.
Defined.

Lemma deterministic_result_witness :
  (1 ≤ 2)%Z
  ∧ run (store_of [1; 2; 3]%Z) caller 2 (trace_of run_full) (final_of run_full)
  ∧ phase (final_of run_full) = Complete
  ∧ run (store_of [1; 2; 3]%Z) caller 2
        (trace_of run_lockstep) (final_of run_lockstep)
  ∧ phase (final_of run_lockstep) = Complete
  ∧ trace_of run_full ≠ trace_of run_lockstep
  ∧ output (final_of run_full) = output (final_of run_lockstep)
  ∧ success (final_of run_full) = success (final_of run_lockstep).
Proof.
  assert (Hcap : (1 ≤ 2)%Z) by lia.
  assert (Hr1 : run (store_of [1; 2; 3]%Z) caller 2
                  (trace_of run_full) (final_of run_full)).
  { apply (run_program_run _ _ _ sched_full). vm_compute. reflexivity. }
  assert (Hm1 : phase (final_of run_full) = Complete)
    by (vm_compute; reflexivity).
  assert (Hr2 : run (store_of [1; 2; 3]%Z) caller 2
                  (trace_of run_lockstep) (final_of run_lockstep)).
  { apply (run_program_run _ _ _ sched_lockstep). vm_compute. reflexivity. }
  assert (Hm2 : phase (final_of run_lockstep) = Complete)
    by (vm_compute; reflexivity).
  destruct (deterministic_result _ _ _ _ _ _ _ Hcap Hr1 Hm1 Hr2 Hm2)
    as [Ho Hs].
  split; [exact Hcap|]. split; [exact Hr1|]. split; [exact Hm1|].
  split; [exact Hr2|]. split; [exact Hm2|].
  split; [vm_compute; discriminate|]. split; assumption.
Defined.

(** C2 as stated fails: with capacity 0 the constructor returns a system,
    and [start] gets both threads going. *)
Lemma capacity_zero_is_accepted :
  (0 < 1)%Z
  ∧ __init__ (store_of [1; 2; 3]%Z) caller 0 ≠ None
  ∧ ∃ tr st, run (store_of [1; 2; 3]%Z) caller 0 tr st
      ∧ phase st = Running
      ∧ producer_thread st ≠ PIdle ∧ consumer_thread st ≠ CIdle
      ∧ queue (shared_queue st) = [1; 2; 3]%Z.
Proof.
  split; [lia|]. split; [vm_compute; discriminate|].
  exists (trace_of run_unbounded), (final_of run_unbounded).
  split.
  { apply (run_program_run _ _ _ sched_unbounded). vm_compute. reflexivity. }
  vm_compute. repeat split; discriminate.
Qed.

Lemma capacity_below_one_is_unbounded_witness :
  (0 < 1)%Z
  ∧ store_of [1; 2; 3]%Z !! caller = Some [1; 2; 3]%Z
  ∧ ∃ st0, __init__ (store_of [1; 2; 3]%Z) caller 0 = Some st0
      ∧ phase st0 = Idle ∧ producer_thread st0 = PIdle
      ∧ consumer_thread st0 = CIdle ∧ maxsize (shared_queue st0) = 0%Z.
Proof.
  assert (Hcap : (0 < 1)%Z) by lia.
  assert (Hd : store_of [1; 2; 3]%Z !! caller = Some [1; 2; 3]%Z)
    by (vm_compute; reflexivity).
  destruct (capacity_below_one_is_unbounded _ _ _ _ Hcap Hd)
    as (st0 & Hi & Hm & Hp & Hc & Hq & _).
  split; [exact Hcap|]. split; [exact Hd|].
  exists st0. repeat split; assumption.
Defined.

(** ** The tests of the repository and the run of [__main__] *)

Example test_basic_functionality :
  output (final_of (execute (store_of [1; 2; 3; 4; 5]%Z) caller 2 33))
  = [1; 2; 3; 4; 5]%Z.
Proof. vm_compute. reflexivity. Qed.

Example test_empty_source :
  output (final_of (execute (store_of []) caller 2 8)) = [].
Proof. vm_compute. reflexivity. Qed.

Example test_single_item :
  output (final_of (execute (store_of [42]%Z) caller 1 13)) = [42]%Z.
Proof. vm_compute. reflexivity. Qed.

Example main_sample :
  let st := final_of (execute (store_of [1; 2; 3; 4; 5; 6; 7; 8]%Z) caller 3 48) in
  phase st = Complete ∧ output st = [1; 2; 3; 4; 5; 6; 7; 8]%Z
  ∧ success st = true.
Proof. vm_compute. repeat split. Qed.

(** * More properties of runs *)

Section more_properties.

Context {Item : Type} `{EqDecision Item}.

Implicit Types (st s : ProducerConsumer Item) (q : Queue Item).
Implicit Types (tr : list (event Item)) (e : event Item).
Implicit Types (items : list Item) (h : gmap positive (list Item)).
Implicit Types (data : positive) (cap : Z) (t : thread).

(** Induction over the runs of one program, with the invariant at hand. *)
Lemma run_induction h data cap items
    (P : list (event Item) → ProducerConsumer Item → Prop) :
  h !! data = Some items →
  (∀ st0, __init__ h data cap = Some st0 → P [] st0) →
  (∀ tr st e st',
     run h data cap tr st → Inv items data cap tr st → P tr st →
     step data st e st' → Inv items data cap (tr ++ [e]) st' →
     P (tr ++ [e]) st') →
  ∀ tr st, run h data cap tr st → P tr st.
Proof.
  intros Hd Hinit Hstep tr st (st0 & Hi & Hs).
  induction Hs as [|st0 tr st e st' Hs IH Hst].
  - by apply Hinit.
  - assert (Hr : run h data cap tr st) by by exists st0.
    pose proof (Inv_run _ _ _ _ _ _ Hd Hr) as HI.
    apply (Hstep tr st e st'); [done|done|by apply IH|done|by eapply Inv_step].
Qed.

Lemma run_snoc h data cap tr st e st' :
  run h data cap tr st → step data st e st' → run h data cap (tr ++ [e]) st'.
Proof.
  intros (st0 & Hi & Hs) Hst. exists st0. split; [done|].
  by eapply steps_snoc.
Qed.

Lemma exec_raise t st st' :
  exec t st = Some (ERaise, st') → consumer_thread st' = CRaised.
Proof.
  intros Hex. apply exec_owner in Hex as Ho. simpl in Ho. simplify_eq.
  simpl in Hex. unfold consumer in Hex. by repeat case_match; simplify_eq.
Qed.

(** X1. The consumer never calls [task_done] once too often: in no run is the
    [ValueError] of [task_done] raised, and whenever the consumer stands
    before [task_done] the call returns. *)
Theorem task_done_never_raises h data cap tr st :
  run h data cap tr st →
  (ERaise ∉ tr) ∧ consumer_thread st ≠ CRaised
  ∧ (∀ k n, consumer_thread st = CTaskDone k n →
       ∃ q, task_done (shared_queue st) = Returns q).
Proof.
  intros Hr. split_and!.
  - intros (tr1 & tr2 & ->)%list_elem_of_split.
    apply run_split in Hr as (s1 & s1' & Hr1 & Hst).
    pose proof (run_snoc _ _ _ _ _ _ _ Hr1 Hst) as Hr'.
    apply Inv_run_ex in Hr' as (items & _ & HI).
    pose proof (inv_consumer _ _ _ _ _ HI) as Hc.
    apply (step_owner _ _ _ _ Consumer) in Hst; [|done].
    apply exec_raise in Hst. by rewrite Hst in Hc.
  - apply Inv_run_ex in Hr as (items & _ & HI).
    pose proof (inv_consumer _ _ _ _ _ HI) as Hc.
    intros Heq. by rewrite Heq in Hc.
  - intros k n Hc. apply Inv_run_ex in Hr as (items & _ & HI).
    pose proof (inv_unfinished _ _ _ _ _ HI) as Hu.
    rewrite Hc in Hu. simpl in Hu. unfold task_done.
    rewrite bool_decide_eq_false_2 by lia. eauto.
Qed.

(** X2. The destination is at every moment an initial part of the source, and
    a step of a run can only extend it, by the item the consumer appends. *)
Theorem destination_is_prefix h data cap items tr st :
  h !! data = Some items → run h data cap tr st →
  output st `prefix_of` items
  ∧ output st = take (length (output st)) items
  ∧ ∀ e st', step data st e st' →
      output st' = output st
      ∨ ∃ item, e = EAppend item ∧ output st' = output st ++ [item]
                ∧ items !! length (output st) = Some item.
Proof.
  intros Hd Hr. pose proof (Inv_run _ _ _ _ _ _ Hd Hr) as HI.
  pose proof (inv_flow _ _ _ _ _ HI) as Hflow.
  assert (Hpre : ∀ tr' st', Inv items data cap tr' st' →
                   output st' `prefix_of` items).
  { intros tr' st' HI'. eexists. apply (inv_flow _ _ _ _ _ HI'). }
  split_and!.
  - by eapply Hpre.
  - destruct (Hpre _ _ HI) as [rest Hrest].
    rewrite Hrest. by rewrite take_app_length.
  - intros e st' Hst.
    pose proof (Inv_step _ _ _ _ _ _ _ HI Hst) as HI'.
    pose proof (inv_appends _ _ _ _ _ HI) as Ha.
    pose proof (inv_appends _ _ _ _ _ HI') as Ha'.
    rewrite appends_snoc, Ha in Ha'.
    destruct e; simpl in Ha'; rewrite ?app_nil_r in Ha'; try by left.
    right. eexists. split_and!; [done|done|].
    destruct (Hpre _ _ HI') as [rest Hrest].
    rewrite Hrest, <- Ha', <- app_assoc. simpl.
    by rewrite list_lookup_middle.
Qed.

(** X3. Nothing is lost or made up on the way: the items put are the items
    taken followed by the items in the queue; the items appended are the items
    taken, but for the one the consumer may hold; and [unfinished_tasks]
    counts the puts that no [task_done] has answered yet. *)
Theorem conservation h data cap tr st :
  run h data cap tr st →
  puts tr = takes tr ++ queue (shared_queue st)
  ∧ appends tr = output st
  ∧ takes tr = appends tr ++ in_hand_c (consumer_thread st)
  ∧ length (takes tr) ≤ S (length (appends tr))
  ∧ acks tr ≤ length (appends tr) ≤ S (acks tr)
  ∧ unfinished_tasks (shared_queue st)
    = (Z.of_nat (length (puts tr)) - Z.of_nat (acks tr))%Z.
Proof.
  intros Hr. apply Inv_run_ex in Hr as (items & _ & HI).
  pose proof (inv_puts _ _ _ _ _ HI) as Hp.
  pose proof (inv_takes _ _ _ _ _ HI) as Ht.
  pose proof (inv_appends _ _ _ _ _ HI) as Ha.
  pose proof (inv_acks _ _ _ _ _ HI) as Hk.
  pose proof (inv_unfinished _ _ _ _ _ HI) as Hu.
  rewrite Hp, Ht, Ha, Hu, !length_app.
  split_and!; try done.
  - by rewrite app_assoc.
  - destruct (consumer_thread st); simpl; lia.
  - destruct (consumer_thread st); simpl in *; lia.
  - destruct (consumer_thread st); simpl in *; lia.
  - destruct (consumer_thread st); simpl in *; lia.
Qed.

(** X4. The last call of [start], [shared_queue.join()], never waits: once
    the consumer has returned the queue is empty and no task is unfinished,
    so in [Draining] the coordinator can always move on to [Complete]. *)
Theorem final_join_never_waits h data cap tr st :
  run h data cap tr st →
  (consumer_thread st = CDone →
     queue (shared_queue st) = [] ∧ unfinished_tasks (shared_queue st) = 0%Z
     ∧ join (shared_queue st) = Returns tt)
  ∧ (phase st = Draining →
     start st = Some (EComplete, set_phase st Complete)).
Proof.
  intros Hr. apply Inv_run_ex in Hr as (items & _ & HI).
  assert (Hdone : consumer_thread st = CDone →
     queue (shared_queue st) = [] ∧ unfinished_tasks (shared_queue st) = 0%Z
     ∧ join (shared_queue st) = Returns tt).
  { intros Hc.
    destruct (Inv_consumer_done _ _ _ _ _ HI Hc)
      as (_ & Hq & _ & _ & _ & _ & _ & _ & Hu).
    unfold join. by rewrite Hu. }
  split; [done|]. intros Hm.
  pose proof (inv_phase _ _ _ _ _ HI) as Hph. rewrite Hm in Hph.
  destruct Hph as [_ Hc]. destruct (Hdone Hc) as (_ & _ & Hj).
  unfold start. by rewrite Hm, Hj.
Qed.

Lemma channel_events_snoc tr e :
  channel_events (tr ++ [e])
  = channel_events tr ++ match e with EPut _ | ETake _ => [e] | _ => [] end.
Proof. unfold channel_events. rewrite omap_snoc. by destruct e. Qed.

Lemma handoff_script_app (l1 l2 : list Item) :
  handoff_script (l1 ++ l2) = handoff_script l1 ++ handoff_script l2.
Proof. induction l1 as [|x l1 IH]; simpl; [done|by rewrite IH]. Qed.

Lemma Inv_queue items data cap tr st :
  Inv items data cap tr st → puts tr = takes tr ++ queue (shared_queue st).
Proof.
  intros HI. rewrite (inv_puts _ _ _ _ _ HI), (inv_takes _ _ _ _ _ HI).
  by rewrite app_assoc.
Qed.

(** X5. With capacity 1 producer and consumer move in lockstep: the puts and
    takes of every run alternate, each item being taken before the next one
    is put, and the producer is never more than one put ahead. *)
Theorem capacity_one_alternates h data items tr st :
  h !! data = Some items → run h data 1 tr st →
  channel_events tr
  = handoff_script (takes tr) ++ (EPut <$> queue (shared_queue st))
  ∧ channel_events tr `prefix_of` handoff_script items
  ∧ length (puts tr) ≤ S (length (takes tr)).
Proof.
  intros Hd Hr.
  assert (Hce : channel_events tr
    = handoff_script (takes tr) ++ (EPut <$> queue (shared_queue st))).
  { revert tr st Hr. apply (run_induction h data 1 items); [done|..].
    - intros st0 (_ & _ & _ & _ & _ & _ & -> & _)%init_spec. done.
    - intros tr st e st' _ HI IH Hst HI'.
      pose proof (Inv_queue _ _ _ _ _ HI) as Hq.
      pose proof (Inv_queue _ _ _ _ _ HI') as Hq'.
      pose proof (inv_bound _ _ _ _ _ HI') as Hb. unfold qsize in Hb.
      rewrite puts_snoc, takes_snoc, Hq, <- !app_assoc in Hq'.
      apply app_inv_head in Hq'.
      rewrite channel_events_snoc, takes_snoc, IH.
      destruct e; simpl in *; rewrite ?app_nil_r in *;
        try (by rewrite Hq').
      + by rewrite <- Hq', fmap_app, app_assoc.
      + pose proof (inv_bound _ _ _ _ _ HI) as Hb0. unfold qsize in Hb0.
        rewrite Hq' in *. simpl in Hb0.
        destruct (queue (shared_queue st')); simpl in *; [|lia].
        by rewrite handoff_script_app, app_nil_r, <- app_assoc. }
  pose proof (Inv_run _ _ _ _ _ _ Hd Hr) as HI.
  pose proof (Inv_queue _ _ _ _ _ HI) as Hq.
  pose proof (inv_bound _ _ _ _ _ HI) as Hb. unfold qsize in Hb.
  split_and!; [done| |rewrite Hq, length_app; lia].
  rewrite Hce.
  pose proof (inv_flow _ _ _ _ _ HI) as Hflow.
  pose proof (inv_takes _ _ _ _ _ HI) as Ht.
  rewrite app_assoc, <- Ht in Hflow.
  destruct (queue (shared_queue st)) as [|x [|y q]] eqn:Hqq;
    simpl in Hb; [| |lia].
  - simpl. rewrite app_nil_r. rewrite Hflow at 1.
    rewrite handoff_script_app. by apply prefix_app_r.
  - simpl in Hflow. rewrite Hflow at 1.
    rewrite handoff_script_app. apply prefix_app. simpl.
    apply prefix_cons, prefix_nil.
Qed.

Lemma coordinator_events_snoc tr e :
  coordinator_events (tr ++ [e])
  = coordinator_events tr
    ++ match owner e with Some Coordinator => [e] | _ => [] end.
Proof.
  unfold coordinator_events. rewrite omap_snoc.
  by destruct (owner e) as [[]|].
Qed.

Lemma start_phase st e st' :
  start st = Some (e, st') →
  coordinator_script !! phase_index (phase st) = Some e
  ∧ phase_index (phase st') = S (phase_index (phase st)).
Proof.
  unfold start. intros Hex.
  destruct (phase st); repeat case_match; by simplify_eq.
Qed.

Lemma exec_phase t st e st' :
  exec t st = Some (e, st') → t ≠ Coordinator → phase st' = phase st.
Proof.
  destruct t; simpl; [done|..]; unfold producer, consumer; intros Hex _;
    repeat case_match; by simplify_eq.
Qed.

Lemma producer_moves st e st' :
  producer st = Some (e, st') →
  producer_thread st ≠ PIdle ∧ producer_thread st ≠ PDone.
Proof. unfold producer. intros Hex. by repeat case_match. Qed.

Lemma consumer_moves st e st' :
  consumer st = Some (e, st') →
  consumer_thread st ≠ CIdle ∧ consumer_thread st ≠ CDone.
Proof. unfold consumer. intros Hex. by repeat case_match. Qed.

(** X6. Start and join: the coordinator's actions in a run are always an
    initial part of start producer, start consumer, join producer, join
    consumer, complete; and a thread acts only after it has been started and
    before it has been joined. *)
Theorem threads_act_between_start_and_join h data cap tr st :
  run h data cap tr st →
  coordinator_events tr = take (phase_index (phase st)) coordinator_script
  ∧ ∀ tr1 e tr2, tr = tr1 ++ e :: tr2 →
      (owner e = Some Producer →
         EStartProducer ∈ tr1 ∧ EJoinProducer ∉ tr1)
      ∧ (owner e = Some Consumer →
         EStartConsumer ∈ tr1 ∧ EJoinConsumer ∉ tr1).
Proof.
  assert (Hco : ∀ tr st, run h data cap tr st →
    coordinator_events tr = take (phase_index (phase st)) coordinator_script).
  { intros tr' st' Hr. pose proof Hr as (items & Hd & _)%Inv_run_ex.
    revert tr' st' Hr. apply (run_induction h data cap items); [done|..].
    - by intros st0 (_ & _ & _ & _ & _ & _ & _ & _ & _ & ->)%init_spec.
    - intros tr' st' e st'' _ _ IH Hst _.
      rewrite coordinator_events_snoc, IH.
      destruct Hst as [t ? ? ? Hex|]; [|by rewrite app_nil_r].
      rewrite (exec_owner _ _ _ _ Hex). destruct t.
      + apply start_phase in Hex as [He ->].
        by rewrite (take_S_r _ _ _ He).
      + rewrite (exec_phase _ _ _ _ Hex) by done. by rewrite app_nil_r.
      + rewrite (exec_phase _ _ _ _ Hex) by done. by rewrite app_nil_r. }
  assert (Hin : ∀ tr e, owner e = Some Coordinator →
    e ∈ tr ↔ e ∈ coordinator_events tr).
  { intros tr' e Ho. unfold coordinator_events.
    rewrite list_elem_of_omap. split.
    - intros Hin. exists e. by rewrite Ho.
    - intros (e' & Hin & He'). by repeat case_match; simplify_eq. }
  intros Hr. split; [by apply Hco|].
  intros tr1 e tr2 ->.
  apply run_split in Hr as (s1 & s1' & Hr1 & Hst).
  pose proof Hr1 as (items & _ & HI)%Inv_run_ex.
  pose proof (inv_phase _ _ _ _ _ HI) as Hph.
  pose proof (Hco _ _ Hr1) as Hc1.
  split; intros Ho.
  - apply (step_owner _ _ _ _ _ Hst) in Ho. simpl in Ho.
    apply producer_moves in Ho as [Hp1 Hp2].
    rewrite (Hin tr1 EStartProducer), (Hin tr1 EJoinProducer), Hc1 by done.
    destruct (phase s1); simpl in *; destruct_and?; try done;
      rewrite ?elem_of_cons, ?not_elem_of_cons, ?elem_of_nil;
      intuition congruence.
  - apply (step_owner _ _ _ _ _ Hst) in Ho. simpl in Ho.
    apply consumer_moves in Ho as [Hp1 Hp2].
    rewrite (Hin tr1 EStartConsumer), (Hin tr1 EJoinConsumer), Hc1 by done.
    destruct (phase s1); simpl in *; destruct_and?; try done;
      rewrite ?elem_of_cons, ?not_elem_of_cons, ?elem_of_nil;
      intuition congruence.
Qed.

Lemma caller_list_snoc items tr e :
  caller_list items (tr ++ [e])
  = match e with EMutate new => new | _ => caller_list items tr end.
Proof. unfold caller_list. by rewrite foldl_snoc. Qed.

Lemma exec_heap t st e st' l :
  exec t st = Some (e, st') → l ≠ destination st →
  heap st' !! l = heap st !! l.
Proof.
  intros Hex Hl. destruct t; simpl in Hex;
    unfold start, producer, consumer in Hex;
    repeat case_match; simplify_eq; simpl; try done.
  by rewrite lookup_insert_ne.
Qed.

(** X7. The program writes to the destination only: every list that existed
    before construction, other than the caller's list, is unchanged in every
    state of every run, and the caller's list holds what the caller wrote to
    it last (its original elements if the caller wrote nothing). *)
Theorem only_destination_is_written h data cap items tr st :
  h !! data = Some items → run h data cap tr st →
  heap st !! data = Some (caller_list items tr)
  ∧ ∀ l v, h !! l = Some v → l ≠ data → heap st !! l = Some v.
Proof.
  intros Hd Hr.
  assert (Hall : ∀ l v, h !! l = Some v →
    heap st !! l = Some (if decide (l = data) then caller_list items tr else v)).
  { revert tr st Hr. apply (run_induction h data cap items
      (λ tr st, ∀ l v, h !! l = Some v →
         heap st !! l
         = Some (if decide (l = data) then caller_list items tr else v)));
      [done|..].
    - intros st0 (items' & _ & Hs & Hdst & _ & -> & _)%init_spec l v Hl.
      rewrite !lookup_insert_ne by congruence.
      case_decide; simplify_eq; done.
    - intros tr st e st' (st0 & Hi & Hs) HI IH Hst _ l v Hl.
      rewrite caller_list_snoc.
      destruct Hst as [t ? ? ? Hex|st ys].
      + rewrite (exec_heap _ _ _ _ l Hex).
        * rewrite (IH l v Hl). apply exec_owner in Hex. by destruct e.
        * apply steps_fields in Hs as [_ ->].
          apply init_spec in Hi as (_ & _ & _ & Hdst & _). congruence.
      + simpl. case_decide as Hld.
        * subst l. by rewrite lookup_insert_eq.
        * rewrite lookup_insert_ne by done. rewrite (IH l v Hl).
          by rewrite decide_False. }
  split.
  - rewrite (Hall data items Hd). by rewrite decide_True.
  - intros l v Hl Hne. rewrite (Hall l v Hl). by rewrite decide_False.
Qed.

End more_properties.

(** * The further properties at concrete runs *)

Lemma task_done_never_raises_witness :
  run (store_of [1; 2; 3]%Z) caller 2 (trace_of run_full) (final_of run_full)
  ∧ (ERaise ∉ trace_of run_full)
  ∧ consumer_thread (final_of run_full) ≠ CRaised.
Proof.
  assert (Hr : run (store_of [1; 2; 3]%Z) caller 2
                 (trace_of run_full) (final_of run_full)).
  { apply (run_program_run _ _ _ sched_full). vm_compute. reflexivity. }
  destruct (task_done_never_raises _ _ _ _ _ Hr) as (Hn & Hc & _).
  repeat split; assumption.
Defined.

Lemma destination_is_prefix_witness :
  store_of [1; 2; 3]%Z !! caller = Some [1; 2; 3]%Z
  ∧ run (store_of [1; 2; 3]%Z) caller 2
        (trace_of run_midway) (final_of run_midway)
  ∧ output (final_of run_midway) = [1]%Z
  ∧ output (final_of run_midway) `prefix_of` [1; 2; 3]%Z.
Proof.
  assert (Hd : store_of [1; 2; 3]%Z !! caller = Some [1; 2; 3]%Z)
    by (vm_compute; reflexivity).
  assert (Hr : run (store_of [1; 2; 3]%Z) caller 2
                 (trace_of run_midway) (final_of run_midway)).
  { apply (run_program_run _ _ _ (take 10 sched_lockstep)).
    vm_compute. reflexivity. }
  destruct (destination_is_prefix _ _ _ _ _ _ Hd Hr) as (Hp & _).
  split; [exact Hd|]. split; [exact Hr|].
  split; [vm_compute; reflexivity|exact Hp].
Defined.

Lemma conservation_witness :
  run (store_of [1; 2; 3]%Z) caller 2
      (trace_of run_midway) (final_of run_midway)
  ∧ queue (shared_queue (final_of run_midway)) = [2]%Z
  ∧ puts (trace_of run_midway)
    = takes (trace_of run_midway) ++ queue (shared_queue (final_of run_midway))
  ∧ unfinished_tasks (shared_queue (final_of run_midway))
    = (Z.of_nat (length (puts (trace_of run_midway)))
       - Z.of_nat (acks (trace_of run_midway)))%Z.
Proof.
  assert (Hr : run (store_of [1; 2; 3]%Z) caller 2
                 (trace_of run_midway) (final_of run_midway)).
  { apply (run_program_run _ _ _ (take 10 sched_lockstep)).
    vm_compute. reflexivity. }
  destruct (conservation _ _ _ _ _ Hr) as (Hp & _ & _ & _ & _ & Hu).
  split; [exact Hr|]. split; [vm_compute; reflexivity|].
  split; assumption.
Defined.

Lemma final_join_never_waits_witness :
  run (store_of [1; 2; 3]%Z) caller 2
      (trace_of run_draining) (final_of run_draining)
  ∧ phase (final_of run_draining) = Draining
  ∧ start (final_of run_draining)
    = Some (EComplete, set_phase (final_of run_draining) Complete).
Proof.
  assert (Hr : run (store_of [1; 2; 3]%Z) caller 2
                 (trace_of run_draining) (final_of run_draining)).
  { apply (run_program_run _ _ _ (take 22 sched_full)).
    vm_compute. reflexivity. }
  assert (Hm : phase (final_of run_draining) = Draining)
    by (vm_compute; reflexivity).
  destruct (final_join_never_waits _ _ _ _ _ Hr) as [_ Hj].
  split; [exact Hr|]. split; [exact Hm|]. exact (Hj Hm).
Defined.

Lemma capacity_one_alternates_witness :
  store_of [1; 2; 3]%Z !! caller = Some [1; 2; 3]%Z
  ∧ run (store_of [1; 2; 3]%Z) caller 1 (trace_of run_one) (final_of run_one)
  ∧ phase (final_of run_one) = Complete
  ∧ channel_events (trace_of run_one) `prefix_of` handoff_script [1; 2; 3]%Z
  ∧ length (puts (trace_of run_one)) ≤ S (length (takes (trace_of run_one))).
Proof.
  assert (Hd : store_of [1; 2; 3]%Z !! caller = Some [1; 2; 3]%Z)
    by (vm_compute; reflexivity).
  assert (Hr : run (store_of [1; 2; 3]%Z) caller 1
                 (trace_of run_one) (final_of run_one)).
  { apply (run_program_run _ _ _ sched_lockstep). vm_compute. reflexivity. }
  destruct (capacity_one_alternates _ _ _ _ _ Hd Hr) as (_ & Hp & Hl).
  split; [exact Hd|]. split; [exact Hr|].
  split; [vm_compute; reflexivity|]. split; assumption.
Defined.

Lemma threads_act_between_start_and_join_witness :
  run (store_of [1; 2; 3]%Z) caller 2 (trace_of run_full) (final_of run_full)
  ∧ coordinator_events (trace_of run_full) = coordinator_script.
Proof.
  assert (Hr : run (store_of [1; 2; 3]%Z) caller 2
                 (trace_of run_full) (final_of run_full)).
  { apply (run_program_run _ _ _ sched_full). vm_compute. reflexivity. }
  destruct (threads_act_between_start_and_join _ _ _ _ _ Hr) as [Hc _].
  split; [exact Hr|]. rewrite Hc. vm_compute. reflexivity.
Defined.

Lemma only_destination_is_written_witness :
  store_of [1; 2; 3]%Z !! caller = Some [1; 2; 3]%Z
  ∧ run (store_of [1; 2; 3]%Z) caller 2
        (trace_of run_mutated) (final_of run_mutated)
  ∧ caller_list [1; 2; 3]%Z (trace_of run_mutated) = [4; 5; 6; 7]%Z
  ∧ heap (final_of run_mutated) !! caller
    = Some (caller_list [1; 2; 3]%Z (trace_of run_mutated)).
Proof.
  assert (Hd : store_of [1; 2; 3]%Z !! caller = Some [1; 2; 3]%Z)
    by (vm_compute; reflexivity).
  assert (Hr : run (store_of [1; 2; 3]%Z) caller 2
                 (trace_of run_mutated) (final_of run_mutated)).
  { apply (run_program_run _ _ _ sched_mutated). vm_compute. reflexivity. }
  destruct (only_destination_is_written _ _ _ _ _ _ Hd Hr) as [Hc _].
  split; [exact Hd|]. split; [exact Hr|].
  split; [vm_compute; reflexivity|exact Hc].
Defined.

(** * Properties of runs with logging *)

Section logging_properties.

Context {Item : Type} `{EqDecision Item}.
Context (str repr : Item → string).

Implicit Types (st : ProducerConsumer Item) (s : Logged Item).
Implicit Types (tr : list (event Item)) (e : event Item).
Implicit Types (ltr : list (action Item)) (a : action Item).
Implicit Types (m : message Item) (c : writer_call Item) (lg : logger Item).
Implicit Types (items : list Item) (h : gmap positive (list Item)).
Implicit Types (data : positive) (cap : Z) (t : thread) (old : string).

Lemma is_idle_true lg : is_idle lg = true ↔ lg = idle.
Proof.
  destruct lg as [[|c rest] [m|]]; unfold is_idle, idle; simpl;
    split; intros; by simplify_eq.
Qed.

Lemma logger_eta lg : mkLogger (pending lg) (ready lg) = lg.
Proof. by destruct lg. Qed.

Lemma lexec_kind data t s a s' :
  lexec str repr t s = Some (a, s') → lstep_kind str repr data s a s'.
Proof.
  assert (Hlog : ∀ t', (t' = Coordinator → opened s = true) →
    log_step str repr t' s = Some (a, s') → lstep_kind str repr data s a s').
  { intros t' Ht. unfold log_step.
    destruct (ready (logger_of t' s)) as [m|] eqn:Hr.
    - intros [= <- <-]. eapply k_write; [done|].
      by rewrite <- Hr, logger_eta.
    - destruct (pending (logger_of t' s)) as [|c rest] eqn:Hp; [done|].
      intros [= <- <-]. apply k_format; [done|].
      by rewrite <- Hr, <- Hp, logger_eta. }
  assert (Hidle : ∀ t', log_step str repr t' s = None → logger_of t' s = idle).
  { intros t'. unfold log_step. destruct (logger_of t' s) as [[|c rest] [m|]];
      by simpl. }
  destruct t; simpl.
  - unfold start_logged. destruct (opened s) eqn:Ho.
    + destruct (log_step str repr Coordinator s) as [r|] eqn:Hl.
      * intros [= ->]. by apply (Hlog Coordinator).
      * destruct (joinable s) eqn:Hj; [|done].
        destruct (start (system s)) as [[e st']|] eqn:Hs; [|done].
        intros [= <- <-]. apply k_start; try done.
        by apply (Hidle Coordinator).
    + intros [= <- <-]. by apply k_truncate.
  - unfold producer_logged.
    destruct (log_step str repr Producer s) as [r|] eqn:Hl.
    + intros [= ->]. by apply (Hlog Producer).
    + destruct (producer (system s)) as [[e st']|] eqn:Hs; [|done].
      intros [= <- <-]. apply k_producer; [|done]. by apply (Hidle Producer).
  - unfold consumer_logged.
    destruct (log_step str repr Consumer s) as [r|] eqn:Hl.
    + intros [= ->]. by apply (Hlog Consumer).
    + destruct (consumer (system s)) as [[e st']|] eqn:Hs; [|done].
      intros [= <- <-]. apply k_consumer; [|done|done].
      by apply (Hidle Consumer).
Qed.

Lemma lstep_kinds data s a s' :
  lstep str repr data s a s' → lstep_kind str repr data s a s'.
Proof.
  intros [t ? ? ? Hex|]; [by eapply lexec_kind|apply k_mutate].
Qed.

Lemma base_events_snoc ltr a :
  base_events (ltr ++ [a])
  = base_events ltr ++ match a with ADo e => [e] | _ => [] end.
Proof. unfold base_events. rewrite omap_snoc. by destruct a. Qed.

Lemma writes_snoc ltr a :
  writes (ltr ++ [a])
  = writes ltr ++ match a with AWrite m => [m] | _ => [] end.
Proof. unfold writes. rewrite omap_snoc. by destruct a. Qed.

Lemma system_set_logger t lg s : system (set_logger t lg s) = system s.
Proof. by destruct t. Qed.

Lemma system_after_start e s : system (after_start e s) = system s.
Proof. destruct e; simpl; try done; by rewrite system_set_logger. Qed.

(** A step with logging is a step of the model without, or leaves its state
    alone. *)
Lemma lstep_base data s a s' :
  lstep str repr data s a s' →
  match a with
  | ADo e => step data (system s) e (system s')
  | _ => system s' = system s
  end.
Proof.
  intros Hk%lstep_kinds.
  destruct Hk as [?|t c rest ? ?|t m rest ? ?|e st' ? ? ? Hex|e st' ? Hex
                  |e st' x ? Hex ?|items]; simpl;
    rewrite ?system_set_logger, ?system_after_start; simpl; try done.
  - by apply (step_thread data Coordinator).
  - by apply (step_thread data Producer).
  - by apply (step_thread data Consumer).
  - apply step_mutate.
Qed.

Lemma lsteps_base data s ltr s' :
  lsteps str repr data s ltr s' →
  steps data (system s) (base_events ltr) (system s').
Proof.
  induction 1 as [|s ltr s' a s'' _ IH Hst]; [constructor|].
  rewrite base_events_snoc. apply lstep_base in Hst.
  destruct a; try (rewrite app_nil_r, Hst; exact IH).
  by eapply steps_snoc.
Qed.

(** X8. Logging does not change what the program does: leave the evaluations
    and writes of [log] out of a run with logging and a run of the model
    without logging remains, ending in the same state of the object; so all
    that holds of those runs holds of the program with its logging. *)
Theorem logging_refines h data cap old ltr s :
  logged_run str repr h data cap old ltr s →
  run h data cap (base_events ltr) (system s).
Proof.
  intros (st0 & Hi & Hs). exists st0. split; [done|].
  by apply lsteps_base in Hs.
Qed.

(** ** The invariant holds *)

Lemma string_app_assoc (s1 s2 s3 : string) :
  (s1 +:+ s2) +:+ s3 = s1 +:+ s2 +:+ s3.
Proof.
  induction s1 as [|ch s1 IH]; [done|].
  change (String ch ((s1 +:+ s2) +:+ s3) = String ch (s1 +:+ s2 +:+ s3)).
  by f_equal.
Qed.

Lemma string_app_nil_r (s1 : string) : s1 +:+ "" = s1.
Proof.
  induction s1 as [|ch s1 IH]; [done|].
  change (String ch (s1 +:+ "") = String ch s1). by f_equal.
Qed.

Lemma text_snoc (ms : list (message Item)) m :
  text str repr (ms ++ [m]) = log (text str repr ms) (render str repr m).
Proof. unfold text. by rewrite foldl_snoc. Qed.

Lemma lines_of_app t (ms1 ms2 : list (message Item)) :
  lines_of t (ms1 ++ ms2) = lines_of t ms1 ++ lines_of t ms2.
Proof. unfold lines_of. by rewrite omap_app. Qed.

Lemma lines_of_one t m :
  lines_of t [m] = if thread_eqb (writer m) t then [m] else [].
Proof. unfold lines_of. simpl. by destruct (thread_eqb (writer m) t). Qed.

Lemma thread_eqb_eq t1 t2 : thread_eqb t1 t2 = true ↔ t1 = t2.
Proof. destruct t1, t2; simpl; split; intros; by simplify_eq. Qed.

Lemma lines_of_own t (ms : list (message Item)) :
  Forall (λ m, writer m = t) ms → lines_of t ms = ms.
Proof.
  induction 1 as [|m ms Hm _ IH]; [done|].
  change (m :: ms) with ([m] ++ ms).
  rewrite lines_of_app, lines_of_one, IH.
  by rewrite (proj2 (thread_eqb_eq _ _) Hm).
Qed.

Lemma lines_of_other t t' (ms : list (message Item)) :
  t ≠ t' → Forall (λ m, writer m = t) ms → lines_of t' ms = [].
Proof.
  intros Hne. induction 1 as [|m ms Hm _ IH]; [done|].
  change (m :: ms) with ([m] ++ ms).
  rewrite lines_of_app, lines_of_one, IH.
  destruct (thread_eqb (writer m) t') eqn:Heq; [|done].
  apply thread_eqb_eq in Heq. congruence.
Qed.

Lemma writer_format st st' c : writer (format st c) = writer (format st' c).
Proof. by destruct c. Qed.

Lemma thread_actions_snoc ltr a :
  thread_actions (ltr ++ [a])
  = thread_actions ltr + match a with ADo (EMutate _) => 0 | _ => 1 end.
Proof.
  unfold thread_actions. rewrite omap_snoc, length_app.
  by destruct a as [[]| | |].
Qed.

Lemma consumer_rounds_app k (l1 l2 : list Item) :
  consumer_rounds k (l1 ++ l2)
  = consumer_rounds k l1 ++ consumer_rounds (k + length l1) l2.
Proof.
  revert k. induction l1 as [|x l1 IH]; intros k; simpl.
  - by rewrite Nat.add_0_r.
  - rewrite IH. by replace (S k + length l1) with (k + S (length l1)) by lia.
Qed.

Lemma producer_rounds_app (l1 l2 : list Item) :
  producer_rounds (l1 ++ l2) = producer_rounds l1 ++ producer_rounds l2.
Proof. induction l1 as [|x l1 IH]; simpl; [done|by rewrite IH]. Qed.

Lemma LInv_init h data cap old items st0 :
  h !! data = Some items → __init__ h data cap = Some st0 →
  LInv str repr items data cap old [] (logged_init st0 old).
Proof.
  intros Hd Hi. pose proof (Inv_init _ _ _ _ _ Hd Hi) as HI.
  apply init_spec in Hi as (_ & _ & _ & _ & _ & _ & _ & Hp & Hc & Hm).
  constructor; simpl; try done.
  - by intros [].
  - by rewrite Hc.
  - by rewrite Hp.
  - exists [], [], []. by rewrite Hm.
  - unfold potential, measure, logger_cost. simpl. rewrite Hp, Hc, Hm. simpl.
    case_bool_decide; lia.
Qed.

Lemma call_of_format st c : call_of (format st c) = c.
Proof. by destruct c. Qed.

Lemma logger_of_set_eq t lg s : logger_of t (set_logger t lg s) = lg.
Proof. by destruct t. Qed.

Lemma logger_of_set_ne t t' lg s :
  t ≠ t' → logger_of t' (set_logger t lg s) = logger_of t' s.
Proof. by destruct t, t'. Qed.

(** While a thread has a call of [log] under way it is started and not yet
    joined, and the coordinator logs only before it starts the threads and
    after it has joined them. *)
Lemma LInv_busy items data cap old ltr s t :
  LInv str repr items data cap old ltr s →
  logger_of t s ≠ idle →
  match t with
  | Coordinator =>
      opened s = true
      ∧ (phase (system s) = Idle ∨ phase (system s) = Complete)
  | Producer =>
      opened s = true ∧ producer_thread (system s) ≠ PIdle
      ∧ joined_p (phase (system s)) = false
      ∧ phase (system s) ≠ Idle ∧ phase (system s) ≠ Complete
  | Consumer =>
      opened s = true ∧ consumer_thread (system s) ≠ CIdle
      ∧ joined_c (phase (system s)) = false
      ∧ phase (system s) ≠ Idle ∧ phase (system s) ≠ Complete
  end.
Proof.
  intros HI Hbusy.
  pose proof (li_file _ _ _ _ _ _ _ _ HI) as Hfile.
  pose proof (inv_phase _ _ _ _ _ (li_base _ _ _ _ _ _ _ _ HI)) as Hph.
  destruct t; simpl in Hbusy.
  - split.
    + destruct (opened s); [done|]. by destruct Hfile as (_ & _ & _ & ?).
    + pose proof (li_busy _ _ _ _ _ _ _ _ HI) as Hb.
      destruct (phase (system s)); auto; by destruct Hbusy; apply Hb.
  - pose proof (li_idle_p _ _ _ _ _ _ _ _ HI) as Hi.
    pose proof (li_joined_p _ _ _ _ _ _ _ _ HI) as Hj.
    assert (producer_thread (system s) ≠ PIdle) as Hp by (intros ?; auto).
    assert (joined_p (phase (system s)) = false) as Hjp
      by (destruct (joined_p _); [by destruct Hbusy; apply Hj|done]).
    split_and!; try done.
    + destruct (opened s); [done|]. destruct Hfile as (_ & _ & Hm & _).
      rewrite Hm in Hph. by destruct Hph.
    + intros Hm. rewrite Hm in Hph. by destruct Hph.
    + intros Hm. by rewrite Hm in Hjp.
  - pose proof (li_idle_c _ _ _ _ _ _ _ _ HI) as Hi.
    pose proof (li_joined_c _ _ _ _ _ _ _ _ HI) as Hj.
    assert (consumer_thread (system s) ≠ CIdle) as Hp by (intros ?; auto).
    assert (joined_c (phase (system s)) = false) as Hjp
      by (destruct (joined_c _); [by destruct Hbusy; apply Hj|done]).
    split_and!; try done.
    + destruct (opened s); [done|]. destruct Hfile as (_ & _ & Hm & _).
      rewrite Hm in Hph. by destruct Hph.
    + intros Hm. rewrite Hm in Hph. by destruct Hph.
    + intros Hm. by rewrite Hm in Hjp.
Qed.

Ltac lfields :=
  cbn [system file opened item_var coordinator_log producer_log consumer_log
       logger_of set_logger set_system set_file set_item_var pending ready
       after_start option_list fmap list_fmap app] in *.

Ltac lnorm :=
  unfold logged_by, idle in *; lfields;
  rewrite ?base_events_snoc, ?writes_snoc, ?thread_actions_snoc,
    ?lines_of_app, ?app_nil_r; lfields.

Lemma LInv_truncate items data cap old ltr s :
  LInv str repr items data cap old ltr s → opened s = false →
  LInv str repr items data cap old (ltr ++ [ATruncate])
    (mkLogged (system s) header true (item_var s)
              (mkLogger [LSource; LCapacity] None)
              (producer_log s) (consumer_log s)).
Proof.
  intros [Hbase Hfile Hip Hic Hjp Hjc Hbusy Hown Hcoord Hcons Hprod Hsize
            Hshape Hpot] Ho.
  rewrite Ho in Hfile. destruct Hfile as (Hf & Hw & Hm & Hcl).
  destruct s as [st f o iv cl pl kl]. lfields. subst o cl.
  constructor; lnorm; try done.
  - by rewrite Hw, string_app_nil_r.
  - intros []; lfields; [|apply (Hown Producer)|apply (Hown Consumer)].
    split; repeat constructor.
  - intros _. unfold coordinator_log_ok. rewrite Hw, Hm. simpl.
    by rewrite (Inv_input _ _ _ _ _ Hbase), (inv_maxsize _ _ _ _ _ Hbase).
  - unfold potential, logger_cost, idle in *. lfields. simpl length in *. lia.
Qed.

Lemma Inv_size_ok items data cap tr st c :
  Inv items data cap tr st → size_ok cap (format st c).
Proof.
  intros HI. destruct c; simpl; try done.
  pose proof (inv_bound _ _ _ _ _ HI). unfold qsize in *. lia.
Qed.

Ltac lcontra :=
  try (intros; exfalso; destruct_or?; congruence).

Ltac lpotential :=
  unfold potential, logger_cost, idle in *; lfields; simpl length in *; lia.

Lemma LInv_format items data cap old ltr s t c rest :
  LInv str repr items data cap old ltr s →
  logger_of t s = mkLogger (c :: rest) None →
  LInv str repr items data cap old
    (ltr ++ [AFormat (format (system s) c)])
    (set_logger t (mkLogger rest (Some (format (system s) c))) s).
Proof.
  intros HI Hlg.
  assert (Hne : logger_of t s ≠ idle) by by rewrite Hlg.
  pose proof (LInv_busy _ _ _ _ _ _ _ HI Hne) as Hb.
  destruct HI as [Hbase Hfile Hip Hic Hjp Hjc Hbusy Hown Hcoord Hcons Hprod
                    Hsize Hshape Hpot].
  pose proof (Hown t) as [_ Hownt]. rewrite Hlg in Hownt. lfields.
  apply Forall_cons in Hownt as [Hc Hrest].
  destruct s as [st f o iv cl pl kl].
  destruct t; lfields; destruct_and?; subst.
  - constructor; lnorm; try done; lcontra.
    + intros []; lfields;
        [|apply (Hown Producer)|apply (Hown Consumer)].
      split; [by constructor|done].
    + lpotential.
  - constructor; lnorm; try done; lcontra.
    + intros []; lfields;
        [apply (Hown Coordinator)| |apply (Hown Consumer)].
      split; [by constructor|done].
    + rewrite app_nil_r in Hprod.
      by rewrite fmap_app, <- app_assoc, list_fmap_singleton, call_of_format.
    + split; [done|]. constructor; [by eapply Inv_size_ok|done].
    + lpotential.
  - constructor; lnorm; try done; lcontra.
    + intros []; lfields;
        [apply (Hown Coordinator)|apply (Hown Producer)|].
      split; [by constructor|done].
    + lpotential.
Qed.

Lemma size_ok_other cap m : writer m ≠ Producer → size_ok cap m.
Proof. by destruct m. Qed.

Lemma shape_ok_coordinator items cap ph (ws : list (message Item)) m :
  shape_ok items cap ph ws → writer m = Coordinator →
  ph = Idle ∨ ph = Complete → shape_ok items cap ph (ws ++ [m]).
Proof.
  intros (pre & mid & post & -> & Hpre & Hmid & Hpost & Hi & Hni & Hnc) Hm Hph.
  assert (Hone : lines_of Coordinator [m] = [m])
    by (rewrite lines_of_one; by rewrite (proj2 (thread_eqb_eq _ _) Hm)).
  destruct Hph as [->| ->].
  - destruct Hi as [-> ->]; [done|]. exists (pre ++ [m]), [], [].
    rewrite !app_nil_r, lines_of_app, Hpre, Hone. by split_and!.
  - exists pre, mid, (post ++ [m]).
    rewrite lines_of_app, Hpost, Hone, <- !app_assoc. by split_and!.
Qed.

Lemma shape_ok_thread items cap ph (ws : list (message Item)) m :
  shape_ok items cap ph ws → writer m ≠ Coordinator →
  ph ≠ Idle → ph ≠ Complete → shape_ok items cap ph (ws ++ [m]).
Proof.
  intros (pre & mid & post & -> & Hpre & Hmid & Hpost & Hi & Hni & Hnc)
    Hm Hph1 Hph2.
  assert (Hone : lines_of Coordinator [m] = []).
  { rewrite lines_of_one.
    destruct (thread_eqb _ _) eqn:Heq; [|done]. by apply thread_eqb_eq in Heq. }
  rewrite (Hnc Hph2), !app_nil_r. exists pre, (mid ++ [m]), [].
  rewrite lines_of_app, Hmid, Hone, !app_nil_r, <- app_assoc.
  by split_and!.
Qed.

Lemma LInv_write items data cap old ltr s t m rest :
  LInv str repr items data cap old ltr s →
  logger_of t s = mkLogger rest (Some m) →
  LInv str repr items data cap old (ltr ++ [AWrite m])
    (set_file (log (file s) (render str repr m))
              (set_logger t (mkLogger rest None) s)).
Proof.
  intros HI Hlg.
  assert (Hne : logger_of t s ≠ idle) by by rewrite Hlg.
  pose proof (LInv_busy _ _ _ _ _ _ _ HI Hne) as Hb.
  destruct HI as [Hbase Hfile Hip Hic Hjp Hjc Hbusy Hown Hcoord Hcons Hprod
                    Hsize Hshape Hpot].
  pose proof (Hown t) as [Hownt _]. rewrite Hlg in Hownt. lfields.
  apply Forall_cons in Hownt as [Hm _].
  assert (Hfile' : log (file s) (render str repr m)
                   = header +:+ text str repr (writes ltr ++ [m])).
  { assert (opened s = true) as Ho by (destruct t; by destruct_and?).
    rewrite Ho in Hfile. rewrite text_snoc, Hfile. unfold log.
    by rewrite !string_app_assoc. }
  assert (Hline : ∀ t', lines_of t' [m]
                        = if thread_eqb t t' then [m] else []).
  { intros t'. by rewrite lines_of_one, Hm. }
  destruct s as [st f o iv cl pl kl].
  destruct t; lfields; destruct_and?; subst.
  - constructor; lnorm; rewrite ?Hline; simpl thread_eqb; lfields;
      rewrite ?app_nil_r; try done; lcontra.
    + intros []; lfields;
        [|apply (Hown Producer)|apply (Hown Consumer)].
      split; [by constructor|apply (Hown Coordinator)].
    + intros _. rewrite <- app_assoc. by apply Hcoord.
    + split; [|done]. apply Forall_app. split; [done|].
      constructor; [|done]. apply size_ok_other. by rewrite Hm.
    + apply shape_ok_coordinator; try done.
    + lpotential.
  - constructor; lnorm; rewrite ?Hline; simpl thread_eqb; lfields;
      rewrite ?app_nil_r; try done; lcontra.
    + intros []; lfields;
        [apply (Hown Coordinator)| |apply (Hown Consumer)].
      split; [by constructor|apply (Hown Producer)].
    + split; [|done]. apply Forall_app. split; [done|].
      done.
    + apply shape_ok_thread; try done. by rewrite Hm.
    + lpotential.
  - constructor; lnorm; rewrite ?Hline; simpl thread_eqb; lfields;
      rewrite ?app_nil_r; try done; lcontra.
    + intros []; lfields;
        [apply (Hown Coordinator)|apply (Hown Producer)|].
      split; [by constructor|apply (Hown Consumer)].
    + by rewrite <- app_assoc.
    + split; [|done]. apply Forall_app. split; [done|].
      constructor; [|done]. apply size_ok_other. by rewrite Hm.
    + apply shape_ok_thread; try done. by rewrite Hm.
    + lpotential.
Qed.

Lemma format_ext st st' c :
  input st' = input st → output st' = output st →
  maxsize (shared_queue st') = maxsize (shared_queue st) →
  qsize (shared_queue st') = qsize (shared_queue st)
  ∨ writer (format st c) ≠ Producer →
  format st' c = format st c.
Proof.
  intros Hin Hout Hmax Hq. destruct c; simpl; unfold success;
    rewrite ?Hin, ?Hout, ?Hmax; try done.
  destruct Hq as [->|]; done.
Qed.

Lemma Forall_writer_ext st st' t (cs : list (writer_call Item)) :
  Forall (λ c, writer (format st c) = t) cs →
  Forall (λ c, writer (format st' c) = t) cs.
Proof.
  intros Hall. eapply Forall_impl; [exact Hall|].
  intros c <-. apply writer_format.
Qed.

Lemma LInv_mutate items data cap old ltr s new :
  LInv str repr items data cap old ltr s →
  LInv str repr items data cap old (ltr ++ [ADo (EMutate new)])
    (set_system (set_heap (system s) (<[data := new]> (heap (system s)))) s).
Proof.
  intros HI.
  destruct HI as [Hbase Hfile Hip Hic Hjp Hjc Hbusy Hown Hcoord Hcons Hprod
                    Hsize Hshape Hpot].
  destruct s as [st f o iv cl pl kl]. lfields.
  set (st' := set_heap st (<[data := new]> (heap st))).
  destruct (inv_sep _ _ _ _ _ Hbase) as (_ & Hs1 & Hs2).
  assert (Hin : input st' = input st).
  { unfold input, st'. simpl. by rewrite lookup_insert_ne. }
  assert (Hout : output st' = output st).
  { unfold output, st'. simpl. by rewrite lookup_insert_ne. }
  assert (Hfmt : ∀ c, format st' c = format st c).
  { intros c. apply format_ext; try done. by left. }
  assert (Hfmts : ∀ cs : list (writer_call Item),
            format st' <$> cs = format st <$> cs).
  { intros cs. apply list_fmap_ext. intros ? c _. apply Hfmt. }
  constructor; lnorm; rewrite ?Hfmts, ?Hout; try done.
  - eapply Inv_step; [done|]. apply step_mutate.
  - intros t. destruct (Hown t) as [? ?]. split; [by destruct t|].
    destruct t; lfields; by eapply Forall_writer_ext.
  - rewrite Nat.add_0_r. unfold potential, measure in *. lfields.
    by simpl in *.
Qed.

Lemma fmap_format_ext st st' t (cs : list (writer_call Item)) :
  Forall (λ c, writer (format st c) = t) cs →
  (∀ c, writer (format st c) = t → format st' c = format st c) →
  format st' <$> cs = format st <$> cs.
Proof.
  intros Hall Hext. induction Hall as [|c cs Hc _ IH]; [done|].
  by rewrite !fmap_cons, IH, Hext.
Qed.

Lemma LInv_producer items data cap old ltr s e st' :
  LInv str repr items data cap old ltr s →
  producer_log s = idle → producer (system s) = Some (e, st') →
  LInv str repr items data cap old (ltr ++ [ADo e])
    (set_logger Producer (mkLogger (after_producer e) None)
                (set_system st' s)).
Proof.
  intros HI Hidle Hex.
  destruct HI as [Hbase Hfile Hip Hic Hjp Hjc Hbusy Hown Hcoord Hcons Hprod
                    Hsize Hshape Hpot].
  assert (HI' : Inv items data cap (base_events ltr ++ [e]) st').
  { eapply Inv_step; [done|]. by apply (step_thread data Producer). }
  pose proof (inv_phase _ _ _ _ _ Hbase) as Hph.
  pose proof (inv_fetched _ _ _ _ _ Hbase) as Hfet.
  pose proof (Inv_input _ _ _ _ _ Hbase) as Hin.
  destruct (producer_moves _ _ _ Hex) as [Hp1 Hp2].
  destruct s as [st f o iv cl pl kl]. lfields. subst pl.
  assert (Hm : phase st = Starting ∨ phase st = Running).
  { destruct (phase st); simpl in Hph; destruct_and?; auto; done. }
  assert (Ho : o = true).
  { destruct o; [done|]. destruct Hfile as (_ & _ & Hm' & _).
    rewrite Hm' in Hm. by destruct Hm. }
  assert (Hcl : cl = idle) by (apply Hbusy; by destruct Hm as [-> | ->]).
  subst o cl.
  assert (Hsame : heap st' = heap st ∧ source st' = source st
                  ∧ destination st' = destination st
                  ∧ phase st' = phase st
                  ∧ consumer_thread st' = consumer_thread st
                  ∧ maxsize (shared_queue st') = maxsize (shared_queue st)
                  ∧ producer_thread st' ≠ PIdle).
  { unfold producer, put in Hex. repeat case_match; by simplify_eq. }
  destruct Hsame as (Hh & Hs & Hd & Hphase & Hc & Hmax & Hp').
  assert (Hout : output st' = output st) by (unfold output; by rewrite Hh, Hd).
  assert (Hinp : input st' = input st) by (unfold input; by rewrite Hh, Hs).
  assert (Hkl : format st' <$> pending kl = format st <$> pending kl).
  { apply (fmap_format_ext _ _ Consumer); [apply (Hown Consumer)|].
    intros c Hc'. apply format_ext; try done. right. by rewrite Hc'. }
  constructor; lnorm; rewrite ?Hphase, ?Hc, ?Hout, ?Hkl; try done; lcontra.
  - intros Hj. by destruct Hm as [Hm|Hm]; rewrite Hm in Hj.
  - intros t. destruct (Hown t) as [? ?].
    destruct t; lfields; (split; [done|]); try by eapply Forall_writer_ext.
    destruct e; simpl; repeat constructor.
  - intros _. specialize (Hcoord eq_refl). by rewrite ?app_nil_r in Hcoord.
  - rewrite ?app_nil_r in Hprod. unfold producer, put in Hex.
    destruct (producer_thread st) as [|i|x i|] eqn:Hp; try done.
    + rewrite Hin in Hex.
      destruct (items !! i) as [x|] eqn:Hi; injection Hex as <- <-; simpl in *.
      * exists (take i items). split; [by apply take_S_r|by rewrite Hprod].
      * apply lookup_ge_None in Hi. rewrite take_ge in Hprod by done.
        by rewrite Hprod.
    + repeat case_match; try done; injection Hex as <- <-; simpl in *.
      destruct Hprod as (l & -> & ->).
      rewrite producer_rounds_app. simpl. by rewrite <- app_assoc.
  - unfold producer, put in Hex.
    destruct (producer_thread st) as [|i|x i|] eqn:Hp; try done.
    + rewrite Hin in Hex.
      destruct (items !! i) as [x|] eqn:Hi; injection Hex as <- <-; simpl in *.
      * apply lookup_lt_Some in Hi.
        unfold potential, measure, logger_cost, idle in *. lfields.
        simpl in *. rewrite Hp in *. simpl in *. lia.
      * apply lookup_ge_None in Hi.
        unfold potential, measure, logger_cost, idle in *. lfields.
        simpl in *. rewrite Hp in *. simpl in *. lia.
    + repeat case_match; try done; injection Hex as <- <-; simpl in *.
      unfold potential, measure, logger_cost, idle in *. lfields.
      simpl in *. rewrite Hp in *. simpl in *. lia.
Qed.

Ltac bfields :=
  cbn [heap source destination shared_queue producer_thread consumer_thread
       phase maxsize queue unfinished_tasks set_phase set_producer
       set_consumer set_queue set_heap consumer_ok consumer_log_ok
       producer_log_ok after_consumer after_producer] in *.

Lemma output_set_consumer st (c : consumer_pc Item) :
  output (set_consumer st c) = output st.
Proof. done. Qed.

Lemma output_set_queue st (q : Queue Item) :
  output (set_queue st q) = output st.
Proof. done. Qed.

Lemma output_append st (c : consumer_pc Item) l :
  output (set_consumer
            (set_heap st (<[destination st := l]> (heap st))) c) = l.
Proof. unfold output. simpl. by rewrite lookup_insert_eq. Qed.

Lemma LInv_consumer items data cap old ltr s e st' x :
  LInv str repr items data cap old ltr s →
  consumer_log s = idle → consumer (system s) = Some (e, st') →
  x = match e with ETake item => Some item | _ => item_var s end →
  LInv str repr items data cap old (ltr ++ [ADo e])
    (set_logger Consumer (mkLogger (after_consumer e x st') None)
                (set_item_var x (set_system st' s))).
Proof.
  intros HI Hidle Hex Hx.
  destruct HI as [Hbase Hfile Hip Hic Hjp Hjc Hbusy Hown Hcoord Hcons Hprod
                    Hsize Hshape Hpot].
  assert (HI' : Inv items data cap (base_events ltr ++ [e]) st').
  { eapply Inv_step; [done|]. by apply (step_thread data Consumer). }
  pose proof (inv_phase _ _ _ _ _ Hbase) as Hph.
  pose proof (inv_consumer _ _ _ _ _ Hbase) as Hck.
  pose proof (inv_consumer _ _ _ _ _ HI') as Hck'.
  pose proof (Inv_input _ _ _ _ _ Hbase) as Hin.
  destruct (consumer_moves _ _ _ Hex) as [Hc1 Hc2].
  destruct s as [st f o iv cl pl kl]. lfields. subst kl.
  assert (Hm : phase st = Running ∨ phase st = JoiningConsumer).
  { destruct (phase st); simpl in Hph; destruct_and?; auto; done. }
  assert (Ho : o = true).
  { destruct o; [done|]. destruct Hfile as (_ & _ & Hm' & _).
    rewrite Hm' in Hm. by destruct Hm. }
  assert (Hcl : cl = idle) by (apply Hbusy; by destruct Hm as [-> | ->]).
  subst o cl.
  assert (Hsame : phase st' = phase st
                  ∧ producer_thread st' = producer_thread st
                  ∧ consumer_thread st' ≠ CIdle).
  { unfold consumer, get, task_done in Hex.
    repeat case_match; by simplify_eq. }
  destruct Hsame as (Hphase & Hp & Hc').
  constructor; lnorm; rewrite ?Hphase, ?Hp; try done; lcontra.
  - intros Hj. by destruct Hm as [Hm|Hm]; rewrite Hm in Hj.
  - intros t. destruct (Hown t) as [? ?].
    destruct t; lfields; (split; [done|]); try by eapply Forall_writer_ext.
    unfold after_consumer, trying.
    repeat case_match; repeat constructor.
  - intros _. specialize (Hcoord eq_refl). by rewrite ?app_nil_r in Hcoord.
  - rewrite ?app_nil_r in Hcons. unfold consumer, get, task_done in Hex.
    destruct (consumer_thread st) as [| |k n|y k n|k n| |] eqn:Hc; try done;
      bfields.
    + injection Hex as <- <-. bfields. rewrite output_set_consumer.
      assert (output st = []) as Hout by by apply length_zero_iff_nil.
      rewrite Hcons, Hout. unfold trying. bfields. simpl.
      by case_bool_decide.
    + case_bool_decide.
        destruct (queue (shared_queue st)) as [|y q]; [done|].
        injection Hex as <- <-. bfields. subst x.
        rewrite output_set_consumer, output_set_queue.
        split; [done|]. rewrite Hcons. simpl. by rewrite <- app_assoc.
      * injection Hex as <- <-. bfields. rewrite output_set_consumer.
        simpl. by rewrite Hcons, app_nil_r.
    + injection Hex as <- <-. bfields. destruct Hcons as [-> ->].
      rewrite output_append.
      exists (output st), y. split_and!; [done|done|by rewrite app_nil_r].
    + case_bool_decide.
      { injection Hex as <- <-. by bfields. }
      injection Hex as <- <-. bfields. simpl in Hx.
      destruct Hcons as (out' & y & Hout & -> & ->). subst x.
      unfold trying. bfields. rewrite fmap_app. simpl.
      rewrite output_set_consumer, output_set_queue.
      rewrite Hout, consumer_rounds_app, length_app. simpl.
      replace (length out' + 1) with (S (length out')) by lia.
      rewrite <- !app_assoc. simpl. by case_bool_decide.
  - unfold consumer, get, task_done in Hex.
    destruct (consumer_thread st) as [| |k n|y k n|k n| |] eqn:Hc; try done;
      bfields;
      try (destruct Hcons as (out' & y & _ & -> & _));
      repeat case_match; try done; simplify_eq;
      bfields; destruct_and?; subst;
      unfold potential, measure, logger_cost, idle, trying in *; lfields;
      simpl in *; rewrite ?Hc in *; simpl in *;
      repeat case_bool_decide; simpl in *; lia.
Qed.

Lemma shape_ok_phase items cap ph ph' (ws : list (message Item)) :
  shape_ok items cap ph ws → ph ≠ Complete → ph' ≠ Idle →
  (ph = Idle → lines_of Coordinator ws = [MSource items; MCapacity cap]) →
  shape_ok items cap ph' ws.
Proof.
  intros (pre & mid & post & -> & Hpre & Hmid & Hpost & Hi & Hni & Hnc)
    Hph Hph' Hidle.
  rewrite (Hnc Hph) in *. exists pre, mid, []. split_and!; try done.
  intros _. destruct ph; try (by apply Hni).
  destruct Hi as [-> _]; [done|].
  rewrite !app_nil_r in Hidle. by rewrite <- Hpre, Hidle.
Qed.

Lemma LInv_start items data cap old ltr s e st' :
  LInv str repr items data cap old ltr s →
  opened s = true → coordinator_log s = idle → joinable s = true →
  start (system s) = Some (e, st') →
  LInv str repr items data cap old (ltr ++ [ADo e])
    (after_start e (set_system st' s)).
Proof.
  intros HI Ho Hidle Hjoin Hex.
  destruct HI as [Hbase Hfile Hip Hic Hjp Hjc Hbusy Hown Hcoord Hcons Hprod
                    Hsize Hshape Hpot].
  assert (HI' : Inv items data cap (base_events ltr ++ [e]) st').
  { eapply Inv_step; [done|]. by apply (step_thread data Coordinator). }
  pose proof (inv_phase _ _ _ _ _ Hbase) as Hph.
  pose proof (Inv_input _ _ _ _ _ HI') as Hin'.
  destruct s as [st f o iv cl pl kl]. lfields. subst o cl.
  specialize (Hcoord eq_refl). unfold joinable in Hjoin. lfields.
  assert (Hfmt : ∀ c, format st' c = format st c).
  { intros c. unfold start in Hex.
    apply format_ext; [..|left]; repeat case_match; by simplify_eq. }
  assert (Hfmts : ∀ cs : list (writer_call Item),
            format st' <$> cs = format st <$> cs).
  { intros cs. apply list_fmap_ext. intros ? c _. apply Hfmt. }
  assert (Hout : output st' = output st).
  { unfold start in Hex. repeat case_match; by simplify_eq. }
  unfold start in Hex.
  destruct (phase st) eqn:Hphase; simpl in Hph; destruct_and?;
    repeat case_match; try done; injection Hex as <- <-.
  - (* start the producer *)
    assert (Hpl : pl = idle) by (by apply Hip). subst pl.
    match goal with H : producer_thread st = PIdle |- _ =>
      rewrite H in * end.
    constructor; lnorm; bfields; rewrite ?Hfmts; try done; lcontra.
    + intros t. destruct (Hown t) as [? ?].
      destruct t; lfields; (split; [done|]);
        try (by eapply Forall_writer_ext). repeat constructor.
    + intros _. by rewrite ?app_nil_r in Hcoord.
    + rewrite ?app_nil_r in Hprod. by rewrite Hprod.
    + eapply shape_ok_phase; try done. by rewrite ?app_nil_r in Hcoord.
    + unfold potential, measure, logger_cost in *. lfields. bfields.
      repeat match goal with H : _ st = _ |- _ => rewrite H in * end.
      simpl in *. lia.
  - (* start the consumer *)
    assert (Hkl : kl = idle) by (by apply Hic). subst kl.
    match goal with H : consumer_thread st = CIdle |- _ =>
      rewrite H in * end.
    constructor; lnorm; bfields; rewrite ?Hfmts; try done; lcontra.
    + intros t. destruct (Hown t) as [? ?].
      destruct t; lfields; (split; [done|]);
        try (by eapply Forall_writer_ext). repeat constructor.
    + intros _. by rewrite ?app_nil_r in Hcoord.
    + rewrite ?app_nil_r in Hcons. by rewrite Hcons.
    + eapply shape_ok_phase; try done.
    + unfold potential, measure, logger_cost in *. lfields. bfields.
      repeat match goal with H : _ st = _ |- _ => rewrite H in * end.
      simpl in *. case_bool_decide; lia.
  - (* join the producer *)
    apply is_idle_true in Hjoin. subst pl.
    constructor; lnorm; bfields; rewrite ?Hfmts; try done; lcontra.
    + intros _. by rewrite ?app_nil_r in Hcoord.
    + by rewrite ?app_nil_r in Hprod.
    + eapply shape_ok_phase; try done.
    + unfold potential, measure, logger_cost, set_system in *.
      lfields. bfields.
      repeat match goal with H : _ st = _ |- _ => rewrite H in * end.
      simpl in *. lia.
  - (* join the consumer *)
    apply is_idle_true in Hjoin. subst kl.
    constructor; lnorm; bfields; rewrite ?Hfmts; try done; lcontra.
    + intros _. by rewrite ?app_nil_r in Hcoord.
    + by rewrite ?app_nil_r in Hcons.
    + eapply shape_ok_phase; try done.
    + unfold potential, measure, logger_cost, set_system in *.
      lfields. bfields.
      repeat match goal with H : _ st = _ |- _ => rewrite H in * end.
      simpl in *. lia.
  - (* the queue is drained *)
    assert (Hc : consumer_thread st = CDone) by done.
    destruct (Inv_consumer_done _ _ _ _ _ Hbase Hc) as (Hitems & _).
    constructor; lnorm; bfields; rewrite ?Hfmts; try done; lcontra.
    + intros t. destruct (Hown t) as [? ?].
      destruct t; lfields; (split; [done|]);
        try (by eapply Forall_writer_ext). repeat constructor.
    + intros _. rewrite ?app_nil_r in Hcoord. unfold coordinator_log_ok.
      rewrite Hcoord. simpl. unfold closing_lines, success.
      by rewrite Hin', Hout, Hitems, bool_decide_eq_true_2.
    + eapply shape_ok_phase; try done.
    + unfold potential, measure, logger_cost in *. lfields. bfields.
      repeat match goal with H : _ st = _ |- _ => rewrite H in * end.
      simpl in *. lia.
Qed.

Lemma LInv_step items data cap old ltr s a s' :
  LInv str repr items data cap old ltr s → lstep str repr data s a s' →
  LInv str repr items data cap old (ltr ++ [a]) s'.
Proof.
  intros HI Hk%lstep_kinds.
  destruct Hk.
  - by apply LInv_truncate.
  - by eapply LInv_format.
  - by eapply LInv_write.
  - by apply LInv_start.
  - by apply LInv_producer.
  - by apply LInv_consumer.
  - by apply LInv_mutate.
Qed.

Lemma LInv_steps items data cap old ltr0 s0 ltr s :
  LInv str repr items data cap old ltr0 s0 → lsteps str repr data s0 ltr s →
  LInv str repr items data cap old (ltr0 ++ ltr) s.
Proof.
  intros H0 Hs. induction Hs as [|? ? ? ? ? _ IH Hstep].
  - by rewrite app_nil_r.
  - rewrite app_assoc. eapply LInv_step; [by apply IH|done].
Qed.

Lemma LInv_run h data cap old items ltr s :
  h !! data = Some items → logged_run str repr h data cap old ltr s →
  LInv str repr items data cap old ltr s.
Proof.
  intros Hd (st0 & Hi & Hs).
  apply (LInv_steps items data cap old [] (logged_init st0 old) ltr s);
    [|done].
  by eapply LInv_init.
Qed.

(** ** Consequences of the invariant *)

Lemma lsteps_cons data s a s1 ltr s2 :
  lstep str repr data s a s1 → lsteps str repr data s1 ltr s2 →
  lsteps str repr data s (a :: ltr) s2.
Proof.
  intros Hst Hs. induction Hs as [|? ? ? ? ? _ IH Hstep].
  - change [a] with ([] ++ [a]). eapply lsteps_snoc; [constructor|done].
  - rewrite app_comm_cons. eapply lsteps_snoc; [by apply IH|done].
Qed.

Lemma log_step_none t s : log_step str repr t s = None → logger_of t s = idle.
Proof.
  unfold log_step. by destruct (logger_of t s) as [[|c rest] [m|]].
Qed.

Lemma next_logged_lexec s a s' :
  next_logged str repr s = Some (a, s') → ∃ t, lexec str repr t s = Some (a, s').
Proof.
  unfold next_logged.
  destruct (producer_logged str repr s) as [r|] eqn:Hp.
  { intros [= ->]. by exists Producer. }
  destruct (consumer_logged str repr s) as [r|] eqn:Hc.
  { intros [= ->]. by exists Consumer. }
  intros Hs. by exists Coordinator.
Qed.

Lemma lexec_thread_action t s a s' ltr :
  lexec str repr t s = Some (a, s') →
  thread_actions (ltr ++ [a]) = thread_actions ltr + 1.
Proof.
  intros Hex. rewrite thread_actions_snoc. f_equal.
  assert (Hlog : ∀ t', log_step str repr t' s = Some (a, s') →
            match a with ADo (EMutate _) => 0 | _ => 1 end = 1).
  { intros t'. unfold log_step. repeat case_match; intros; by simplify_eq. }
  destruct t; simpl in Hex.
  - unfold start_logged in Hex.
    destruct (opened s); [|by simplify_eq].
    destruct (log_step str repr Coordinator s) as [r|] eqn:Hl.
    { simplify_eq. by eapply Hlog. }
    destruct (joinable s); [|done].
    destruct (start (system s)) as [[e st']|] eqn:Hs; [|done].
    apply (exec_owner Coordinator) in Hs. simplify_eq. by destruct e.
  - unfold producer_logged in Hex.
    destruct (log_step str repr Producer s) as [r|] eqn:Hl.
    { simplify_eq. by eapply Hlog. }
    destruct (producer (system s)) as [[e st']|] eqn:Hs; [|done].
    apply (exec_owner Producer) in Hs. simplify_eq. by destruct e.
  - unfold consumer_logged in Hex.
    destruct (log_step str repr Consumer s) as [r|] eqn:Hl.
    { simplify_eq. by eapply Hlog. }
    destruct (consumer (system s)) as [[e st']|] eqn:Hs; [|done].
    apply (exec_owner Consumer) in Hs. simplify_eq. by destruct e.
Qed.

(** [start] has returned exactly when nothing is left to do. *)
Lemma LInv_returned items data cap old ltr s :
  LInv str repr items data cap old ltr s →
  (returned s ↔ potential (length items) s = 0).
Proof.
  intros HI.
  pose proof (li_base _ _ _ _ _ _ _ _ HI) as Hbase.
  pose proof (li_file _ _ _ _ _ _ _ _ HI) as Hfile.
  pose proof (li_joined_p _ _ _ _ _ _ _ _ HI) as Hjp.
  pose proof (li_joined_c _ _ _ _ _ _ _ _ HI) as Hjc.
  unfold returned, potential. split.
  - intros [Hm Hidle%is_idle_true].
    destruct (Inv_complete _ _ _ _ _ Hbase Hm) as [Hp Hc].
    rewrite (proj2 (Inv_measure_complete _ _ _ _ _ Hbase) Hm).
    rewrite Hm in *. rewrite Hp, Hc, Hidle, Hjp, Hjc by done.
    destruct (opened s); [done|]. by destruct Hfile as (_ & _ & ? & _).
  - intros Hz.
    assert (Hm : phase (system s) = Complete).
    { destruct (phase (system s)); simpl in Hz; lia || done. }
    split; [done|]. apply is_idle_true.
    destruct (coordinator_log s) as [[|c rest] [m|]]; unfold logger_cost in Hz;
      simpl in Hz; lia || done.
Qed.

(** Until [start] has returned some thread can act. *)
Lemma LInv_progress items data cap old ltr s :
  LInv str repr items data cap old ltr s → ¬ returned s →
  ∃ a s', next_logged str repr s = Some (a, s').
Proof.
  intros HI Hret.
  pose proof (li_base _ _ _ _ _ _ _ _ HI) as Hbase.
  unfold next_logged, producer_logged, consumer_logged, start_logged.
  destruct (log_step str repr Producer s) as [[a s']|] eqn:Hlp; [by eauto|].
  destruct (producer (system s)) as [[e st']|] eqn:Hp; [by eauto|].
  destruct (log_step str repr Consumer s) as [[a s']|] eqn:Hlc; [by eauto|].
  destruct (consumer (system s)) as [[e st']|] eqn:Hc; [by eauto|].
  destruct (opened s); [|by eauto].
  destruct (log_step str repr Coordinator s) as [[a s']|] eqn:Hlm; [by eauto|].
  apply log_step_none in Hlp, Hlc, Hlm. simpl in Hlp, Hlc, Hlm.
  assert (Hm : phase (system s) ≠ Complete).
  { intros Hm. apply Hret. split; [done|]. by apply is_idle_true. }
  destruct (Inv_progress _ _ _ _ _ Hbase Hm) as (t & e & st' & Hex).
  destruct t; simpl in Hex; [|congruence..].
  rewrite Hex.
  assert (Hj : joinable s = true).
  { unfold joinable. rewrite Hlp, Hlc. by destruct (phase (system s)). }
  rewrite Hj. eauto.
Qed.

Lemma next_logged_step data s a s' :
  next_logged str repr s = Some (a, s') → lstep str repr data s a s'.
Proof. intros [t Hex]%next_logged_lexec. by eapply lstep_thread. Qed.

(** The scheduler [drive_logged] runs the program until [start] returns. *)
Lemma LInv_drive items data cap old fuel ltr s :
  LInv str repr items data cap old ltr s →
  potential (length items) s ≤ fuel →
  lsteps str repr data s (drive_logged str repr fuel s).1
         (drive_logged str repr fuel s).2
  ∧ returned (drive_logged str repr fuel s).2
  ∧ length (drive_logged str repr fuel s).1 = potential (length items) s.
Proof.
  revert ltr s. induction fuel as [|fuel IH]; intros ltr s HI Hpot; simpl.
  - split_and!; [constructor| |lia].
    apply (LInv_returned _ _ _ _ _ _ HI). lia.
  - destruct (next_logged str repr s) as [[a s1]|] eqn:Hn; simpl.
    + pose proof (next_logged_step data _ _ _ Hn) as Hst.
      pose proof (LInv_step _ _ _ _ _ _ _ _ HI Hst) as HI1.
      destruct (next_logged_lexec _ _ _ Hn) as [t Hex].
      pose proof (lexec_thread_action _ _ _ _ ltr Hex) as Hta.
      pose proof (li_potential _ _ _ _ _ _ _ _ HI) as H0.
      pose proof (li_potential _ _ _ _ _ _ _ _ HI1) as H1.
      destruct (IH _ _ HI1) as (Hs & Hr & Hl); [lia|].
      destruct (drive_logged str repr fuel s1) as [ltr' s2]; simpl in *.
      split_and!; [by eapply lsteps_cons|done|lia].
    + destruct (decide (potential (length items) s = 0)) as [Hz|Hnz].
      * split_and!; [constructor| |by rewrite Hz].
        by apply (LInv_returned _ _ _ _ _ _ HI).
      * destruct (LInv_progress _ _ _ _ _ _ HI) as (a & s' & Hn'); [|congruence].
        by intros Hr%(LInv_returned _ _ _ _ _ _ HI).
Qed.

Lemma LInv_run_ex h data cap old ltr s :
  logged_run str repr h data cap old ltr s →
  ∃ items, h !! data = Some items ∧ LInv str repr items data cap old ltr s.
Proof.
  intros Hr. pose proof Hr as (st0 & Hi & _).
  apply init_spec in Hi as (items & Hd & _).
  exists items. split; [done|]. by eapply LInv_run.
Qed.

Lemma drive_logged_steps data fuel s :
  lsteps str repr data s (drive_logged str repr fuel s).1
         (drive_logged str repr fuel s).2.
Proof.
  revert s. induction fuel as [|fuel IH]; intros s; simpl; [constructor|].
  destruct (next_logged str repr s) as [[a s1]|] eqn:Hn; [|constructor].
  specialize (IH s1).
  destruct (drive_logged str repr fuel s1) as [ltr' s2]; simpl in *.
  eapply lsteps_cons; [|done]. by apply next_logged_step.
Qed.

Lemma execute_logged_run h data cap old fuel ltr s :
  execute_logged str repr h data cap old fuel = Some (ltr, s) →
  logged_run str repr h data cap old ltr s.
Proof.
  unfold execute_logged. destruct (__init__ h data cap) as [st0|] eqn:Hi;
    [|done].
  simpl. intros [= Hd]. exists st0. split; [done|].
  pose proof (drive_logged_steps data fuel (logged_init st0 old)) as Hs.
  by rewrite Hd in Hs.
Qed.

Lemma LInv_opened items data cap old ltr s :
  LInv str repr items data cap old ltr s → phase (system s) ≠ Idle →
  opened s = true.
Proof.
  intros HI Hm. pose proof (li_file _ _ _ _ _ _ _ _ HI) as Hfile.
  destruct (opened s); [done|]. by destruct Hfile as (_ & _ & ? & _).
Qed.

Lemma Inv_delivered items data cap tr st :
  Inv items data cap tr st →
  ∃ rest, items = output st ++ in_hand_c (consumer_thread st) ++ rest.
Proof. intros HI. eexists. apply (inv_flow _ _ _ _ _ HI). Qed.

(** What the consumer has logged or is about to log is the beginning of the
    lines it logs for the whole source. *)
Lemma LInv_consumer_prefix items data cap old ltr s :
  LInv str repr items data cap old ltr s →
  logged_by Consumer ltr s `prefix_of` consumer_lines items.
Proof.
  intros HI.
  pose proof (li_base _ _ _ _ _ _ _ _ HI) as Hbase.
  pose proof (li_cons _ _ _ _ _ _ _ _ HI) as Hc.
  pose proof (inv_consumer _ _ _ _ _ Hbase) as Hk.
  destruct (Inv_delivered _ _ _ _ _ Hbase) as [rest Hflow].
  assert (Hlen : length items
                 = length (output (system s))
                   + length (in_hand_c (consumer_thread (system s)))
                   + length rest).
  { rewrite Hflow at 1. rewrite !length_app. lia. }
  unfold consumer_lines.
  destruct (consumer_thread (system s)) as [| |k n|x k n|k n| |];
    simpl in *.
  - rewrite Hc. apply prefix_nil.
  - rewrite Hc. by eexists.
  - destruct Hk as (-> & -> & Hle). rewrite Hc. apply prefix_cons.
    case_bool_decide;
      rewrite Hflow, consumer_rounds_app, <- ?app_assoc; apply prefix_app;
      [|apply prefix_nil].
    destruct rest as [|y rest]; simpl in *; [lia|]. by eexists.
  - destruct Hc as (_ & ->). apply prefix_cons.
    rewrite Hflow, consumer_rounds_app, <- !app_assoc. apply prefix_app.
    simpl. by eexists.
  - destruct Hc as (out' & y & Ho & _ & ->). apply prefix_cons.
    rewrite Hflow, Ho, <- app_assoc, consumer_rounds_app, <- !app_assoc.
    apply prefix_app. simpl. by eexists.
  - rewrite Hc. rewrite Hk in Hlen.
    assert (rest = []) as -> by (apply length_zero_iff_nil; lia).
    rewrite app_nil_r in Hflow. by rewrite <- Hflow.
  - done.
Qed.

Lemma LInv_producer_prefix items data cap old ltr s :
  LInv str repr items data cap old ltr s →
  (call_of <$> (lines_of Producer (writes ltr)
                ++ option_list (ready (producer_log s))))
  ++ pending (producer_log s) `prefix_of` producer_calls items.
Proof.
  intros HI.
  pose proof (li_prod _ _ _ _ _ _ _ _ HI) as Hp.
  unfold producer_calls.
  destruct (producer_thread (system s)) as [|i|x i|]; simpl in *.
  - rewrite Hp. apply prefix_nil.
  - rewrite Hp. apply prefix_cons.
    rewrite <- (take_drop i items) at 2.
    rewrite producer_rounds_app, <- app_assoc. by eexists.
  - destruct Hp as (l & Hl & ->). apply prefix_cons.
    rewrite <- (take_drop i items), Hl, !producer_rounds_app, <- !app_assoc.
    apply prefix_app. simpl. by eexists.
  - by rewrite Hp.
Qed.

(** When [start] has returned: the lines of the file. *)
Lemma LInv_final items data cap old ltr s :
  LInv str repr items data cap old ltr s → returned s →
  opened s = true
  ∧ ∃ mid, writes ltr = [MSource items; MCapacity cap] ++ mid
                        ++ closing_lines items
      ∧ lines_of Coordinator mid = []
      ∧ lines_of Consumer mid = consumer_lines items
      ∧ call_of <$> lines_of Producer mid = producer_calls items.
Proof.
  intros HI [Hm Hidle%is_idle_true].
  pose proof (li_base _ _ _ _ _ _ _ _ HI) as Hbase.
  assert (Ho : opened s = true).
  { apply (LInv_opened _ _ _ _ _ _ HI). by rewrite Hm. }
  split; [done|].
  pose proof (li_coord _ _ _ _ _ _ _ _ HI Ho) as Hco.
  pose proof (li_cons _ _ _ _ _ _ _ _ HI) as Hc.
  pose proof (li_prod _ _ _ _ _ _ _ _ HI) as Hp.
  pose proof (li_shape _ _ _ _ _ _ _ _ HI) as Hsh.
  pose proof (li_joined_p _ _ _ _ _ _ _ _ HI) as Hjp.
  pose proof (li_joined_c _ _ _ _ _ _ _ _ HI) as Hjc.
  destruct (Inv_complete _ _ _ _ _ Hbase Hm) as [Hpd Hcd].
  destruct (Inv_consumer_done _ _ _ _ _ Hbase Hcd) as (Hout & _).
  rewrite Hm in *. rewrite Hpd in Hp. rewrite Hcd, Hout in Hc.
  unfold logged_by in *. simpl in *.
  rewrite Hidle in Hco. rewrite Hjc in Hc by done. rewrite Hjp in Hp by done.
  simpl in *. rewrite ?app_nil_r in *.
  destruct Hsh as (pre & mid & post & Hw & Hpre & Hmid & Hpost & _ & Hni & _).
  rewrite (Hni ltac:(done)) in *. clear Hni Hpre.
  rewrite Hw in Hco, Hc, Hp. rewrite !lines_of_app, Hmid, Hpost in Hco.
  unfold coordinator_log_ok in Hco. simpl in Hco.
  injection Hco as ->.
  exists mid. split_and!; try done.
  - rewrite !lines_of_app in Hc. simpl in Hc. by rewrite app_nil_r in Hc.
  - rewrite !lines_of_app in Hp. simpl in Hp. by rewrite app_nil_r in Hp.
Qed.

(** X9. From the moment [start] has opened the output file, the file holds
    the header and after it the lines logged so far, each with its newline,
    whatever the file held before; until then it holds what it held, and
    nothing has been logged. *)
Theorem output_file_contents h data cap old ltr s :
  logged_run str repr h data cap old ltr s →
  if opened s then file s = header +:+ text str repr (writes ltr)
  else file s = old ∧ writes ltr = [].
Proof.
  intros (items & _ & HI)%LInv_run_ex.
  pose proof (li_file _ _ _ _ _ _ _ _ HI) as Hfile.
  destruct (opened s); [done|]. by destruct Hfile as (? & ? & _).
Qed.

(** X10. The queue size the producer logs after a [put] is read from the
    queue after the [put] has returned, when the consumer may have taken
    items already: it is never negative, and never above a positive
    capacity. *)
Theorem logged_queue_sizes h data cap old ltr s item size :
  logged_run str repr h data cap old ltr s →
  MAdded item size ∈ writes ltr →
  (0 ≤ size)%Z ∧ ((0 < cap)%Z → (size ≤ cap)%Z).
Proof.
  intros (items & _ & HI)%LInv_run_ex Hin.
  destruct (li_size _ _ _ _ _ _ _ _ HI) as [Hsz _].
  rewrite Forall_forall in Hsz. apply (Hsz _ Hin).
Qed.

(** X11. At every moment the lines of the consumer in the file are the
    beginning of: the starting line; for each item of the source, in order,
    the lines "Trying", "Got item" and "Stored item" with the number of the
    item as total; the finishing line. *)
Theorem consumer_lines_in_order h data cap old ltr s items :
  logged_run str repr h data cap old ltr s → h !! data = Some items →
  lines_of Consumer (writes ltr) `prefix_of` consumer_lines items.
Proof.
  intros Hr Hd. pose proof (LInv_run _ _ _ _ _ _ _ Hd Hr) as HI.
  etrans; [|by eapply LInv_consumer_prefix].
  unfold logged_by. by eexists.
Qed.

(** X12. At every moment the lines of the producer in the file come from the
    beginning of its calls of [log]: the starting line; for each item of the
    source, in order, "Adding item" and "Successfully added item"; the
    finishing line. *)
Theorem producer_lines_in_order h data cap old ltr s items :
  logged_run str repr h data cap old ltr s → h !! data = Some items →
  call_of <$> lines_of Producer (writes ltr) `prefix_of` producer_calls items.
Proof.
  intros Hr Hd. pose proof (LInv_run _ _ _ _ _ _ _ Hd Hr) as HI.
  etrans; [|by eapply LInv_producer_prefix].
  rewrite fmap_app, <- app_assoc. by eexists.
Qed.

(** X13. When [start] has returned the file holds: the header; the source
    and the capacity; the lines of the two threads, all of them, each thread's
    in its order; the closing lines, which give the source as the final
    destination, its length as the number of items processed, and success. *)
Theorem final_file h data cap old ltr s items :
  logged_run str repr h data cap old ltr s → h !! data = Some items →
  returned s →
  ∃ mid,
    file s = header +:+ text str repr ([MSource items; MCapacity cap] ++ mid
                                       ++ closing_lines items)
    ∧ lines_of Coordinator mid = []
    ∧ lines_of Consumer mid = consumer_lines items
    ∧ call_of <$> lines_of Producer mid = producer_calls items.
Proof.
  intros Hr Hd Hret. pose proof (LInv_run _ _ _ _ _ _ _ Hd Hr) as HI.
  destruct (LInv_final _ _ _ _ _ _ HI Hret) as (Ho & mid & Hw & Hmid).
  exists mid. split; [|done].
  pose proof (li_file _ _ _ _ _ _ _ _ HI) as Hfile.
  rewrite Ho in Hfile. by rewrite <- Hw.
Qed.

(** X14. With logging too the program cannot get stuck, and [start] returns
    after the same number of actions in every run: a run has at most
    [15 * n + 29] actions of the threads for a source of [n] items, it has
    that many exactly when [start] has returned, and until then some thread
    can act. *)
Theorem logged_run_progress h data cap old ltr s items :
  logged_run str repr h data cap old ltr s → h !! data = Some items →
  thread_actions ltr ≤ 15 * length items + 29
  ∧ (returned s ↔ thread_actions ltr = 15 * length items + 29)
  ∧ (¬ returned s → ∃ t a s', lexec str repr t s = Some (a, s')).
Proof.
  intros Hr Hd. pose proof (LInv_run _ _ _ _ _ _ _ Hd Hr) as HI.
  pose proof (li_potential _ _ _ _ _ _ _ _ HI) as Hpot.
  pose proof (LInv_returned _ _ _ _ _ _ HI) as Hret.
  split_and!; [lia| |].
  - rewrite Hret. lia.
  - intros Hn. destruct (LInv_progress _ _ _ _ _ _ HI Hn) as (a & s' & Hx).
    destruct (next_logged_lexec _ _ _ Hx) as [t Hex]. eauto.
Qed.

(** X15. Run by the scheduler [drive_logged], the program with its logging
    comes to the return of [start] for every source and every capacity, in
    [15 * n + 29] actions. *)
Theorem logged_start_returns h data cap old items fuel :
  h !! data = Some items → 15 * length items + 29 ≤ fuel →
  ∃ ltr s, execute_logged str repr h data cap old fuel = Some (ltr, s)
           ∧ logged_run str repr h data cap old ltr s
           ∧ returned s
           ∧ length ltr = 15 * length items + 29.
Proof.
  intros Hd Hfuel.
  destruct (init_total h data cap items Hd) as [st0 Hi].
  pose proof (LInv_init _ _ _ old _ _ Hd Hi) as HI.
  pose proof (li_potential _ _ _ _ _ _ _ _ HI) as Hpot.
  simpl in Hpot.
  destruct (LInv_drive _ data _ _ fuel _ _ HI) as (Hs & Hr & Hl); [lia|].
  unfold execute_logged. rewrite Hi. simpl.
  destruct (drive_logged str repr fuel (logged_init st0 old)) as [ltr s].
  simpl in *. exists ltr, s. split_and!; try done; [|lia].
  by exists st0.
Qed.
(** ** The order of the lines of different threads *)

Lemma lines_of_disjoint t t' (ms : list (message Item)) :
  t ≠ t' → lines_of t' (lines_of t ms) = [].
Proof.
  intros Hne. induction ms as [|m ms IH]; [done|].
  change (m :: ms) with ([m] ++ ms).
  rewrite lines_of_app, lines_of_one.
  destruct (thread_eqb (writer m) t) eqn:Hm; [|done].
  rewrite lines_of_app, lines_of_one, IH.
  destruct (thread_eqb (writer m) t') eqn:Hm'; [|done].
  apply thread_eqb_eq in Hm, Hm'. congruence.
Qed.

Lemma omap_prefix {A B} (f : A → option B) (l1 l2 : list A) :
  l1 `prefix_of` l2 → omap f l1 `prefix_of` omap f l2.
Proof. intros [k ->]. rewrite omap_app. by eexists. Qed.

Lemma got_items_lines (ms : list (message Item)) :
  got_items (lines_of Consumer ms) = got_items ms.
Proof.
  induction ms as [|m ms IH]; [done|].
  change (m :: ms) with ([m] ++ ms).
  rewrite lines_of_app, lines_of_one. unfold got_items in *.
  rewrite !omap_app, IH. by destruct m.
Qed.

Lemma adding_items_lines (ms : list (message Item)) :
  adding_calls (call_of <$> lines_of Producer ms) = adding_items ms.
Proof.
  induction ms as [|m ms IH]; [done|].
  change (m :: ms) with ([m] ++ ms).
  rewrite lines_of_app, lines_of_one, fmap_app.
  unfold adding_items, adding_calls in *.
  rewrite !omap_app, IH. by destruct m.
Qed.

Lemma got_items_rounds k (l : list Item) :
  got_items (consumer_rounds k l) = l.
Proof.
  revert k. induction l as [|x l IH]; intros k; [done|].
  simpl. unfold got_items in *. simpl. by rewrite IH.
Qed.

Lemma got_items_consumer_lines (l : list Item) :
  got_items (consumer_lines l) = l.
Proof.
  unfold consumer_lines, got_items. simpl. rewrite omap_app.
  fold (got_items (consumer_rounds 0 l)). rewrite got_items_rounds.
  simpl. by rewrite app_nil_r.
Qed.

Lemma adding_calls_rounds (l : list Item) :
  adding_calls (producer_rounds l) = l.
Proof.
  induction l as [|x l IH]; [done|].
  simpl. unfold adding_calls in *. simpl. by rewrite IH.
Qed.

Lemma adding_calls_producer_calls (l : list Item) :
  adding_calls (producer_calls l) = l.
Proof.
  unfold producer_calls, adding_calls. simpl. rewrite omap_app.
  fold (adding_calls (producer_rounds l)). rewrite adding_calls_rounds.
  simpl. by rewrite app_nil_r.
Qed.

Lemma start_producer_thread st e st' :
  start st = Some (e, st') → e ≠ EStartProducer →
  producer_thread st' = producer_thread st.
Proof. unfold start. intros Hex; repeat case_match; by simplify_eq. Qed.

Lemma consumer_producer_thread st e st' :
  consumer st = Some (e, st') → producer_thread st' = producer_thread st.
Proof. unfold consumer. intros Hex; repeat case_match; by simplify_eq. Qed.

Lemma producer_fetch st item st' :
  producer st = Some (EFetch item, st') →
  ∃ i, producer_thread st' = PPut item i.
Proof.
  unfold producer. intros Hex; repeat case_match; simplify_eq; simpl; eauto.
Qed.

Lemma one_call_ok_step data s a s' :
  one_call_ok s → lstep str repr data s a s' → one_call_ok s'.
Proof.
  intros Hok Hk%lstep_kinds. unfold one_call_ok in *.
  destruct Hk as [?|t c rest ? Hlg|t m rest ? Hlg|e st' ? ? ? Hex|e st' ? Hex
                  |e st' x ? Hex ?|items].
  - done.
  - destruct s as [st f o iv cl pl kl]. destruct t; lfields; try done.
    subst pl. lfields. destruct rest; [|done].
    by rewrite call_of_format.
  - destruct s as [st f o iv cl pl kl]. destruct t; lfields; try done.
    subst pl. lfields. by destruct rest.
  - destruct s as [st f o iv cl pl kl]. lfields.
    destruct e; lfields; try done;
      by rewrite (start_producer_thread _ _ _ Hex).
  - destruct s as [st f o iv cl pl kl]. lfields.
    destruct e; simpl; try done.
    intros ? [= <-]. by eapply producer_fetch.
  - destruct s as [st f o iv cl pl kl]. lfields.
    by rewrite (consumer_producer_thread _ _ _ Hex).
  - by destruct s.
Qed.

Lemma one_call_ok_steps data s0 ltr s :
  one_call_ok s0 → lsteps str repr data s0 ltr s → one_call_ok s.
Proof.
  intros H0 Hs. induction Hs as [|? ? ? ? ? _ IH Hstep]; [done|].
  eapply one_call_ok_step; [by apply IH|done].
Qed.

Lemma one_call_ok_run h data cap old ltr s :
  logged_run str repr h data cap old ltr s → one_call_ok s.
Proof.
  intros (st0 & _ & Hs). eapply one_call_ok_steps; [|done].
  by unfold one_call_ok.
Qed.

(** Every item put into the queue has its line "Adding" in the file. *)
Lemma LInv_adding items data cap old ltr s :
  LInv str repr items data cap old ltr s → one_call_ok s →
  length (puts (base_events ltr)) ≤ length (adding_items (writes ltr)).
Proof.
  intros HI Hok.
  pose proof (li_base _ _ _ _ _ _ _ _ HI) as Hbase.
  pose proof (li_prod _ _ _ _ _ _ _ _ HI) as Hp.
  pose proof (inv_flow _ _ _ _ _ Hbase) as Hflow.
  pose proof (inv_puts _ _ _ _ _ Hbase) as Hputs.
  pose proof (inv_fetched _ _ _ _ _ Hbase) as Hfet.
  assert (Hlen : length items
                 = length (puts (base_events ltr))
                   + length (in_hand_p (producer_thread (system s)))
                   + (length items
                      - fetched (length items) (producer_thread (system s)))).
  { rewrite Hflow at 1. rewrite Hputs, !length_app, length_drop. lia. }
  clear Hflow Hputs.
  rewrite <- adding_items_lines.
  rewrite fmap_app, <- app_assoc in Hp. unfold one_call_ok in Hok.
  set (U := (call_of <$> option_list (ready (producer_log s)))
            ++ pending (producer_log s)) in *.
  set (A := call_of <$> lines_of Producer (writes ltr)) in *.
  clearbody U A.
  assert (HU : length (adding_calls U) ≤ 1
               ∧ ((∀ item i, producer_thread (system s) ≠ PPut item i) →
                  adding_calls U = [])).
  { destruct U as [|c [|c' U]]; [by split; [simpl; lia|]| |done]. split.
    - unfold adding_calls. simpl. case_match; simpl; lia.
    - intros Hn. destruct c; try done. destruct (Hok item) as [i Hi]; [done|].
      by destruct (Hn item i). }
  destruct HU as [HU1 HU2].
  assert (Hall : ∀ C, A ++ U = C →
            length (adding_calls C)
            = length (adding_calls A) + length (adding_calls U)).
  { intros C <-. unfold adding_calls. by rewrite omap_app, length_app. }
  destruct (producer_thread (system s)) as [|i|x i|] eqn:Hpc; simpl in *.
  - lia.
  - apply Hall in Hp. rewrite HU2 in Hp by done.
    change (LProducerStart :: ?l) with ([LProducerStart] ++ l) in Hp.
    unfold adding_calls at 1 in Hp. rewrite omap_app in Hp.
    fold (adding_calls (producer_rounds (take i items))) in Hp.
    rewrite adding_calls_rounds in Hp. simpl in Hp.
    rewrite length_take in Hp. lia.
  - destruct Hp as (l & Hl & Hp). apply Hall in Hp.
    change (LProducerStart :: ?l) with ([LProducerStart] ++ l) in Hp.
    unfold adding_calls at 1 in Hp. rewrite !omap_app in Hp.
    fold (adding_calls (producer_rounds l)) in Hp.
    rewrite adding_calls_rounds in Hp. simpl in Hp.
    rewrite length_app in Hp. simpl in Hp.
    assert (length (take i items) = length l + 1)
      by (by rewrite Hl, length_app).
    rewrite length_take in *. lia.
  - apply Hall in Hp. rewrite HU2 in Hp by done.
    rewrite adding_calls_producer_calls in Hp. simpl in Hp. lia.
Qed.

(** Every line "Got" in the file is of an item taken from the queue. *)
Lemma LInv_got items data cap old ltr s :
  LInv str repr items data cap old ltr s →
  length (got_items (writes ltr)) ≤ length (takes (base_events ltr)).
Proof.
  intros HI.
  pose proof (li_base _ _ _ _ _ _ _ _ HI) as Hbase.
  pose proof (li_cons _ _ _ _ _ _ _ _ HI) as Hc.
  pose proof (inv_takes _ _ _ _ _ Hbase) as Htakes.
  rewrite Htakes, <- got_items_lines, length_app.
  assert (Hle : ∀ all, logged_by Consumer ltr s = all →
            length (got_items (lines_of Consumer (writes ltr)))
            ≤ length (got_items all)).
  { intros all <-. unfold logged_by, got_items.
    rewrite omap_app, length_app. lia. }
  assert (Hr : ∀ l (tl : list (message Item)),
            got_items (MConsumerStart :: consumer_rounds 0 l ++ tl)
            = l ++ got_items tl).
  { intros l tl. unfold got_items. simpl. rewrite omap_app.
    fold (got_items (consumer_rounds 0 l)). by rewrite got_items_rounds. }
  destruct (consumer_thread (system s)) as [| |k n|x k n|k n| |];
    simpl in Hc |- *.
  - apply Hle in Hc. simpl in Hc. lia.
  - apply Hle in Hc. simpl in Hc. lia.
  - apply Hle in Hc. rewrite Hr, length_app in Hc.
    case_bool_decide; simpl in Hc; lia.
  - destruct Hc as (_ & Hc). apply Hle in Hc.
    rewrite Hr, length_app in Hc. simpl in Hc. lia.
  - destruct Hc as (out' & y & Ho & _ & Hc). apply Hle in Hc.
    rewrite Hr, length_app in Hc. rewrite Ho, length_app. simpl in *. lia.
  - apply Hle in Hc. rewrite Hr, length_app in Hc. simpl in Hc. lia.
  - done.
Qed.

Lemma prefix_of_shorter {A} (l1 l2 l3 : list A) :
  l1 `prefix_of` l3 → l2 `prefix_of` l3 → length l1 ≤ length l2 →
  l1 `prefix_of` l2.
Proof.
  intros H1 H2 Hlen.
  destruct (prefix_weak_total _ _ _ H1 H2) as [|H21]; [done|].
  by rewrite (prefix_length_eq _ _ H21 Hlen).
Qed.

(** The lines of [start], of the threads, and of [start] again. *)
Lemma LInv_layout items data cap old ltr s :
  LInv str repr items data cap old ltr s →
  ∃ pre mid post,
    writes ltr = pre ++ mid ++ post
    ∧ pre `prefix_of` [MSource items; MCapacity cap]
    ∧ lines_of Coordinator mid = []
    ∧ post `prefix_of` closing_lines items
    ∧ (mid ≠ [] → pre = [MSource items; MCapacity cap])
    ∧ (post ≠ [] →
       pre = [MSource items; MCapacity cap]
       ∧ lines_of Consumer mid = consumer_lines items
       ∧ call_of <$> lines_of Producer mid = producer_calls items).
Proof.
  intros HI.
  pose proof (li_base _ _ _ _ _ _ _ _ HI) as Hbase.
  pose proof (li_file _ _ _ _ _ _ _ _ HI) as Hfile.
  pose proof (li_coord _ _ _ _ _ _ _ _ HI) as Hco.
  pose proof (li_cons _ _ _ _ _ _ _ _ HI) as Hc.
  pose proof (li_prod _ _ _ _ _ _ _ _ HI) as Hp.
  pose proof (li_shape _ _ _ _ _ _ _ _ HI) as Hsh.
  pose proof (li_joined_p _ _ _ _ _ _ _ _ HI) as Hjp.
  pose proof (li_joined_c _ _ _ _ _ _ _ _ HI) as Hjc.
  destruct (opened s) eqn:Ho.
  2:{ destruct Hfile as (_ & Hw & _). exists [], [], []. rewrite Hw.
      split_and!; try done; apply prefix_nil. }
  specialize (Hco eq_refl).
  destruct Hsh as (pre & mid & post & Hw & Hpre & Hmid & Hpost & Hi & Hni
                   & Hnc).
  exists pre, mid, post.
  unfold coordinator_log_ok, logged_by in Hco.
  rewrite Hw, !lines_of_app, Hpre, Hmid, Hpost in Hco. simpl in Hco.
  destruct (phase (system s)) eqn:Hm.
  2-5: pose proof (Hni ltac:(done)) as ->; pose proof (Hnc ltac:(done)) as ->;
       split_and!; try done; apply prefix_nil.
  { destruct (Hi eq_refl) as [-> ->]. simpl in Hco.
    split_and!; try done; [|apply prefix_nil].
    rewrite <- Hco, <- app_assoc. by eexists. }
  pose proof (Hni ltac:(done)) as ->. simpl in Hco.
  split_and!; try done.
  { injection Hco as Hco. rewrite <- Hco. by eexists. }
  intros _. split; [done|].
  destruct (Inv_complete _ _ _ _ _ Hbase Hm) as [Hpd Hcd].
  destruct (Inv_consumer_done _ _ _ _ _ Hbase Hcd) as (Hout & _).
  rewrite Hpd in Hp. rewrite Hcd, Hout in Hc.
  unfold logged_by in Hc. simpl in Hc, Hp.
  rewrite Hjc in Hc by done. rewrite Hjp in Hp by done.
  simpl in Hc, Hp. rewrite ?app_nil_r in Hc, Hp.
  rewrite Hw, !lines_of_app in Hc, Hp. rewrite <- Hpost in Hc, Hp.
  rewrite lines_of_disjoint in Hc, Hp by done.
  simpl in Hc, Hp. rewrite ?app_nil_r in Hc. rewrite ?app_nil_r in Hp.
  split; [exact Hc|exact Hp].
Qed.

(** X16. The lines of different threads in the file: the lines "Source data"
    and "Queue capacity" come before every line of the producer and the
    consumer, and the closing lines of [start] come only when both threads
    have written all their lines. *)
Theorem file_layout h data cap old ltr s items :
  logged_run str repr h data cap old ltr s → h !! data = Some items →
  ∃ pre mid post,
    writes ltr = pre ++ mid ++ post
    ∧ pre `prefix_of` [MSource items; MCapacity cap]
    ∧ lines_of Coordinator mid = []
    ∧ post `prefix_of` closing_lines items
    ∧ (mid ≠ [] → pre = [MSource items; MCapacity cap])
    ∧ (post ≠ [] →
       pre = [MSource items; MCapacity cap]
       ∧ lines_of Consumer mid = consumer_lines items
       ∧ call_of <$> lines_of Producer mid = producer_calls items).
Proof.
  intros Hr Hd. pose proof (LInv_run _ _ _ _ _ _ _ Hd Hr) as HI.
  by apply (LInv_layout _ _ _ _ _ _ HI).
Qed.

(** X17. No item is reported as got before it is reported as being added:
    at every moment the items of the lines "Got ... from queue" in the file
    are the beginning of the items of the lines "Adding ... to queue", so the
    line "Got" of the k-th item comes after the line "Adding" of the k-th
    item. *)
Theorem got_after_adding h data cap old ltr s :
  logged_run str repr h data cap old ltr s →
  got_items (writes ltr) `prefix_of` adding_items (writes ltr).
Proof.
  intros Hr. pose proof (one_call_ok_run _ _ _ _ _ _ Hr) as Hok.
  destruct (LInv_run_ex _ _ _ _ _ _ Hr) as (items & Hd & HI).
  pose proof (li_base _ _ _ _ _ _ _ _ HI) as Hbase.
  apply (prefix_of_shorter _ _ items).
  - rewrite <- got_items_lines, <- (got_items_consumer_lines items).
    apply omap_prefix. etrans; [|by eapply LInv_consumer_prefix].
    unfold logged_by. by eexists.
  - rewrite <- adding_items_lines, <- (adding_calls_producer_calls items).
    apply omap_prefix. etrans; [|by eapply LInv_producer_prefix].
    rewrite fmap_app, <- app_assoc. by eexists.
  - etrans; [by eapply LInv_got|].
    etrans; [|by eapply LInv_adding].
    rewrite (inv_puts _ _ _ _ _ Hbase), (inv_takes _ _ _ _ _ Hbase).
    rewrite !length_app. lia.
Qed.

(** X18. When [start] has returned, the destination holds the items that the
    source held at construction, in their order, whatever the capacity, the
    interleaving of the threads and the changes the caller made to its own
    list meanwhile: the assertions of the tests in
    [test_producer_consumer.py], which compare [pc.destination] and its
    length with the source after [pc.start()], hold in every run. *)
Theorem destination_after_start h data cap old ltr s items :
  logged_run str repr h data cap old ltr s → h !! data = Some items →
  returned s →
  output (system s) = items
  ∧ length (output (system s)) = length items
  ∧ success (system s) = true.
Proof.
  intros Hr Hd [Hm _]. pose proof (LInv_run _ _ _ _ _ _ _ Hd Hr) as HI.
  pose proof (li_base _ _ _ _ _ _ _ _ HI) as Hbase.
  destruct (Inv_complete _ _ _ _ _ Hbase Hm) as [_ Hcd].
  destruct (Inv_consumer_done _ _ _ _ _ Hbase Hcd) as (Hout & _).
  split; [done|]. split; [by rewrite Hout|].
  unfold success. rewrite (Inv_input _ _ _ _ _ Hbase), Hout.
  by apply bool_decide_eq_true_2.
Qed.

End logging_properties.

Lemma logging_refines_witness :
  logged_run pretty pretty (store_of [1; 2; 3]%Z) caller 2 "an earlier run"
             (actions_of (logged_sample 30)) (logged_of (logged_sample 30))
  ∧ run (store_of [1; 2; 3]%Z) caller 2
        (base_events (actions_of (logged_sample 30)))
        (system (logged_of (logged_sample 30))).
Proof.
  assert (Hr : logged_run pretty pretty (store_of [1; 2; 3]%Z) caller 2
                 "an earlier run" (actions_of (logged_sample 30))
                 (logged_of (logged_sample 30))).
  { apply (execute_logged_run _ _ _ _ _ _ 30). vm_compute. reflexivity. }
  split; [exact Hr|]. exact (logging_refines _ _ _ _ _ _ _ _ Hr).
Defined.

Lemma output_file_contents_witness :
  logged_run pretty pretty (store_of [1; 2; 3]%Z) caller 2 "an earlier run"
             (actions_of (logged_sample 3)) (logged_of (logged_sample 3))
  ∧ opened (logged_of (logged_sample 3)) = true
  ∧ file (logged_of (logged_sample 3))
    = header +:+ text pretty pretty (writes (actions_of (logged_sample 3))).
Proof.
  assert (Hr : logged_run pretty pretty (store_of [1; 2; 3]%Z) caller 2
                 "an earlier run" (actions_of (logged_sample 3))
                 (logged_of (logged_sample 3))).
  { apply (execute_logged_run _ _ _ _ _ _ 3). vm_compute. reflexivity. }
  assert (Ho : opened (logged_of (logged_sample 3)) = true)
    by (vm_compute; reflexivity).
  pose proof (output_file_contents _ _ _ _ _ _ _ _ Hr) as Hf.
  rewrite Ho in Hf. split; [exact Hr|]. split; [exact Ho|exact Hf].
Defined.

Lemma logged_queue_sizes_witness :
  logged_run pretty pretty (store_of [1; 2; 3]%Z) caller 2 "an earlier run"
             (actions_of (logged_sample 74)) (logged_of (logged_sample 74))
  ∧ MAdded 3%Z 2 ∈ writes (actions_of (logged_sample 74))
  ∧ (0 ≤ 2)%Z ∧ ((0 < 2)%Z → (2 ≤ 2)%Z).
Proof.
  assert (Hr : logged_run pretty pretty (store_of [1; 2; 3]%Z) caller 2
                 "an earlier run" (actions_of (logged_sample 74))
                 (logged_of (logged_sample 74))).
  { apply (execute_logged_run _ _ _ _ _ _ 74). vm_compute. reflexivity. }
  assert (Hin : MAdded 3%Z 2 ∈ writes (actions_of (logged_sample 74))).
  { apply (list_elem_of_lookup_2 _ 10). vm_compute. reflexivity. }
  split; [exact Hr|]. split; [exact Hin|].
  exact (logged_queue_sizes _ _ _ _ _ _ _ _ _ _ Hr Hin).
Defined.

Lemma consumer_lines_in_order_witness :
  logged_run pretty pretty (store_of [1; 2; 3]%Z) caller 2 "an earlier run"
             (actions_of (logged_sample 50)) (logged_of (logged_sample 50))
  ∧ store_of [1; 2; 3]%Z !! caller = Some [1; 2; 3]%Z
  ∧ lines_of Consumer (writes (actions_of (logged_sample 50)))
    `prefix_of` consumer_lines [1; 2; 3]%Z.
Proof.
  assert (Hd : store_of [1; 2; 3]%Z !! caller = Some [1; 2; 3]%Z)
    by (vm_compute; reflexivity).
  assert (Hr : logged_run pretty pretty (store_of [1; 2; 3]%Z) caller 2
                 "an earlier run" (actions_of (logged_sample 50))
                 (logged_of (logged_sample 50))).
  { apply (execute_logged_run _ _ _ _ _ _ 50). vm_compute. reflexivity. }
  split; [exact Hr|]. split; [exact Hd|].
  exact (consumer_lines_in_order _ _ _ _ _ _ _ _ _ Hr Hd).
Defined.

Lemma producer_lines_in_order_witness :
  logged_run pretty pretty (store_of [1; 2; 3]%Z) caller 2 "an earlier run"
             (actions_of (logged_sample 20)) (logged_of (logged_sample 20))
  ∧ store_of [1; 2; 3]%Z !! caller = Some [1; 2; 3]%Z
  ∧ call_of <$> lines_of Producer (writes (actions_of (logged_sample 20)))
    `prefix_of` producer_calls [1; 2; 3]%Z.
Proof.
  assert (Hd : store_of [1; 2; 3]%Z !! caller = Some [1; 2; 3]%Z)
    by (vm_compute; reflexivity).
  assert (Hr : logged_run pretty pretty (store_of [1; 2; 3]%Z) caller 2
                 "an earlier run" (actions_of (logged_sample 20))
                 (logged_of (logged_sample 20))).
  { apply (execute_logged_run _ _ _ _ _ _ 20). vm_compute. reflexivity. }
  split; [exact Hr|]. split; [exact Hd|].
  exact (producer_lines_in_order _ _ _ _ _ _ _ _ _ Hr Hd).
Defined.

Lemma final_file_witness :
  logged_run pretty pretty (store_of [1; 2; 3]%Z) caller 2 "an earlier run"
             (actions_of (logged_sample 74)) (logged_of (logged_sample 74))
  ∧ store_of [1; 2; 3]%Z !! caller = Some [1; 2; 3]%Z
  ∧ returned (logged_of (logged_sample 74))
  ∧ ∃ mid,
      file (logged_of (logged_sample 74))
      = header +:+ text pretty pretty
                     ([MSource [1; 2; 3]%Z; MCapacity 2] ++ mid
                      ++ closing_lines [1; 2; 3]%Z)
      ∧ lines_of Coordinator mid = []
      ∧ lines_of Consumer mid = consumer_lines [1; 2; 3]%Z
      ∧ call_of <$> lines_of Producer mid = producer_calls [1; 2; 3]%Z.
Proof.
  assert (Hd : store_of [1; 2; 3]%Z !! caller = Some [1; 2; 3]%Z)
    by (vm_compute; reflexivity).
  assert (Hr : logged_run pretty pretty (store_of [1; 2; 3]%Z) caller 2
                 "an earlier run" (actions_of (logged_sample 74))
                 (logged_of (logged_sample 74))).
  { apply (execute_logged_run _ _ _ _ _ _ 74). vm_compute. reflexivity. }
  assert (Hret : returned (logged_of (logged_sample 74)))
    by (split; vm_compute; reflexivity).
  split; [exact Hr|]. split; [exact Hd|]. split; [exact Hret|].
  exact (final_file _ _ _ _ _ _ _ _ _ Hr Hd Hret).
Defined.

Lemma logged_run_progress_witness :
  logged_run pretty pretty (store_of [1; 2; 3]%Z) caller 2 "an earlier run"
             (actions_of (logged_sample 30)) (logged_of (logged_sample 30))
  ∧ store_of [1; 2; 3]%Z !! caller = Some [1; 2; 3]%Z
  ∧ thread_actions (actions_of (logged_sample 30)) ≤ 74.
Proof.
  assert (Hd : store_of [1; 2; 3]%Z !! caller = Some [1; 2; 3]%Z)
    by (vm_compute; reflexivity).
  assert (Hr : logged_run pretty pretty (store_of [1; 2; 3]%Z) caller 2
                 "an earlier run" (actions_of (logged_sample 30))
                 (logged_of (logged_sample 30))).
  { apply (execute_logged_run _ _ _ _ _ _ 30). vm_compute. reflexivity. }
  split; [exact Hr|]. split; [exact Hd|].
  exact (proj1 (logged_run_progress _ _ _ _ _ _ _ _ _ Hr Hd)).
Defined.

Lemma logged_start_returns_witness :
  store_of [1; 2; 3]%Z !! caller = Some [1; 2; 3]%Z
  ∧ 15 * length [1; 2; 3]%Z + 29 ≤ 100
  ∧ ∃ ltr s,
      execute_logged pretty pretty (store_of [1; 2; 3]%Z) caller 2
                     "an earlier run" 100 = Some (ltr, s)
      ∧ logged_run pretty pretty (store_of [1; 2; 3]%Z) caller 2
                   "an earlier run" ltr s
      ∧ returned s
      ∧ length ltr = 15 * length [1; 2; 3]%Z + 29.
Proof.
  assert (Hd : store_of [1; 2; 3]%Z !! caller = Some [1; 2; 3]%Z)
    by (vm_compute; reflexivity).
  assert (Hf : 15 * length [1; 2; 3]%Z + 29 ≤ 100) by (simpl; lia).
  split; [exact Hd|]. split; [exact Hf|].
  exact (logged_start_returns pretty pretty _ _ 2 "an earlier run" _ _ Hd Hf).
Defined.

Lemma file_layout_witness :
  logged_run pretty pretty (store_of [1; 2; 3]%Z) caller 2 "an earlier run"
             (actions_of (logged_sample 70)) (logged_of (logged_sample 70))
  ∧ store_of [1; 2; 3]%Z !! caller = Some [1; 2; 3]%Z
  ∧ ∃ pre mid post,
      writes (actions_of (logged_sample 70)) = pre ++ mid ++ post
      ∧ pre `prefix_of` [MSource [1; 2; 3]%Z; MCapacity 2]
      ∧ lines_of Coordinator mid = []
      ∧ post `prefix_of` closing_lines [1; 2; 3]%Z
      ∧ (mid ≠ [] → pre = [MSource [1; 2; 3]%Z; MCapacity 2])
      ∧ (post ≠ [] →
         pre = [MSource [1; 2; 3]%Z; MCapacity 2]
         ∧ lines_of Consumer mid = consumer_lines [1; 2; 3]%Z
         ∧ call_of <$> lines_of Producer mid = producer_calls [1; 2; 3]%Z).
Proof.
  assert (Hd : store_of [1; 2; 3]%Z !! caller = Some [1; 2; 3]%Z)
    by (vm_compute; reflexivity).
  assert (Hr : logged_run pretty pretty (store_of [1; 2; 3]%Z) caller 2
                 "an earlier run" (actions_of (logged_sample 70))
                 (logged_of (logged_sample 70))).
  { apply (execute_logged_run _ _ _ _ _ _ 70). vm_compute. reflexivity. }
  split; [exact Hr|]. split; [exact Hd|].
  exact (file_layout _ _ _ _ _ _ _ _ _ Hr Hd).
Defined.

Lemma got_after_adding_witness :
  logged_run pretty pretty (store_of [1; 2; 3]%Z) caller 2 "an earlier run"
             (actions_of (logged_sample 50)) (logged_of (logged_sample 50))
  ∧ got_items (writes (actions_of (logged_sample 50))) = [1; 2]%Z
  ∧ got_items (writes (actions_of (logged_sample 50)))
    `prefix_of` adding_items (writes (actions_of (logged_sample 50))).
Proof.
  assert (Hr : logged_run pretty pretty (store_of [1; 2; 3]%Z) caller 2
                 "an earlier run" (actions_of (logged_sample 50))
                 (logged_of (logged_sample 50))).
  { apply (execute_logged_run _ _ _ _ _ _ 50). vm_compute. reflexivity. }
  split; [exact Hr|]. split; [vm_compute; reflexivity|].
  exact (got_after_adding _ _ _ _ _ _ _ _ Hr).
Defined.

Lemma destination_after_start_witness :
  logged_run pretty pretty (store_of [42]%Z) caller 1 ""
    (actions_of (execute_logged pretty pretty (store_of [42]%Z) caller 1
                                "" 44))
    (logged_of (execute_logged pretty pretty (store_of [42]%Z) caller 1
                               "" 44))
  ∧ store_of [42]%Z !! caller = Some [42]%Z
  ∧ returned (logged_of (execute_logged pretty pretty (store_of [42]%Z)
                                        caller 1 "" 44))
  ∧ output (system (logged_of (execute_logged pretty pretty
                                 (store_of [42]%Z) caller 1 "" 44)))
    = [42]%Z.
Proof.
  assert (Hd : store_of [42]%Z !! caller = Some [42]%Z)
    by (vm_compute; reflexivity).
  assert (Hr : logged_run pretty pretty (store_of [42]%Z) caller 1 ""
    (actions_of (execute_logged pretty pretty (store_of [42]%Z) caller 1
                                "" 44))
    (logged_of (execute_logged pretty pretty (store_of [42]%Z) caller 1
                               "" 44))).
  { apply (execute_logged_run _ _ _ _ _ _ 44). vm_compute. reflexivity. }
  assert (Hret : returned (logged_of (execute_logged pretty pretty
                             (store_of [42]%Z) caller 1 "" 44)))
    by (split; vm_compute; reflexivity).
  split; [exact Hr|]. split; [exact Hd|]. split; [exact Hret|].
  exact (proj1 (destination_after_start _ _ _ _ _ _ _ _ _ Hr Hd Hret)).
Defined.
